(** * Projekt site behaviour layer (src/js/main.js): a shallow embedding

    Numbers that the script only ever uses as integers (slide indices, list
    lengths) are modelled in [Z], with JavaScript's remainder operator [%]
    as the truncating [Z.rem].  Quantities that the script computes with
    fractional values (easing curves, pointer coordinates, scroll ratios) are
    modelled in exact rational arithmetic [Q]; the rounding of IEEE-754
    doubles is outside the model.  DOM elements are records holding the
    attributes the script reads and writes; an element that a selector does
    not find is [None], or [false] where only its presence matters. *)

From Stdlib Require Import ZArith QArith Qround Qabs Qpower Qminmax Lia Lqa List Bool String Ascii.
From stdpp Require Import base gmap sets list strings.

Local Open Scope Z_scope.

(** ** Outcome of a component initialiser *)

(** [NoOp]: the initialiser returned from a guard without touching anything.
    [Fault]: it threw (a [TypeError] on a [null] element).
    [Ran st]: it ran to its end and left the component in state [st]. *)
Inductive InitResult (A : Type) : Type :=
| NoOp
| Fault
| Ran (st : A).
Arguments NoOp {A}.
Arguments Fault {A}.
Arguments Ran {A} st.

(** ** 1. Utilities *)

(** [const clamp = (val, min, max) => Math.min(Math.max(val, min), max)] *)
Definition clamp (val min max : Q) : Q := Qmin (Qmax val min) max.

(** ** 8. Testimonials carousel *)
Module Carousel.

(** The elements [initTestimonialsCarousel] queries.  The track carries the
    number of [.testimonial-card] elements found inside it. *)
Record Dom := {
  testimonialsTrack : option nat;
  testimonialPrev : bool;
  testimonialNext : bool;
  testimonialDots : bool
}.

(** One indicator button: its [active] class and [aria-selected] attribute. *)
Record Dot := { active : bool; ariaSelected : bool }.

Record State := {
  cards : nat;                  (* cards.length *)
  currentIndex : Z;
  translateX : Z;               (* track.style.transform: translateX(-<this>%) *)
  dots : list Dot;
  autoPlayTimer : option nat;   (* handle last returned by setInterval *)
  intervals : gset nat;         (* interval timers that are still live *)
  nextHandle : nat;             (* next handle setInterval will return *)
  touchStartX : Z;
  touchEndX : Z
}.

Definition with_index (st : State) (i : Z) (offset : Z) (ds : list Dot) : State :=
  {| cards := cards st; currentIndex := i; translateX := offset; dots := ds;
     autoPlayTimer := autoPlayTimer st; intervals := intervals st;
     nextHandle := nextHandle st;
     touchStartX := touchStartX st; touchEndX := touchEndX st |}.

Definition with_timer (st : State) (t : option nat) (live : gset nat) (nh : nat) : State :=
  {| cards := cards st; currentIndex := currentIndex st; translateX := translateX st;
     dots := dots st; autoPlayTimer := t; intervals := live; nextHandle := nh;
     touchStartX := touchStartX st; touchEndX := touchEndX st |}.

Definition with_touch (st : State) (sx ex : Z) : State :=
  {| cards := cards st; currentIndex := currentIndex st; translateX := translateX st;
     dots := dots st; autoPlayTimer := autoPlayTimer st; intervals := intervals st;
     nextHandle := nextHandle st; touchStartX := sx; touchEndX := ex |}.

(** [currentIndex = (index + cards.length) % cards.length]; the transform
    is assigned the text [translateX(-<currentIndex * 100>%)], which for a
    negative index reads [translateX(--100%)]: that is no transform, and the
    style keeps the value it had; then every dot is toggled against the new
    index. *)
Definition goToSlide (index : Z) (st : State) : State :=
  let n := Z.of_nat (cards st) in
  let ci := Z.rem (index + n) n in
  with_index st ci (if 0 <=? ci then ci * 100 else translateX st)
    (imap (fun i _ => {| active := Z.of_nat i =? ci; ariaSelected := Z.of_nat i =? ci |})
          (dots st)).

Definition startAutoPlay (reduced : bool) (st : State) : State :=
  if reduced then st
  else with_timer st (Some (nextHandle st)) ({[ nextHandle st ]} ∪ intervals st)
                  (S (nextHandle st)).

(** [clearInterval(autoPlayTimer)]: the variable keeps the stale handle. *)
Definition clearAutoPlay (st : State) : State :=
  match autoPlayTimer st with
  | None => st
  | Some h => with_timer st (Some h) (intervals st ∖ {[ h ]}) (nextHandle st)
  end.

Definition resetAutoPlay (reduced : bool) (st : State) : State :=
  startAutoPlay reduced (clearAutoPlay st).

Inductive Key := ArrowLeft | ArrowRight | OtherKey.

Inductive Event :=
| ClickPrev
| ClickNext
| ClickDot (index : nat)
| KeyDown (key : Key) (rectTop rectBottom innerHeight : Z)
| Tick (handle : nat)
| MouseEnter
| MouseLeave
| TouchStart (screenX : Z)
| TouchEnd (screenX : Z).

(** The listeners registered by the initialiser.  [reduced] is what
    [prefersReducedMotion()] answers while the listener runs. *)
Definition handle (reduced : bool) (ev : Event) (st : State) : State :=
  match ev with
  | ClickPrev => resetAutoPlay reduced (goToSlide (currentIndex st - 1) st)
  | ClickNext => resetAutoPlay reduced (goToSlide (currentIndex st + 1) st)
  | ClickDot index =>
      (* one button was created per card; there is none beyond them *)
      if (index <? cards st)%nat
      then resetAutoPlay reduced (goToSlide (Z.of_nat index) st)
      else st
  | KeyDown key rectTop rectBottom innerHeight =>
      if (rectBottom <? 0) || (innerHeight <? rectTop) then st
      else
        let st1 := match key with
                   | ArrowLeft => resetAutoPlay reduced (goToSlide (currentIndex st - 1) st)
                   | _ => st
                   end in
        match key with
        | ArrowRight => resetAutoPlay reduced (goToSlide (currentIndex st1 + 1) st1)
        | _ => st1
        end
  | Tick h =>
      if decide (h ∈ intervals st) then goToSlide (currentIndex st + 1) st else st
  | MouseEnter => clearAutoPlay st
  | MouseLeave => startAutoPlay reduced st
  | TouchStart x => with_touch st x (touchEndX st)
  | TouchEnd x =>
      let st1 := with_touch st (touchStartX st) x in
      let diff := touchStartX st1 - touchEndX st1 in
      if 50 <? Z.abs diff then
        resetAutoPlay reduced
          (if 0 <? diff then goToSlide (currentIndex st1 + 1) st1
           else goToSlide (currentIndex st1 - 1) st1)
      else st1
  end.

(** The closure variables as declared, with the [n] indicator buttons that
    [cards.forEach] creates (the first one with [aria-selected] true). *)
Definition initial (n : nat) : State :=
  {| cards := n; currentIndex := 0; translateX := 0;
     dots := imap (fun i (_ : unit) => {| active := false; ariaSelected := (i =? 0)%nat |})
                  (replicate n tt);
     autoPlayTimer := None; intervals := ∅; nextHandle := 0;
     touchStartX := 0; touchEndX := 0 |}.

(** [initTestimonialsCarousel].  The guard covers the track and the two
    buttons; [#testimonialDots] is dereferenced in the first iteration of
    [cards.forEach] without one. *)
Definition initTestimonialsCarousel (reduced : bool) (dom : Dom) : InitResult State :=
  match testimonialsTrack dom with
  | None => NoOp
  | Some n =>
      if negb (testimonialPrev dom) || negb (testimonialNext dom) then NoOp
      else if (n =? 0)%nat then NoOp
      else if negb (testimonialDots dom) then Fault
      else Ran (startAutoPlay reduced (goToSlide 0 (initial n)))
  end.

(** Running the component: initialise, then deliver events in order. *)
Definition run (dom : Dom) (reduced0 : bool) (evs : list (bool * Event)) : InitResult State :=
  match initTestimonialsCarousel reduced0 dom with
  | Ran st0 => Ran (foldl (fun st e => handle (fst e) (snd e) st) st0 evs)
  | NoOp => NoOp
  | Fault => Fault
  end.

(** The invariant of the component: there is a slide and the index is on one. *)
Definition on_slide (st : State) : Prop :=
  (0 < cards st)%nat ∧ 0 ≤ currentIndex st < Z.of_nat (cards st).

(** A page with five testimonials. *)
Definition five_slides : Dom :=
  {| testimonialsTrack := Some 5%nat; testimonialPrev := true;
     testimonialNext := true; testimonialDots := true |}.


(** Events delivered in order to a running carousel. *)
Definition deliver (evs : list (bool * Event)) (st : State) : State :=
  foldl (fun st e => handle e.1 e.2 st) st evs.


(** Timer handles come from a counter: the live ones and the stored one are
    below the next one to be handed out. *)
Definition fresh (st : State) : Prop :=
  (∀ h, h ∈ intervals st → (h < nextHandle st)%nat) ∧
  (∀ h, autoPlayTimer st = Some h → (h < nextHandle st)%nat).

(** Whether the listener for [ev] reaches [goToSlide] and [resetAutoPlay]:
    a button or an existing dot, an arrow key while the track is in the
    viewport, the end of a swipe longer than 50 pixels. *)
Definition navigates (ev : Event) (st : State) : bool :=
  match ev with
  | ClickPrev | ClickNext => true
  | ClickDot index => (index <? cards st)%nat
  | KeyDown key rectTop rectBottom innerHeight =>
      negb ((rectBottom <? 0) || (innerHeight <? rectTop))
      && match key with OtherKey => false | _ => true end
  | TouchEnd x => 50 <? Z.abs (touchStartX st - x)
  | _ => false
  end.

End Carousel.

(** ** JavaScript strings and the regular expression used by the form *)
Module Js.

(** A string is its sequence of UTF-16 code units; [length] counts them. *)
Definition jsstring := list N.

(** The code units of an ASCII literal. *)
Definition lit (s : string) : jsstring := map N_of_ascii (list_ascii_of_string s).

(** ECMAScript WhiteSpace and LineTerminator code points: what
    [String.prototype.trim] strips and what the class [\s] matches. *)
Definition isWhiteSpace (c : N) : bool :=
  ((9 <=? c) && (c <=? 13)             (* TAB LF VT FF CR *)
   || (c =? 32)                        (* SP *)
   || (c =? 160)                       (* NBSP *)
   || (c =? 5760)                      (* U+1680 *)
   || ((8192 <=? c) && (c <=? 8202))   (* U+2000 .. U+200A *)
   || (c =? 8232) || (c =? 8233)       (* LS PS *)
   || (c =? 8239) || (c =? 8287)       (* U+202F U+205F *)
   || (c =? 12288)                     (* U+3000 *)
   || (c =? 65279))%N.                 (* U+FEFF *)

Fixpoint trimStart (s : jsstring) : jsstring :=
  match s with
  | c :: s' => if isWhiteSpace c then trimStart s' else s
  | [] => []
  end.

Definition trimEnd (s : jsstring) : jsstring := rev (trimStart (rev s)).

(** [s.trim()] *)
Definition trim (s : jsstring) : jsstring := trimEnd (trimStart s).

(** Regular expressions over code units; a character class is its
    membership test. *)
Inductive regex :=
| Never
| Empty
| Class (p : N -> bool)
| Seq (r1 r2 : regex)
| Or (r1 r2 : regex)
| Star (r : regex).

(** [r+] *)
Definition Plus (r : regex) : regex := Seq r (Star r).

(** A literal character. *)
Definition Chr (c : N) : regex := Class (N.eqb c).

Fixpoint nullable (r : regex) : bool :=
  match r with
  | Never => false
  | Empty => true
  | Class _ => false
  | Seq r1 r2 => nullable r1 && nullable r2
  | Or r1 r2 => nullable r1 || nullable r2
  | Star _ => true
  end.

Fixpoint deriv (c : N) (r : regex) : regex :=
  match r with
  | Never => Never
  | Empty => Never
  | Class p => if p c then Empty else Never
  | Seq r1 r2 =>
      if nullable r1 then Or (Seq (deriv c r1) r2) (deriv c r2)
      else Seq (deriv c r1) r2
  | Or r1 r2 => Or (deriv c r1) (deriv c r2)
  | Star r1 => Seq (deriv c r1) (Star r1)
  end.

(** [/^r$/.test(s)]: with both anchors and no [m] flag the test succeeds
    exactly when the whole of [s] is in the language of [r]. *)
Fixpoint test (r : regex) (s : jsstring) : bool :=
  match s with
  | [] => nullable r
  | c :: s' => test (deriv c r) s'
  end.

(** The class [[^\s@]]. *)
Definition notSpaceAt (c : N) : bool := negb (isWhiteSpace c || (c =? 64)%N).

(** [/^[^\s@]+@[^\s@]+\.[^\s@]+$/] *)
Definition emailRegex : regex :=
  Seq (Plus (Class notSpaceAt))
      (Seq (Chr 64)
           (Seq (Plus (Class notSpaceAt))
                (Seq (Chr 46) (Plus (Class notSpaceAt))))).

(** The language of a regular expression. *)
Inductive matches : regex → jsstring → Prop :=
| MEmpty : matches Empty []
| MClass p c : p c = true → matches (Class p) [c]
| MSeq r1 r2 s1 s2 : matches r1 s1 → matches r2 s2 → matches (Seq r1 r2) (s1 ++ s2)
| MOrL r1 r2 s : matches r1 s → matches (Or r1 r2) s
| MOrR r1 r2 s : matches r2 s → matches (Or r1 r2) s
| MStarNil r : matches (Star r) []
| MStarApp r s1 s2 : matches r s1 → matches (Star r) s2 → matches (Star r) (s1 ++ s2).

(** A code unit that is neither white space nor [@]. *)
Definition plain (c : N) : Prop := isWhiteSpace c = false ∧ c ≠ 64%N.

(** The two-part shape [local@name.tld]: three non-empty parts free of white
    space and of [@], joined by the one [@] and a dot after it. *)
Definition emailShape (s : jsstring) : Prop :=
  ∃ loc name tld : jsstring,
    s = loc ++ 64%N :: name ++ 46%N :: tld ∧
    loc ≠ [] ∧ name ≠ [] ∧ tld ≠ [] ∧
    Forall plain loc ∧ Forall plain name ∧ Forall plain tld.

End Js.

(** ** 9. Contact form *)
Module Form.
Import Js.

(** An input of the form.  [parentNode] names the element the input sits
    in, and [fieldErrors] are the [.field-error] spans inside that element,
    in document order, each with the identity it got from
    [document.createElement]: inputs that share a parent see the same spans.
    The parents of the inputs are taken to lie side by side, none inside
    another (the page markup is not part of the sources).  [inputOnce] are
    the pending [{ once: true }] listeners for [input], each named by the
    span its closure removes. *)
Record Field := {
  value : jsstring;
  defaultValue : jsstring;
  hasError : bool;              (* classList contains has-error *)
  formInput : bool;             (* classList contains form-input *)
  required : bool;              (* hasAttribute('required') *)
  parentNode : nat;
  fieldErrors : list (nat * string);
  inputOnce : list nat
}.

Record Button := { isLoading : bool; disabled : bool }.

Record Feedback := { className : string; textContent : string }.

(** The form: its inputs by selector, its [.form-submit] button, the element
    that has focus, and the supply of span identities. *)
Record FormEl := {
  inputs : gmap string Field;
  formSubmit : option Button;
  focused : option string;
  nextSpan : nat
}.

(** What [initContactForm] queries in the document. *)
Record Dom := {
  contatoForm : option FormEl;
  formFeedback : option Feedback
}.

(** The component once its listeners are registered: [form] and [feedback]
    are the two constants the closures capture. *)
Record State := {
  form : FormEl;
  feedback : option Feedback
}.

Definition setError (b : bool) (f : Field) : Field :=
  {| value := value f; defaultValue := defaultValue f; hasError := b;
     formInput := formInput f; required := required f; parentNode := parentNode f;
     fieldErrors := fieldErrors f; inputOnce := inputOnce f |}.

Definition setValue (v : jsstring) (f : Field) : Field :=
  {| value := v; defaultValue := defaultValue f; hasError := hasError f;
     formInput := formInput f; required := required f; parentNode := parentNode f;
     fieldErrors := fieldErrors f; inputOnce := inputOnce f |}.

Definition setErrors (es : list (nat * string)) (ls : list nat) (f : Field) : Field :=
  {| value := value f; defaultValue := defaultValue f; hasError := hasError f;
     formInput := formInput f; required := required f; parentNode := parentNode f;
     fieldErrors := es; inputOnce := ls |}.

Definition setInputs (m : gmap string Field) (nx : nat) (fm : FormEl) : FormEl :=
  {| inputs := m; formSubmit := formSubmit fm; focused := focused fm; nextSpan := nx |}.

Definition setFocus (sel : option string) (fm : FormEl) : FormEl :=
  {| inputs := inputs fm; formSubmit := formSubmit fm; focused := sel;
     nextSpan := nextSpan fm |}.

Definition setButton (b : Button) (fm : FormEl) : FormEl :=
  {| inputs := inputs fm; formSubmit := Some b; focused := focused fm;
     nextSpan := nextSpan fm |}.

(** What [markInvalid] does to the field: add the marker, drop the first
    span under the parent if there is one, append the fresh span [error] and
    register the one-shot listener that will remove marker and span. *)
Definition marked (error : nat) (message : string) (field : Field) : Field :=
  setErrors (tail (fieldErrors field) ++ [(error, message)])
            (inputOnce field ++ [error])
            (setError true field).

(** What [markInvalid] on a field inside the element [parent] does to
    another input [g]: if [g] sits in the same element, the first span there
    goes and the fresh one comes. *)
Definition shown (parent : nat) (error : nat) (message : string) (g : Field) : Field :=
  if (parentNode g =? parent)%nat
  then setErrors (tail (fieldErrors g) ++ [(error, message)]) (inputOnce g) g
  else g.

(** [markInvalid(field, message)] *)
Definition markInvalid (sel : string) (message : string) (fm : FormEl) : FormEl :=
  match inputs fm !! sel with
  | None => fm
  | Some field =>
      setInputs (<[ sel := marked (nextSpan fm) message field ]>
                   (shown (parentNode field) (nextSpan fm) message <$> inputs fm))
                (S (nextSpan fm)) fm
  end.

(** One of the three checks of [validateForm]: [if (el && bad(el.value.trim()))
    { markInvalid(el, msg); if (!firstInvalidField) firstInvalidField = el;
    valid = false }]. *)
Definition check (sel : string) (bad : jsstring -> bool) (message : string)
    (acc : bool * option string * FormEl) : bool * option string * FormEl :=
  let '(valid, firstInvalidField, fm) := acc in
  match inputs fm !! sel with
  | Some el =>
      if bad (trim (value el))
      then (false,
            match firstInvalidField with Some s => Some s | None => Some sel end,
            markInvalid sel message fm)
      else acc
  | None => acc
  end.

Definition nomeBad (v : jsstring) : bool := (length v <? 2)%nat.
Definition emailBad (v : jsstring) : bool := negb (test emailRegex v).
Definition mensagemBad (v : jsstring) : bool := (length v <? 10)%nat.

(** [el.classList.remove('has-error')] on an element matching
    [.form-input.has-error]. *)
Definition unmark (el : Field) : Field :=
  if formInput el && hasError el then setError false el else el.

(** [validateForm()]: returns [valid], [firstInvalidField] and the form as the
    call leaves it. *)
Definition validateForm (fm : FormEl) : bool * option string * FormEl :=
  let acc0 := (true, None, setInputs (unmark <$> inputs fm) (nextSpan fm) fm) in
  let acc1 := check "#nomeInput" nomeBad "Nome deve ter ao menos 2 caracteres" acc0 in
  let acc2 := check "#emailInput" emailBad "E-mail inválido" acc1 in
  check "#mensagemInput" mensagemBad "Mensagem deve ter ao menos 10 caracteres" acc2.

(** The object handed to the submission collaborator. *)
Record FormData := {
  nome : jsstring;
  email : jsstring;
  empresa : jsstring;
  servico : jsstring;
  mensagem : jsstring
}.

(** Reading [$(sel, form).value] throws when the element is missing; the
    properties are read in the order of the object literal. *)
Definition collect (fm : FormEl) : option FormData :=
  n ← inputs fm !! "#nomeInput";
  e ← inputs fm !! "#emailInput";
  c ← inputs fm !! "#empresaInput";
  s ← inputs fm !! "#servicoSelect";
  m ← inputs fm !! "#mensagemInput";
  Some {| nome := trim (value n); email := trim (value e);
          empresa := trim (value c); servico := value s;
          mensagem := trim (value m) |}.

Definition showFeedback (type message : string) (fb : Feedback) : Feedback :=
  {| className := "form-feedback " +:+ type; textContent := message |}.

(** [form.reset()]: every control goes back to its default value; classes
    and error spans are not touched and no [input] event is fired. *)
Definition reset (fm : FormEl) : FormEl :=
  setInputs ((fun el => setValue (defaultValue el) el) <$> inputs fm) (nextSpan fm) fm.

(** How the collaborator's promise settles. *)
Inductive Outcome := Resolved (success : bool) | Rejected.

(** [simulateFormSubmission]: the stand-in of the sources always resolves
    with [{ success: true }]. *)
Definition simulateFormSubmission (data : FormData) : Outcome := Resolved true.

(** A run of the asynchronous submit handler up to its first pause: it
    returns, it throws, or it is suspended at
    [await simulateFormSubmission(data)], leaving the page in state [st]
    to whatever events come before the promise settles. *)
Inductive Run :=
| Returned (st : State)
| Threw (st : State)
| Awaiting (st : State) (data : FormData).

Definition withForm (fm : FormEl) (st : State) : State :=
  {| form := fm; feedback := feedback st |}.

Definition withFeedback (fb : Feedback) (st : State) : State :=
  {| form := form st; feedback := Some fb |}.

(** The [submit] listener, up to its [await].  After a successful validation
    the field values are collected, the button is put in its loading state,
    the feedback element is reset and the collaborator is called. *)
Definition onSubmit (st : State) : Run :=
  let '(valid, firstInvalidField, fm1) := validateForm (form st) in
  if negb valid then
    Returned (withForm (setFocus (match firstInvalidField with
                                  | Some s => Some s
                                  | None => focused fm1
                                  end) fm1) st)
  else
    match collect fm1 with
    | None => Threw (withForm fm1 st)
    | Some formData =>
        match formSubmit fm1 with
        | None => Threw (withForm fm1 st)
        | Some _ =>
            let fm2 := setButton {| isLoading := true; disabled := true |} fm1 in
            match feedback st with
            | None => Threw (withForm fm2 st)
            | Some fb =>
                Awaiting (withFeedback {| className := "form-feedback";
                                          textContent := textContent fb |}
                                       (withForm fm2 st))
                         formData
            end
        end
    end.

(** The [submit] listener from the moment the awaited promise settles: it
    goes on with the page as it is by then, [st].  [try]/[catch] turn a
    negative result or a rejection into the error feedback and [finally]
    releases the button.  The result is the state the listener leaves and
    whether it ended by throwing; it could only throw for want of
    [#formFeedback], and then the listener does not get as far as its
    [await]. *)
Definition afterAwait (result : Outcome) (st : State) : State * bool :=
  let release (s : State) :=
    withForm (setButton {| isLoading := false; disabled := false |} (form s)) s in
  match feedback st with
  | None => (release st, true)
  | Some fb =>
      match result with
      | Resolved true =>
          (release
             (withForm (reset (form st))
                (withFeedback
                   (showFeedback "success"
                      "✓ Mensagem enviada! Entraremos em contato em breve." fb) st)),
           false)
      | Resolved false | Rejected =>
          (release
             (withFeedback
                (showFeedback "error"
                   "Ocorreu um erro. Por favor, tente pelo WhatsApp ou e-mail." fb) st),
           false)
      end
  end.

(** A run of the handler in which the awaited promise settles, as [collab]
    says, before any other event reaches the page: the calls made, each with
    the state it was made in, then the final state and whether the handler
    ended by throwing. *)
Definition settle (collab : FormData -> Outcome) (r : Run)
    : list (FormData * State) * State * bool :=
  match r with
  | Returned st => ([], st, false)
  | Threw st => ([], st, true)
  | Awaiting st data =>
      let '(final, threw) := afterAwait (collab data) st in
      ([(data, st)], final, threw)
  end.

(** The [blur] listener, registered at init on every [.form-input]. *)
Definition onBlur (sel : string) (fm : FormEl) : FormEl :=
  match inputs fm !! sel with
  | Some input =>
      if formInput input then
        if required input && bool_decide (trim (value input) = [])
        then setInputs (<[ sel := setError true input ]> (inputs fm)) (nextSpan fm) fm
        else fm
      else fm
  | None => fm
  end.

(** One pending [input] listener of [markInvalid]: [field.classList.remove
    ('has-error'); error.remove()]. *)
Definition correction (error : nat) (f : Field) : Field :=
  setErrors (filter (fun e => e.1 ≠ error) (fieldErrors f)) (inputOnce f)
            (setError false f).

(** What the listeners [errors] of a field inside the element [parent] do to
    another input [g]: if [g] sits in the same element, the spans they
    remove are gone from there. *)
Definition cleared (parent : nat) (errors : list nat) (g : Field) : Field :=
  if (parentNode g =? parent)%nat
  then setErrors (foldl (fun es error => filter (fun e => e.1 ≠ error) es)
                        (fieldErrors g) errors)
                 (inputOnce g) g
  else g.

(** The user edits the control: its value changes and the [input] event
    runs the pending one-shot listeners in registration order, which are
    then gone. *)
Definition onInput (sel : string) (v : jsstring) (fm : FormEl) : FormEl :=
  match inputs fm !! sel with
  | Some field =>
      let field1 := foldl (fun f error => correction error f)
                          (setValue v field) (inputOnce field) in
      let field2 := setErrors (fieldErrors field1) [] field1 in
      setInputs (<[ sel := field2 ]>
                   (cleared (parentNode field) (inputOnce field) <$> inputs fm))
                (nextSpan fm) fm
  | None => fm
  end.

(** [initContactForm]: without [#contatoForm] nothing happens; otherwise the
    listeners are registered, whether or not [#formFeedback] exists. *)
Definition initContactForm (dom : Dom) : InitResult State :=
  match contatoForm dom with
  | None => NoOp
  | Some fm => Ran {| form := fm; feedback := formFeedback dom |}
  end.

(** What can happen to the component: a [submit] event, whose listener runs
    until it returns, throws or reaches its [await]; an awaited promise
    settling, upon which the listener goes on; a control losing focus; the
    user editing a control. *)
Inductive Op :=
| Submit
| Settle (result : Outcome)
| Blur (sel : string)
| Input (sel : string) (v : jsstring).

(** The state a run of the listener leaves the page in when it pauses. *)
Definition leaves (r : Run) : State :=
  match r with Returned st | Threw st | Awaiting st _ => st end.

Definition apply (op : Op) (st : State) : State :=
  match op with
  | Submit => leaves (onSubmit st)
  | Settle result => (afterAwait result st).1
  | Blur sel => withForm (onBlur sel (form st)) st
  | Input sel v => withForm (onInput sel v (form st)) st
  end.

(** The component after a sequence of operations. *)
Definition after (ops : list Op) (st : State) : State :=
  foldl (fun s op => apply op s) st ops.

(** Whether a [submit] event in state [st] ends with the listener waiting
    for the collaborator. *)
Definition awaits (st : State) : bool :=
  match onSubmit st with Awaiting _ _ => true | _ => false end.

(** A sequence of operations as the disabled button means it to be: a
    promise settles only when a call is waiting for it, and no submission
    attempt starts while one is.  [waiting] counts the calls that wait. *)
Fixpoint orderly (waiting : nat) (ops : list Op) (st : State) : bool :=
  match ops with
  | [] => true
  | op :: rest =>
      match op with
      | Submit =>
          (waiting =? 0)%nat && orderly (if awaits st then 1 else 0) rest (apply op st)
      | Settle _ => (0 <? waiting)%nat && orderly (waiting - 1) rest (apply op st)
      | _ => orderly waiting rest (apply op st)
      end
  end.

(** A form as the page first shows it: no marker, no error span, no pending
    listener. *)
Definition pristine (fm : FormEl) : Prop :=
  ∀ sel f, inputs fm !! sel = Some f →
           hasError f = false ∧ fieldErrors f = [] ∧ inputOnce f = [].


(** Every input sits in an element of its own: no two share their parent. *)
Definition ownWrapper (fm : FormEl) : Prop :=
  ∀ s1 s2 f1 f2, inputs fm !! s1 = Some f1 → inputs fm !! s2 = Some f2 →
                 parentNode f1 = parentNode f2 → s1 = s2.

(** Whether the rule of [validateForm] for the element found by [sel]
    rejects the value [v]; elements without a rule are never rejected. *)
Definition isBad (sel : string) (v : jsstring) : bool :=
  bool_decide (sel = "#nomeInput") && nomeBad (trim v)
  || bool_decide (sel = "#emailInput") && emailBad (trim v)
  || bool_decide (sel = "#mensagemInput") && mensagemBad (trim v).

(** Whether the element found by [sel], if any, holds a value [bad] rejects. *)
Definition rejects (sel : string) (bad : jsstring → bool) (fm : FormEl) : bool :=
  match inputs fm !! sel with
  | Some el => bad (trim (value el))
  | None => false
  end.



(** The form is complete: every element the submit listener dereferences
    exists. *)
Definition complete (st : State) : Prop :=
  is_Some (inputs (form st) !! "#nomeInput") ∧
  is_Some (inputs (form st) !! "#emailInput") ∧
  is_Some (inputs (form st) !! "#empresaInput") ∧
  is_Some (inputs (form st) !! "#servicoSelect") ∧
  is_Some (inputs (form st) !! "#mensagemInput") ∧
  is_Some (formSubmit (form st)) ∧
  is_Some (feedback st).

(** The argument the specification expects: every collected value trimmed. *)
Definition allTrimmed (fm : FormEl) : option FormData :=
  n ← inputs fm !! "#nomeInput";
  e ← inputs fm !! "#emailInput";
  c ← inputs fm !! "#empresaInput";
  s ← inputs fm !! "#servicoSelect";
  m ← inputs fm !! "#mensagemInput";
  Some {| nome := trim (value n); email := trim (value e);
          empresa := trim (value c); servico := trim (value s);
          mensagem := trim (value m) |}.

Definition locked : option Button := Some {| isLoading := true; disabled := true |}.
Definition released : option Button := Some {| isLoading := false; disabled := false |}.

(** C4, as the specification words it. *)
Definition submit_trimmed_claim : Prop :=
  ∀ (st : State) (collab : FormData → Outcome),
    complete st → (validateForm (form st)).1.1 = true →
    ∃ data atCall final,
      settle collab (onSubmit st) = ([(data, atCall)], final, false) ∧
      allTrimmed (form st) = Some data ∧
      formSubmit (form atCall) = locked ∧
      formSubmit (form final) = released.


(** An untouched control holding the ASCII text [v], with the default
    [dflt]. *)
Definition prefilled (v dflt : string) (req : bool) : Field :=
  {| value := lit v; defaultValue := lit dflt; hasError := false; formInput := true;
     required := req; parentNode := 0; fieldErrors := []; inputOnce := [] |}.

(** An untouched control holding the ASCII text [v]. *)
Definition control (v : string) (req : bool) : Field := prefilled v "" req.

(** The control inside the element [parent]. *)
Definition inWrapper (parent : nat) (f : Field) : Field :=
  {| value := value f; defaultValue := defaultValue f; hasError := hasError f;
     formInput := formInput f; required := required f; parentNode := parent;
     fieldErrors := fieldErrors f; inputOnce := inputOnce f |}.

(** A complete form with the five controls given, the button released and
    the feedback element empty. *)
Definition pageOf (n e c s m : Field) : State :=
  {| form :=
       {| inputs :=
            <[ "#nomeInput" := n ]>
              (<[ "#emailInput" := e ]>
                 (<[ "#empresaInput" := c ]>
                    (<[ "#servicoSelect" := s ]>
                       (<[ "#mensagemInput" := m ]> ∅))));
          formSubmit := released; focused := None; nextSpan := 0 |};
     feedback := Some {| className := "form-feedback"; textContent := "" |} |}.

(** A complete page whose form holds the given texts, each control in an
    element of its own. *)
Definition page (n e c s m : string) : State :=
  pageOf (control n true) (inWrapper 1 (control e true)) (inWrapper 2 (control c false))
         (inWrapper 3 (control s false)) (inWrapper 4 (control m true)).


(** The message [validateForm] attaches to the element found by [sel]. *)
Definition ruleMessage (sel : string) : string :=
  if bool_decide (sel = "#nomeInput") then "Nome deve ter ao menos 2 caracteres"
  else if bool_decide (sel = "#emailInput") then "E-mail inválido"
  else "Mensagem deve ter ao menos 10 caracteres".

(** The element found by [sel] shows at most one message, and it is the
    message of its rule. *)
Definition tidy (sel : string) (f : Field) : Prop :=
  (length (fieldErrors f) ≤ 1)%nat ∧ ∀ e, e ∈ fieldErrors f → e.2 = ruleMessage sel.

Definition all_tidy (fm : FormEl) : Prop :=
  ∀ sel f, inputs fm !! sel = Some f → tidy sel f.

(** Operations other than the two steps of a submission attempt. *)
Definition isEdit (op : Op) : bool :=
  match op with Blur _ | Input _ _ => true | _ => false end.

(** The form with the white space [p1] put before and [p2] after the value
    of the element found by [sel]. *)
Definition pad (sel : string) (p1 p2 : jsstring) (fm : FormEl) : FormEl :=
  setInputs (alter (fun f => setValue (p1 ++ value f ++ p2) f) sel (inputs fm))
            (nextSpan fm) fm.

End Form.

(** ** 7. Counters *)
Module Counter.
Local Open Scope Q_scope.

(** [const easeOutCubic = t => 1 - Math.pow(1 - t, 3)] *)
Definition easeOutCubic (t : Q) : Q := 1 - (1 - t) ^ 3.

(** [Math.round]: the nearest integer, halves going up. *)
Definition round (x : Q) : Z := Qfloor (x + (1 # 2)).

(** [clamp(elapsed / duration, 0, 1)] for the frame at [currentTime]. *)
Definition progressAt (start duration currentTime : Q) : Q :=
  clamp ((currentTime - start) / duration) 0 1.

(** One call of [update(currentTime)] inside [animateCounter(el, target,
    duration)]: the number left in [el.textContent] (before locale
    formatting) and whether another frame was requested. *)
Definition update (target : Z) (start duration currentTime : Q) : Z * bool :=
  let startVal := 0 in
  let elapsed := currentTime - start in
  let progress := clamp (elapsed / duration) 0 1 in
  let eased := easeOutCubic progress in
  let current := round (startVal + (inject_Z target - startVal) * eased) in
  if Qlt_le_dec progress 1 then (current, true) else (target, false).

Definition displayed (target : Z) (start duration currentTime : Q) : Z :=
  (update target start duration currentTime).1.

End Counter.

(** ** 5. Scroll reveal *)
Module Reveal.

(** An [IntersectionObserverEntry]: elements are named by a number. *)
Record Entry := { target : nat; isIntersecting : bool }.

(** [revealed]: the elements whose class list contains [is-revealed];
    [observer]: the targets of the observer, [None] if none was created. *)
Record State := {
  revealed : gset nat;
  observer : option (gset nat)
}.

(** The body of the observer callback for one entry. *)
Definition onEntry (st : State) (entry : Entry) : State :=
  if isIntersecting entry then
    {| revealed := {[ target entry ]} ∪ revealed st;
       observer := (fun targets => targets ∖ {[ target entry ]}) <$> observer st |}
  else st.

(** The observer callback: [entries.forEach(...)]. *)
Definition onIntersect (entries : list Entry) (st : State) : State :=
  foldl onEntry st entries.

(** [initScrollAnimations]: [flagged] are the [.reveal-up] elements and
    [marked] those elements that carry [is-revealed] in the markup. *)
Definition initScrollAnimations (reduced : bool) (flagged : list nat) (marked : gset nat)
    : State :=
  if reduced then
    {| revealed := foldl (fun s el => {[ el ]} ∪ s) marked flagged; observer := None |}
  else
    {| revealed := marked;
       observer := Some (foldl (fun s el => {[ el ]} ∪ s) ∅ flagged) |}.

(** The state a sequence of callbacks starts from, then the state after
    each of them. *)
Fixpoint history (callbacks : list (list Entry)) (st : State) : list State :=
  st :: match callbacks with
        | [] => []
        | entries :: rest => history rest (onIntersect entries st)
        end.

(** Changes of a flag along a history: [false] to [true], and back. *)
Fixpoint rises (flags : list bool) : nat :=
  match flags with
  | a :: (b :: _) as rest => (if negb a && b then 1 else 0) + rises rest
  | _ => 0
  end%nat.

Fixpoint falls (flags : list bool) : nat :=
  match flags with
  | a :: (b :: _) as rest => (if a && negb b then 1 else 0) + falls rest
  | _ => 0
  end%nat.

Definition isRevealed (el : nat) (st : State) : bool := bool_decide (el ∈ revealed st).

(** The observer, if there is one, does not watch [el]. *)
Definition unobserved (el : nat) (st : State) : Prop :=
  ∀ targets, observer st = Some targets → el ∉ targets.

(** A sequence of observer callbacks. *)
Definition deliver (callbacks : list (list Entry)) (st : State) : State :=
  foldl (fun s entries => onIntersect entries s) st callbacks.

(** The targets of the intersecting entries among [callbacks]. *)
Definition intersected (callbacks : list (list Entry)) : list nat :=
  target <$> filter (fun e => isIntersecting e = true) (concat callbacks).

End Reveal.

(** ** 2. Pointer follower *)
Module Cursor.
Local Open Scope Q_scope.

Record Style := { left : Q; top : Q }.

(** The closure variables of [initCursor] and the styles of the two markers. *)
Record State := {
  mouseX : Q; mouseY : Q;
  ringX : Q; ringY : Q;
  dot : Style;
  ring : Style
}.

Definition LERP_FACTOR : Q := 12 # 100.

(** What a frame leaves of the distance between trail and pointer. *)
Definition REST : Q := 88 # 100.

(** One animation frame. *)
Definition updateCursor (st : State) : State :=
  let ringX' := ringX st + (mouseX st - ringX st) * LERP_FACTOR in
  let ringY' := ringY st + (mouseY st - ringY st) * LERP_FACTOR in
  {| mouseX := mouseX st; mouseY := mouseY st;
     ringX := ringX'; ringY := ringY';
     dot := {| left := mouseX st; top := mouseY st |};
     ring := {| left := ringX'; top := ringY' |} |}.

(** The [mousemove] listener. *)
Definition onMouseMove (clientX clientY : Q) (st : State) : State :=
  {| mouseX := clientX; mouseY := clientY; ringX := ringX st; ringY := ringY st;
     dot := dot st; ring := ring st |}.

(** [k] frames in a row with no pointer event in between. *)
Fixpoint frames (k : nat) (st : State) : State :=
  match k with
  | O => st
  | S k' => frames k' (updateCursor st)
  end.

(** The elements [initCursor] queries: [#cursor] and, inside it, the two
    markers. *)
Record Dom := {
  cursor : option (option Style * option Style)
}.

(** [initCursor]: guarded by the hover query and by [#cursor]; the first
    frame then writes to both markers. *)
Definition initCursor (hasHover : bool) (dom : Dom) : InitResult State :=
  if negb hasHover then NoOp
  else match cursor dom with
       | None => NoOp
       | Some (Some d, Some r) =>
           Ran (updateCursor {| mouseX := 0; mouseY := 0; ringX := 0; ringY := 0;
                                dot := d; ring := r |})
       | Some _ => Fault
       end.

End Cursor.

(** ** 3. Scroll progress bar *)
Module ScrollProgress.
Local Open Scope Q_scope.

(** What the frame callback reads. *)
Record Window := {
  scrollHeight : Q;    (* document.documentElement.scrollHeight *)
  innerHeight : Q;
  scrollY : Q
}.

Definition progress (w : Window) : Q :=
  let scrollableHeight := scrollHeight w - innerHeight w in
  let scrolled := scrollY w in
  if Qlt_le_dec 0 scrollableHeight then (scrolled / scrollableHeight) * 100 else 0.

(** [ticking] and the bar's [style.width], in percent. *)
Record State := { ticking : bool; width : option Q }.

(** The [scroll] listener: request a frame unless one is pending. *)
Definition onScroll (st : State) : State :=
  if negb (ticking st) then {| ticking := true; width := width st |} else st.

(** The requested frame. *)
Definition onFrame (w : Window) (st : State) : State :=
  {| ticking := false; width := Some (clamp (progress w) 0 100) |}.

(** [initScrollProgress]: [present] tells whether [#scrollProgress] exists. *)
Definition initScrollProgress (present : bool) : InitResult State :=
  if negb present then NoOp else Ran {| ticking := false; width := None |}.

(** What the window sends to the component. *)
Inductive Event := Scroll | Frame (w : Window).

Definition handle (ev : Event) (st : State) : State :=
  match ev with
  | Scroll => onScroll st
  | Frame w => onFrame w st
  end.

(** How many times [requestAnimationFrame] is called while [evs] are
    handled: a [scroll] listener calls it when [ticking] is off. *)
Fixpoint requests (evs : list Event) (st : State) : nat :=
  match evs with
  | [] => 0
  | ev :: rest =>
      (match ev with Scroll => if ticking st then 0 else 1 | Frame _ => 0 end
       + requests rest (handle ev st))%nat
  end.

(** How many frames run among [evs]. *)
Fixpoint frameCount (evs : list Event) : nat :=
  match evs with
  | [] => 0
  | Frame _ :: rest => S (frameCount rest)
  | Scroll :: rest => frameCount rest
  end.

End ScrollProgress.


(** ** 1. Utilities: debounce *)
Module Debounce.

(** The closure of [debounce(fn, delay)]: the variable [timer]; the timeouts
    it has set that are still pending, each with the arguments its callback
    will pass on; the next handle [setTimeout] returns; and the calls of [fn]
    made so far, with their arguments.  The delay itself is not modelled: a
    pending timeout may fire at any later moment. *)
Record State (A : Type) := {
  timer : option nat;
  pending : gmap nat A;
  nextHandle : nat;
  calls : list A
}.
Arguments timer {A}.
Arguments pending {A}.
Arguments nextHandle {A}.
Arguments calls {A}.

Definition start {A} : State A :=
  {| timer := None; pending := ∅; nextHandle := 0; calls := [] |}.

(** A call of the debounced function: [clearTimeout(timer); timer =
    setTimeout(() => fn.apply(this, args), delay)]. *)
Definition call {A} (args : A) (st : State A) : State A :=
  let cleared := match timer st with
                 | Some t => delete t (pending st)
                 | None => pending st
                 end in
  {| timer := Some (nextHandle st);
     pending := <[ nextHandle st := args ]> cleared;
     nextHandle := S (nextHandle st);
     calls := calls st |}.

(** The timeout [t] expires: if it is still pending its callback runs. *)
Definition fire {A} (t : nat) (st : State A) : State A :=
  match pending st !! t with
  | Some args =>
      {| timer := timer st; pending := delete t (pending st);
         nextHandle := nextHandle st; calls := calls st ++ [args] |}
  | None => st
  end.

Inductive Event (A : Type) := Call (args : A) | Fire (t : nat).
Arguments Call {A} args.
Arguments Fire {A} t.

Definition handle {A} (ev : Event A) (st : State A) : State A :=
  match ev with
  | Call args => call args st
  | Fire t => fire t st
  end.

Definition deliver {A} (evs : list (Event A)) (st : State A) : State A :=
  foldl (fun s ev => handle ev s) st evs.

(** At most the stored timeout is pending. *)
Definition single {A} (st : State A) : Prop :=
  ∀ t args, pending st !! t = Some args → timer st = Some t.

End Debounce.

(** ** 4. Navbar *)
Module Navbar.

(** The mobile menu as the script sees it: the [is-open] class of
    [#mobileMenu], [aria-expanded] on [#navToggle] and [aria-hidden] on the
    menu ([None] while the attribute has not been set), whether
    [document.body.style.overflow] is ['hidden'], and whether the toggle has
    the focus. *)
Record Menu := {
  isOpen : bool;
  ariaExpanded : option bool;
  ariaHidden : option bool;
  bodyLocked : bool;
  toggleFocused : bool
}.

(** What [initNavbar] queries: [#navbar] with its [scrolled] class; the menu
    is there when both [#navToggle] and [#mobileMenu] are. *)
Record Dom := {
  navbar : option bool;
  navToggle : bool;
  mobileMenu : bool;
  markup : Menu
}.

Record State := {
  scrolled : bool;
  menu : option Menu       (* [None]: no menu listener was registered *)
}.

Definition SCROLL_THRESHOLD : Q := 80.

(** [handleNavScroll] *)
Definition handleNavScroll (scrollY : Q) (st : State) : State :=
  {| scrolled := if Qlt_le_dec SCROLL_THRESHOLD scrollY then true else false;
     menu := menu st |}.

Definition openMobileMenu (m : Menu) : Menu :=
  {| isOpen := true; ariaExpanded := Some true; ariaHidden := Some false;
     bodyLocked := true; toggleFocused := toggleFocused m |}.

Definition closeMobileMenu (m : Menu) : Menu :=
  {| isOpen := false; ariaExpanded := Some false; ariaHidden := Some true;
     bodyLocked := false; toggleFocused := toggleFocused m |}.

Definition toggleMobileMenu (m : Menu) : Menu :=
  if isOpen m then closeMobileMenu m else openMobileMenu m.

Inductive Event :=
| Scroll (scrollY : Q)
| ToggleClick
| LinkClick                    (* a [.mobile-nav-link] or [.mobile-nav-cta] *)
| KeyDown (escape : bool).

Definition onMenu (f : Menu → Menu) (st : State) : State :=
  {| scrolled := scrolled st; menu := f <$> menu st |}.

Definition handle (ev : Event) (st : State) : State :=
  match ev with
  | Scroll y => handleNavScroll y st
  | ToggleClick => onMenu toggleMobileMenu st
  | LinkClick => onMenu closeMobileMenu st
  | KeyDown escape =>
      onMenu (fun m =>
                if escape && isOpen m then
                  let m' := closeMobileMenu m in
                  {| isOpen := isOpen m'; ariaExpanded := ariaExpanded m';
                     ariaHidden := ariaHidden m'; bodyLocked := bodyLocked m';
                     toggleFocused := true |}
                else m) st
  end.

(** [initNavbar]: nothing without [#navbar]; the scroll class is set from
    the current position; the menu listeners are registered only when both
    menu elements exist. *)
Definition initNavbar (scrollY : Q) (dom : Dom) : InitResult State :=
  match navbar dom with
  | None => NoOp
  | Some cls =>
      Ran (handleNavScroll scrollY
             {| scrolled := cls;
                menu := if navToggle dom && mobileMenu dom then Some (markup dom) else None |})
  end.

Definition deliver (evs : list Event) (st : State) : State :=
  foldl (fun s ev => handle ev s) st evs.

(** The four pieces of menu state tell the same story. *)
Definition coherent (m : Menu) : Prop :=
  ariaExpanded m = Some (isOpen m) ∧ ariaHidden m = Some (negb (isOpen m)) ∧
  bodyLocked m = isOpen m.

(** An event that runs [openMobileMenu] or [closeMobileMenu]. *)
Definition setsMenu (ev : Event) (m : Menu) : bool :=
  match ev with
  | ToggleClick | LinkClick => true
  | KeyDown escape => escape && isOpen m
  | Scroll _ => false
  end.

End Navbar.

(** ** 6. Hero particles *)
Module Particles.
Local Open Scope Q_scope.

(** The style a particle is given; lengths in pixels, positions in percent,
    times in seconds ([animationDelay] is written with a minus sign). *)
Record Particle := {
  width : Q; height : Q;
  left : Q; bottom : Q;
  animationDuration : Q; animationDelay : Q;
  opacity : Q
}.

Definition PARTICLE_COUNT : nat := 20.

(** [createParticle()], given what its six calls of [Math.random()] return,
    in order. *)
Definition createParticle (r1 r2 r3 r4 r5 r6 : Q) : Particle :=
  let size := r1 * 4 + 2 in
  let duration := r4 * 15 + 10 in
  let delay := r5 * 10 in
  {| width := size; height := size;
     left := r2 * 100; bottom := r3 * 100;
     animationDuration := duration; animationDelay := - delay;
     opacity := r6 * (2 # 10) + (5 # 100) |}.

(** [initHeroParticles]: [random k] is what the [k]-th call of
    [Math.random()] returns; the result lists the children appended to
    [#heroParticles]. *)
Definition initHeroParticles (reduced container : bool) (random : nat → Q)
    : InitResult (list Particle) :=
  if reduced then NoOp
  else if negb container then NoOp
  else Ran ((fun i => createParticle (random (6 * i)%nat) (random (6 * i + 1)%nat)
                                     (random (6 * i + 2)%nat) (random (6 * i + 3)%nat)
                                     (random (6 * i + 4)%nat) (random (6 * i + 5)%nat))
              <$> seq 0 PARTICLE_COUNT).

(** What the comments of [createParticle] promise, the ends of each range
    included: a product that exact arithmetic keeps just under the end of
    its range is rounded onto it by the script's doubles (a size of 6 pixels
    when [Math.random()] returns its largest value). *)
Definition in_range (p : Particle) : Prop :=
  width p = height p /\
  (2 <= width p /\ width p <= 6) /\
  (0 <= left p /\ left p <= 100) /\ (0 <= bottom p /\ bottom p <= 100) /\
  (10 <= animationDuration p /\ animationDuration p <= 25) /\
  (- (10) <= animationDelay p /\ animationDelay p <= 0) /\
  ((5 # 100) <= opacity p /\ opacity p <= (25 # 100)).

End Particles.

(** ** 7. Counters: the trigger *)
Module Counters.

(** [counters]: the [.stat-number[data-target]] elements, each by the
    integer [parseInt] reads from its [data-target]; [statCard]: whether a
    [.stat-card] exists. *)
Record Dom := { counters : list Z; statCard : bool }.

(** [observing]: the observer still has its target; [scheduled]: the calls
    of [setTimeout] made so far, each with the position of its counter, the
    target handed to [animateCounter] and the delay in milliseconds. *)
Record State := {
  targets : list Z;
  observing : bool;
  scheduled : list (nat * Z * Z)
}.

(** What one pass of [counters.forEach] schedules. *)
Definition stagger (ts : list Z) : list (nat * Z * Z) :=
  imap (fun index target => (index, target, Z.of_nat index * 150)) ts.

(** The observer callback, for the entries of one delivery, each given by
    its [isIntersecting]. *)
Definition onIntersect (entries : list bool) (st : State) : State :=
  if observing st then
    foldl (fun s isIntersecting =>
             if isIntersecting : bool then
               {| targets := targets s; observing := false;
                  scheduled := scheduled s ++ stagger (targets s) |}
             else s) st entries
  else st.

Definition initCounters (reduced : bool) (dom : Dom) : InitResult State :=
  if reduced then NoOp
  else if (length (counters dom) =? 0)%nat then NoOp
  else Ran {| targets := counters dom; observing := statCard dom; scheduled := [] |}.

Definition deliver (callbacks : list (list bool)) (st : State) : State :=
  foldl (fun s entries => onIntersect entries s) st callbacks.

End Counters.

(** ** 13. Entry point *)
Module Boot.

Inductive Component :=
| CCursor | CScrollProgress | CNavbar | CScrollAnimations | CHeroParticles
| CCounters | CCarousel | CContactForm.

(** What the initialisers find when [DOMContentLoaded] fires. *)
Record Page := {
  hasHover : bool;
  reducedMotion : bool;
  scrollY : Q;
  random : nat → Q;
  cursorDom : Cursor.Dom;
  scrollProgressBar : bool;
  navbarDom : Navbar.Dom;
  heroParticles : bool;
  countersDom : Counters.Dom;
  carouselDom : Carousel.Dom;
  formDom : Form.Dom
}.

Definition faults {A} (r : InitResult A) : bool :=
  match r with Fault => true | _ => false end.

(** What a call of an initialiser came to: [Some false] when it left through
    one of its guards without setting anything up, [Some true] when it ran
    to its end, [None] when it threw. *)
Definition outcome {A} (r : InitResult A) : option bool :=
  match r with NoOp => Some false | Ran _ => Some true | Fault => None end.

(** The initialisers are called one after the other; an exception thrown by
    one of them leaves the listener, so those after it are not called. *)
Fixpoint completed (steps : list (Component * option bool)) : list (Component * bool) :=
  match steps with
  | [] => []
  | (c, Some up) :: rest => (c, up) :: completed rest
  | (_, None) :: _ => []
  end.

(** The [DOMContentLoaded] listener: the components whose initialiser was
    called and returned, in the order of the calls, each with whether it was
    set up.  [initScrollAnimations] has no guard: it always reveals the
    elements or creates its observer.  [injectDynamicStyles], called first,
    only appends a [style] element to [document.head]; [initSmoothScroll]
    and [initFooterYear], called last, are not modelled. *)
Definition boot (p : Page) : list (Component * bool) :=
  completed
    [ (CCursor, outcome (Cursor.initCursor (hasHover p) (cursorDom p)));
      (CScrollProgress, outcome (ScrollProgress.initScrollProgress (scrollProgressBar p)));
      (CNavbar, outcome (Navbar.initNavbar (scrollY p) (navbarDom p)));
      (CScrollAnimations, Some true);
      (CHeroParticles,
         outcome (Particles.initHeroParticles (reducedMotion p) (heroParticles p) (random p)));
      (CCounters, outcome (Counters.initCounters (reducedMotion p) (countersDom p)));
      (CCarousel, outcome (Carousel.initTestimonialsCarousel (reducedMotion p) (carouselDom p)));
      (CContactForm, outcome (Form.initContactForm (formDom p))) ].

(** The initialiser of [c] was called and returned. *)
Definition called (c : Component) (p : Page) : Prop := ∃ up, (c, up) ∈ boot p.

(** The component [c] was set up: its initialiser passed its guards and ran
    to its end. *)
Definition setUp (c : Component) (p : Page) : Prop := (c, true) ∈ boot p.

End Boot.
(** * Properties *)

(** ** Carousel: the index stays on a slide *)
Section CarouselFacts.
Import Carousel.

Lemma rem_shift_nonneg (i n : Z) :
  0 < n → - n ≤ i → Z.rem (i + n) n = i mod n.
Proof.
  intros Hn Hi.
  rewrite Z.rem_mod_nonneg by lia.
  replace (i + n) with (i + 1 * n) by ring.
  apply Z.mod_add. lia.
Qed.


Lemma goToSlide_cards i st : cards (goToSlide i st) = cards st.
Proof. reflexivity. Qed.

Lemma goToSlide_index i st :
  currentIndex (goToSlide i st) = Z.rem (i + Z.of_nat (cards st)) (Z.of_nat (cards st)).
Proof. reflexivity. Qed.

Lemma goToSlide_on_slide i st :
  (0 < cards st)%nat → - Z.of_nat (cards st) ≤ i → on_slide (goToSlide i st).
Proof.
  intros Hc Hi. split; [exact Hc|].
  rewrite goToSlide_cards, goToSlide_index, rem_shift_nonneg by lia.
  apply Z.mod_pos_bound. lia.
Qed.

Lemma startAutoPlay_index r st :
  cards (startAutoPlay r st) = cards st ∧
  currentIndex (startAutoPlay r st) = currentIndex st.
Proof. destruct r; split; reflexivity. Qed.

Lemma clearAutoPlay_index st :
  cards (clearAutoPlay st) = cards st ∧
  currentIndex (clearAutoPlay st) = currentIndex st.
Proof. unfold clearAutoPlay. destruct (autoPlayTimer st); split; reflexivity. Qed.

Lemma startAutoPlay_on_slide r st : on_slide st → on_slide (startAutoPlay r st).
Proof.
  unfold on_slide. destruct (startAutoPlay_index r st) as [-> ->]. tauto.
Qed.

Lemma clearAutoPlay_on_slide st : on_slide st → on_slide (clearAutoPlay st).
Proof.
  unfold on_slide. destruct (clearAutoPlay_index st) as [-> ->]. tauto.
Qed.

Lemma resetAutoPlay_on_slide r st : on_slide st → on_slide (resetAutoPlay r st).
Proof.
  intros H. apply startAutoPlay_on_slide, clearAutoPlay_on_slide, H.
Qed.

(** A step to a neighbour or to a dot's own index keeps the invariant. *)
Lemma neighbour_on_slide r d st :
  on_slide st → -1 ≤ d ≤ 1 →
  on_slide (resetAutoPlay r (goToSlide (currentIndex st + d) st)).
Proof.
  intros [Hc Hi] Hd. apply resetAutoPlay_on_slide, goToSlide_on_slide; lia.
Qed.

Lemma handle_on_slide r ev st : on_slide st → on_slide (handle r ev st).
Proof.
  intros H. destruct ev as [ | |index|key rt rb ih|h| | |x|x]; simpl.
  - apply (neighbour_on_slide r (-1)); [exact H|lia].
  - apply (neighbour_on_slide r 1); [exact H|lia].
  - destruct (index <? cards st)%nat; [|exact H].
    apply resetAutoPlay_on_slide, goToSlide_on_slide; [apply H|lia].
  - destruct ((rb <? 0) || (ih <? rt)); [exact H|].
    destruct key.
    + apply (neighbour_on_slide r (-1)); [exact H|lia].
    + apply (neighbour_on_slide r 1); [exact H|lia].
    + exact H.
  - destruct (decide (h ∈ intervals st)); [|exact H].
    destruct H as [Hc Hi]. apply goToSlide_on_slide; lia.
  - apply clearAutoPlay_on_slide, H.
  - apply startAutoPlay_on_slide, H.
  - exact H.
  - match goal with |- context [50 <? ?a] => destruct (50 <? a) end; [|exact H].
    match goal with |- context [0 <? ?a] => destruct (0 <? a) end.
    + apply (neighbour_on_slide r 1 (with_touch st (touchStartX st) x)); [exact H|lia].
    + apply (neighbour_on_slide r (-1) (with_touch st (touchStartX st) x)); [exact H|lia].
Qed.

Lemma init_on_slide r dom st :
  initTestimonialsCarousel r dom = Ran st → on_slide st ∧ currentIndex st = 0.
Proof.
  unfold initTestimonialsCarousel.
  destruct (testimonialsTrack dom) as [n|]; [|discriminate].
  destruct (negb (testimonialPrev dom) || negb (testimonialNext dom)); [discriminate|].
  destruct (n =? 0)%nat eqn:Hn; [discriminate|].
  destruct (negb (testimonialDots dom)); [discriminate|].
  intros [= <-]. apply Nat.eqb_neq in Hn.
  set (st0 := goToSlide 0 (initial n)).
  assert (Hst0 : on_slide st0 ∧ currentIndex st0 = 0).
  { split.
    - apply goToSlide_on_slide; simpl; lia.
    - unfold st0. rewrite goToSlide_index. simpl cards.
      rewrite Z.add_0_l. apply Z.rem_same. lia. }
  destruct Hst0 as [H0 E0]. split.
  - apply startAutoPlay_on_slide, H0.
  - destruct (startAutoPlay_index r st0) as [_ ->]. exact E0.
Qed.

Lemma foldl_handle_on_slide evs st :
  on_slide st → on_slide (foldl (fun st e => handle e.1 e.2 st) st evs).
Proof.
  revert st. induction evs as [|e evs IH]; intros st H; simpl; [exact H|].
  apply IH, handle_on_slide, H.
Qed.

Lemma handle_cards r ev st : cards (handle r ev st) = cards st.
Proof.
  assert (Hr : ∀ r s, cards (resetAutoPlay r s) = cards s).
  { intros r' s. unfold resetAutoPlay.
    destruct (startAutoPlay_index r' (clearAutoPlay s)) as [-> _].
    apply clearAutoPlay_index. }
  destruct ev as [ | |index|key rt rb ih|h| | |x|x]; simpl.
  - now rewrite Hr.
  - now rewrite Hr.
  - destruct (index <? cards st)%nat; [now rewrite Hr|reflexivity].
  - destruct ((rb <? 0) || (ih <? rt)); [reflexivity|].
    destruct key; [now rewrite Hr|now rewrite Hr|reflexivity].
  - destruct (decide (h ∈ intervals st)); reflexivity.
  - apply clearAutoPlay_index.
  - apply startAutoPlay_index.
  - reflexivity.
  - match goal with |- context [50 <? ?a] => destruct (50 <? a) end; [|reflexivity].
    rewrite Hr.
    match goal with |- context [0 <? ?a] => destruct (0 <? a) end; reflexivity.
Qed.

Lemma foldl_handle_cards evs st :
  cards (foldl (fun st e => handle e.1 e.2 st) st evs) = cards st.
Proof.
  revert st. induction evs as [|e evs IH]; intros st; simpl; [reflexivity|].
  rewrite IH. apply handle_cards.
Qed.

Lemma init_cards r dom st :
  initTestimonialsCarousel r dom = Ran st → testimonialsTrack dom = Some (cards st).
Proof.
  unfold initTestimonialsCarousel.
  destruct (testimonialsTrack dom) as [n|]; [|discriminate].
  destruct (negb (testimonialPrev dom) || negb (testimonialNext dom)); [discriminate|].
  destruct (n =? 0)%nat; [discriminate|].
  destruct (negb (testimonialDots dom)); [discriminate|].
  intros [= <-]. destruct (startAutoPlay_index r (goToSlide 0 (initial n))) as [-> _].
  reflexivity.
Qed.

(** Below [-n] the remainder keeps the sign of its negative dividend. *)
Lemma goToSlide_below (st : State) (i : Z) :
  (0 < cards st)%nat → i < - Z.of_nat (cards st) →
  - Z.of_nat (cards st) < currentIndex (goToSlide i st) ≤ 0.
Proof.
  intros Hc Hi. rewrite goToSlide_index.
  apply Z.rem_bound_pos_neg; lia.
Qed.




(** C2: the carousel starts on slide 0 and, whatever sequence of navigation
    events follows (buttons, dots, keys, timer ticks, swipes, pointer
    entering or leaving), the index stays within [[0, n)], [n > 0] being the
    number of slides found at init. *)
Theorem carousel_index_in_range dom r0 evs st :
  run dom r0 evs = Ran st →
  testimonialsTrack dom = Some (cards st) ∧ (0 < cards st)%nat ∧
  0 ≤ currentIndex st < Z.of_nat (cards st) ∧
  (evs = [] → currentIndex st = 0).
Proof.
  unfold run. destruct (initTestimonialsCarousel r0 dom) as [| |st0] eqn:Hinit;
    [discriminate|discriminate|].
  intros [= <-]. destruct (init_on_slide _ _ _ Hinit) as [Hinv H0].
  pose proof (foldl_handle_on_slide evs st0 Hinv) as [Hc Hi].
  split; [|split; [exact Hc|split; [exact Hi|]]].
  - rewrite foldl_handle_cards. apply (init_cards _ _ _ Hinit).
  - intros ->. exact H0.
Qed.

Lemma carousel_index_in_range_witness :
  ∃ st, run five_slides false [(false, ClickPrev); (false, ClickNext); (false, ClickNext)]
        = Ran st ∧
        currentIndex st = 1 ∧ 0 ≤ currentIndex st < Z.of_nat (cards st).
Proof.
  eexists. split; [reflexivity|]. split; [reflexivity|].
  eapply (carousel_index_in_range five_slides false
            [(false, ClickPrev); (false, ClickNext); (false, ClickNext)]).
  reflexivity.
Defined.

End CarouselFacts.

(** ** Carousel: indicators, round trips and timers *)
Section CarouselMoreFacts.
Import Carousel.

(** A property kept by the four state updates is kept by every listener. *)
Lemma handle_preserves (P : State → Prop) (r : bool) :
  (∀ i st, P st → P (goToSlide i st)) →
  (∀ st, P st → P (startAutoPlay r st)) →
  (∀ st, P st → P (clearAutoPlay st)) →
  (∀ a b st, P st → P (with_touch st a b)) →
  ∀ ev st, P st → P (handle r ev st).
Proof.
  intros Hgo Hstart Hclear Htouch ev st HP.
  assert (Hreset : ∀ s, P s → P (resetAutoPlay r s)) by (intros s Hs; apply Hstart, Hclear, Hs).
  destruct ev as [ | |index|key rt rb ih|h| | |x|x]; simpl; auto.
  - destruct (index <? cards st)%nat; auto.
  - destruct ((rb <? 0) || (ih <? rt)); [exact HP|]. destruct key; auto.
  - destruct (decide (h ∈ intervals st)); auto.
  - match goal with |- context [50 <? ?a] => destruct (50 <? a) end; [|auto].
    match goal with |- context [0 <? ?a] => destruct (0 <? a) end; auto.
Qed.

(** What holds after init and is kept by every listener holds in every state
    the component reaches. *)
Lemma run_invariant (P : State → Prop) :
  (∀ r dom st, initTestimonialsCarousel r dom = Ran st → P st) →
  (∀ r ev st, P st → P (handle r ev st)) →
  ∀ dom r0 evs st, run dom r0 evs = Ran st → P st.
Proof.
  intros Hinit Hstep dom r0 evs st. unfold run.
  destruct (initTestimonialsCarousel r0 dom) as [| |st0] eqn:E; try discriminate.
  intros [= <-]. apply Hinit in E. revert st0 E.
  induction evs as [|e evs IH]; intros st0 E; simpl; [exact E|].
  apply IH, Hstep, E.
Qed.

Lemma init_shape r dom st :
  initTestimonialsCarousel r dom = Ran st →
  ∃ n, (0 < n)%nat ∧ st = startAutoPlay r (goToSlide 0 (initial n)).
Proof.
  unfold initTestimonialsCarousel.
  destruct (testimonialsTrack dom) as [n|]; [|discriminate].
  destruct (negb (testimonialPrev dom) || negb (testimonialNext dom)); [discriminate|].
  destruct (n =? 0)%nat eqn:Hn; [discriminate|].
  destruct (negb (testimonialDots dom)); [discriminate|].
  intros [= <-]. apply Nat.eqb_neq in Hn. exists n. split; [lia|reflexivity].
Qed.








Lemma start_on_slide n : (0 < n)%nat → on_slide (goToSlide 0 (initial n)).
Proof. intros Hn. apply goToSlide_on_slide; simpl; lia. Qed.

Lemma resetAutoPlay_index r st :
  cards (resetAutoPlay r st) = cards st ∧
  currentIndex (resetAutoPlay r st) = currentIndex st.
Proof.
  unfold resetAutoPlay.
  destruct (startAutoPlay_index r (clearAutoPlay st)) as [-> ->].
  apply clearAutoPlay_index.
Qed.

(** The index after a button click. *)
Lemma click_index r st :
  on_slide st →
  currentIndex (handle r ClickPrev st) = (currentIndex st - 1) mod Z.of_nat (cards st) ∧
  currentIndex (handle r ClickNext st) = (currentIndex st + 1) mod Z.of_nat (cards st).
Proof.
  intros [Hc Hi]. simpl.
  rewrite !(proj2 (resetAutoPlay_index _ _)), !goToSlide_index.
  split; apply rem_shift_nonneg; lia.
Qed.

(** X2: from any slide, "previous" then "next" and "next" then "previous"
    both come back to the slide they started from. *)
Theorem prev_next_round_trip (r1 r2 : bool) (st : State) :
  on_slide st →
  currentIndex (handle r2 ClickNext (handle r1 ClickPrev st)) = currentIndex st ∧
  currentIndex (handle r2 ClickPrev (handle r1 ClickNext st)) = currentIndex st.
Proof.
  intros Hst. pose proof Hst as [Hc Hi].
  destruct (click_index r1 st Hst) as [Hp Hn].
  destruct (click_index r2 _ (handle_on_slide r1 ClickPrev st Hst)) as [_ Hpn].
  destruct (click_index r2 _ (handle_on_slide r1 ClickNext st Hst)) as [Hnp _].
  rewrite Hpn, Hnp, !handle_cards, Hp, Hn.
  rewrite Z.add_mod_idemp_l, Zminus_mod_idemp_l by lia.
  replace (currentIndex st - 1 + 1) with (currentIndex st) by ring.
  replace (currentIndex st + 1 - 1) with (currentIndex st) by ring.
  split; apply Z.mod_small; lia.
Qed.

Lemma prev_next_round_trip_witness :
  currentIndex (handle false ClickNext (handle false ClickPrev (goToSlide 0 (initial 5)))) = 0.
Proof.
  apply (prev_next_round_trip false false (goToSlide 0 (initial 5))).
  apply start_on_slide. lia.
Defined.

Lemma iter_next_index r k st :
  on_slide st →
  on_slide (Nat.iter k (handle r ClickNext) st) ∧
  cards (Nat.iter k (handle r ClickNext) st) = cards st ∧
  currentIndex (Nat.iter k (handle r ClickNext) st)
  = (currentIndex st + Z.of_nat k) mod Z.of_nat (cards st).
Proof.
  intros Hst. pose proof Hst as [Hc Hi].
  induction k as [|k (IHs & IHc & IHi)].
  - simpl. split; [exact Hst|]. split; [reflexivity|].
    rewrite Z.add_0_r. symmetry. apply Z.mod_small. lia.
  - rewrite Nat.iter_succ. split; [apply handle_on_slide, IHs|].
    split; [rewrite handle_cards; exact IHc|].
    rewrite (proj2 (click_index r _ IHs)), IHc, IHi.
    rewrite Z.add_mod_idemp_l by lia. f_equal. lia.
Qed.

Lemma iter_prev_index r k st :
  on_slide st →
  on_slide (Nat.iter k (handle r ClickPrev) st) ∧
  cards (Nat.iter k (handle r ClickPrev) st) = cards st ∧
  currentIndex (Nat.iter k (handle r ClickPrev) st)
  = (currentIndex st - Z.of_nat k) mod Z.of_nat (cards st).
Proof.
  intros Hst. pose proof Hst as [Hc Hi].
  induction k as [|k (IHs & IHc & IHi)].
  - simpl. split; [exact Hst|]. split; [reflexivity|].
    rewrite Z.sub_0_r. symmetry. apply Z.mod_small. lia.
  - rewrite Nat.iter_succ. split; [apply handle_on_slide, IHs|].
    split; [rewrite handle_cards; exact IHc|].
    rewrite (proj1 (click_index r _ IHs)), IHc, IHi.
    rewrite Zminus_mod_idemp_l by lia. f_equal. lia.
Qed.

(** X3: [k] clicks on "next" move the index forward by [k] modulo the number
    of slides, [k] clicks on "previous" move it back likewise; as many clicks
    as there are slides, in either direction, come back to the same slide. *)
Theorem clicks_cycle (r : bool) (k : nat) (st : State) :
  on_slide st →
  currentIndex (Nat.iter k (handle r ClickNext) st)
    = (currentIndex st + Z.of_nat k) mod Z.of_nat (cards st) ∧
  currentIndex (Nat.iter k (handle r ClickPrev) st)
    = (currentIndex st - Z.of_nat k) mod Z.of_nat (cards st) ∧
  currentIndex (Nat.iter (cards st) (handle r ClickNext) st) = currentIndex st ∧
  currentIndex (Nat.iter (cards st) (handle r ClickPrev) st) = currentIndex st.
Proof.
  intros Hst. pose proof Hst as [Hc Hi].
  split; [apply iter_next_index, Hst|]. split; [apply iter_prev_index, Hst|].
  rewrite (proj2 (proj2 (iter_next_index r (cards st) st Hst))).
  rewrite (proj2 (proj2 (iter_prev_index r (cards st) st Hst))).
  split.
  - replace (currentIndex st + Z.of_nat (cards st))
      with (currentIndex st + 1 * Z.of_nat (cards st)) by ring.
    rewrite Z.mod_add by lia. apply Z.mod_small. lia.
  - replace (currentIndex st - Z.of_nat (cards st))
      with (currentIndex st + (-1) * Z.of_nat (cards st)) by ring.
    rewrite Z.mod_add by lia. apply Z.mod_small. lia.
Qed.

Lemma clicks_cycle_witness :
  currentIndex (Nat.iter 7 (handle false ClickNext) (goToSlide 0 (initial 5))) = 2 ∧
  currentIndex (Nat.iter 5 (handle false ClickPrev) (goToSlide 0 (initial 5))) = 0.
Proof.
  destruct (clicks_cycle false 7 (goToSlide 0 (initial 5))) as (H7 & _);
    [apply start_on_slide; lia|].
  destruct (clicks_cycle false 5 (goToSlide 0 (initial 5))) as (_ & _ & _ & H5);
    [apply start_on_slide; lia|].
  split; [rewrite H7; reflexivity|exact H5].
Defined.

(** X4: a second [goToSlide] overwrites the first.  Going to [j] and then
    to [i] always leaves the index and the indicators that going to [i]
    directly leaves; for [i ≥ -n] it leaves the whole carousel, track offset
    included, exactly as going to [i] directly.  (When the index computed
    for [i] is negative, the track keeps the offset that the first call gave
    it.) *)
Theorem goToSlide_last_wins (i j : Z) (st : State) :
  (0 < cards st)%nat →
  (currentIndex (goToSlide i (goToSlide j st)) = currentIndex (goToSlide i st) ∧
   dots (goToSlide i (goToSlide j st)) = dots (goToSlide i st)) ∧
  (- Z.of_nat (cards st) ≤ i → goToSlide i (goToSlide j st) = goToSlide i st) ∧
  (currentIndex (goToSlide i st) < 0 →
   translateX (goToSlide i (goToSlide j st)) = translateX (goToSlide j st)).
Proof.
  intros Hc.
  assert (Hdots : dots (goToSlide i (goToSlide j st)) = dots (goToSlide i st)).
  { unfold goToSlide, with_index. simpl.
    apply list_eq. intros k. rewrite !list_lookup_imap.
    destruct (dots st !! k); reflexivity. }
  split; [split; [reflexivity|exact Hdots]|]. split.
  - intros Hi. pose proof (goToSlide_on_slide i st Hc Hi) as [_ [Hlo _]].
    rewrite goToSlide_index in Hlo. apply Z.leb_le in Hlo.
    unfold goToSlide, with_index in *. simpl in *. rewrite Hlo. f_equal.
    exact Hdots.
  - rewrite goToSlide_index. intros Hneg. apply Z.leb_gt in Hneg.
    unfold goToSlide at 1. unfold with_index. cbn [translateX].
    rewrite goToSlide_cards, Hneg. reflexivity.
Qed.

Lemma goToSlide_last_wins_witness :
  goToSlide 1 (goToSlide 3 (initial 5)) = goToSlide 1 (initial 5) ∧
  translateX (goToSlide (-6) (goToSlide 2 (initial 5))) = 200 ∧
  translateX (goToSlide (-6) (initial 5)) = 0.
Proof.
  split; [|split; reflexivity].
  apply (proj1 (proj2 (goToSlide_last_wins 1 3 (initial 5) ltac:(simpl; lia)))).
  simpl; lia.
Defined.

(** *** Timers *)

Lemma goToSlide_timers i st :
  autoPlayTimer (goToSlide i st) = autoPlayTimer st ∧
  intervals (goToSlide i st) = intervals st ∧
  nextHandle (goToSlide i st) = nextHandle st.
Proof. repeat split. Qed.

Lemma fresh_start r st : fresh st → fresh (startAutoPlay r st).
Proof.
  intros [Hl Hs]. destruct r; [split; assumption|]. split; simpl.
  - intros h Hh. apply elem_of_union in Hh as [Hh|Hh].
    + apply elem_of_singleton in Hh. lia.
    + specialize (Hl h Hh). lia.
  - intros h [= <-]. lia.
Qed.

Lemma fresh_clear st : fresh st → fresh (clearAutoPlay st).
Proof.
  intros Hf. pose proof Hf as [Hl Hs]. unfold clearAutoPlay.
  destruct (autoPlayTimer st) as [h0|] eqn:E; [|exact Hf].
  split; simpl.
  - intros h Hh. apply elem_of_difference in Hh as [Hh _]. apply Hl, Hh.
  - intros h [= <-]. apply Hs. reflexivity.
Qed.

Lemma reachable_fresh dom r0 evs st : run dom r0 evs = Ran st → fresh st.
Proof.
  apply (run_invariant fresh).
  - intros r d s Hs. destruct (init_shape r d s Hs) as (n & Hn & ->).
    apply fresh_start. split; simpl.
    + intros h Hh. apply not_elem_of_empty in Hh. contradiction.
    + discriminate.
  - intros r ev s Hs. apply handle_preserves; auto.
    + apply fresh_start.
    + apply fresh_clear.
Qed.

(** X5: when reduced motion is preferred at init and whenever a listener
    runs, no interval timer is ever started: none is live, none is stored,
    and a tick, whatever its handle, leaves the carousel as it is. *)
Theorem reduced_motion_never_autoplays dom evs st :
  run dom true evs = Ran st → Forall (λ e, e.1 = true) evs →
  intervals st = ∅ ∧ autoPlayTimer st = None ∧ ∀ h, handle true (Tick h) st = st.
Proof.
  intros Hrun Hall.
  assert (Hquiet : intervals st = ∅ ∧ autoPlayTimer st = None).
  { revert Hrun. unfold run.
    destruct (initTestimonialsCarousel true dom) as [| |st0] eqn:E; try discriminate.
    intros [= <-]. destruct (init_shape true dom st0 E) as (n & _ & ->).
    assert (H0 : intervals (startAutoPlay true (goToSlide 0 (initial n))) = ∅ ∧
                 autoPlayTimer (startAutoPlay true (goToSlide 0 (initial n))) = None)
      by (split; reflexivity).
    revert H0. generalize (startAutoPlay true (goToSlide 0 (initial n))). clear E.
    induction Hall as [|[r ev] evs Hr _ IH]; intros s Hs; simpl; [exact Hs|].
    simpl in Hr. subst r. apply IH.
    apply (handle_preserves (λ s, intervals s = ∅ ∧ autoPlayTimer s = None) true); auto.
    intros s' [Hi Ht]. unfold clearAutoPlay. rewrite Ht. split; assumption. }
  destruct Hquiet as [Hi Ht]. split; [exact Hi|]. split; [exact Ht|].
  intros h. simpl. destruct (decide (h ∈ intervals st)) as [Hin|_]; [|reflexivity].
  rewrite Hi in Hin. apply not_elem_of_empty in Hin. contradiction.
Qed.

Lemma reduced_motion_never_autoplays_witness :
  ∃ st, run five_slides true [(true, ClickNext); (true, MouseLeave); (true, Tick 0%nat)]
        = Ran st ∧ currentIndex st = 1 ∧ autoPlayTimer st = None.
Proof.
  eexists. split; [reflexivity|]. split; [reflexivity|].
  refine (proj1 (proj2 (reduced_motion_never_autoplays five_slides
            [(true, ClickNext); (true, MouseLeave); (true, Tick 0%nat)] _ eq_refl _))).
  repeat constructor.
Defined.

(** A navigating listener ends in [resetAutoPlay] on a state with the
    timers of the state it started from. *)
Lemma navigates_shape r ev st :
  navigates ev st = true →
  ∃ s, handle r ev st = resetAutoPlay r s ∧
       autoPlayTimer s = autoPlayTimer st ∧ intervals s = intervals st ∧
       nextHandle s = nextHandle st.
Proof.
  destruct ev as [ | |index|key rt rb ih|h| | |x|x]; simpl; try discriminate.
  - intros _. eexists. split; [reflexivity|]. repeat split.
  - intros _. eexists. split; [reflexivity|]. repeat split.
  - intros ->. eexists. split; [reflexivity|]. repeat split.
  - destruct ((rb <? 0) || (ih <? rt)); [discriminate|].
    destruct key; try discriminate; intros _; eexists; (split; [reflexivity|]); repeat split.
  - intros ->.
    match goal with |- context [0 <? ?a] => destruct (0 <? a) end;
      eexists; (split; [reflexivity|]); repeat split.
Qed.

(** X6: a navigating event (button, existing dot, arrow key with the track
    in the viewport, swipe longer than 50 pixels), when reduced motion is
    not preferred, leaves a newly created interval stored and live, one
    that was not live before, and the interval stored before is no longer
    live: the next automatic advance is timed from this event. *)
Theorem navigation_restarts_timer dom r0 evs st ev :
  run dom r0 evs = Ran st → navigates ev st = true →
  autoPlayTimer (handle false ev st) = Some (nextHandle st) ∧
  nextHandle st ∈ intervals (handle false ev st) ∧
  (nextHandle st ∉ intervals st) ∧
  (∀ h, autoPlayTimer st = Some h → h ∉ intervals (handle false ev st)).
Proof.
  intros Hrun Hnav. destruct (reachable_fresh _ _ _ _ Hrun) as [Hl Hs].
  destruct (navigates_shape false ev st Hnav) as (s & -> & Ht & Hi & Hn).
  assert (Hnot : nextHandle st ∉ intervals st).
  { intros Hin. specialize (Hl _ Hin). lia. }
  unfold resetAutoPlay, clearAutoPlay. rewrite Ht.
  destruct (autoPlayTimer st) as [h0|] eqn:E; simpl; rewrite ?Hn, ?Hi.
  - split; [reflexivity|]. split; [apply elem_of_union; left; apply elem_of_singleton; reflexivity|].
    split; [exact Hnot|]. intros h [= <-] Hin.
    apply elem_of_union in Hin as [Hin|Hin].
    + apply elem_of_singleton in Hin. specialize (Hs h0 eq_refl). lia.
    + apply elem_of_difference in Hin as [_ Hin]. apply Hin, elem_of_singleton. reflexivity.
  - split; [reflexivity|]. split; [apply elem_of_union; left; apply elem_of_singleton; reflexivity|].
    split; [exact Hnot|]. intros h; discriminate.
Qed.

Lemma navigation_restarts_timer_witness :
  ∃ st, run five_slides false [(false, ClickNext)] = Ran st ∧
        autoPlayTimer st = Some 1%nat ∧
        autoPlayTimer (handle false (ClickDot 3) st) = Some 2%nat ∧
        (1%nat ∉ intervals (handle false (ClickDot 3) st)).
Proof.
  eexists. split; [reflexivity|]. split; [reflexivity|].
  destruct (navigation_restarts_timer five_slides false [(false, ClickNext)] _ (ClickDot 3)
              eq_refl eq_refl) as (H1 & _ & _ & H4).
  split; [exact H1|]. apply H4. reflexivity.
Defined.

(** X7: [clearInterval] is only ever applied to the stored handle, so an
    interval that is live while another handle is stored stays live through
    every later event: it keeps advancing the slides and nothing stops it.
    (Pointer enters the track, an arrow key navigates, pointer leaves: two
    intervals are live.) *)
Theorem orphan_interval_stays_live dom r0 evs st h later :
  run dom r0 evs = Ran st →
  h ∈ intervals st → autoPlayTimer st ≠ Some h →
  h ∈ intervals (deliver later st) ∧ autoPlayTimer (deliver later st) ≠ Some h.
Proof.
  intros Hrun Hin Hne. pose proof (reachable_fresh _ _ _ _ Hrun) as Hf.
  set (P := λ s : State, fresh s ∧ h ∈ intervals s ∧ autoPlayTimer s ≠ Some h).
  assert (HP : P st) by (repeat split; try apply Hf; assumption).
  assert (Hstep : ∀ r ev s, P s → P (handle r ev s)).
  { intros r ev s Hs. refine (handle_preserves P r _ _ _ _ ev s Hs).
    - intros i s' (F & I & T). repeat split; try apply F; assumption.
    - intros s' (F & I & T). split; [apply fresh_start, F|].
      destruct r; [split; assumption|]. simpl. split.
      + apply elem_of_union. right. exact I.
      + intros [= E]. destruct F as [Fl _]. specialize (Fl h I). lia.
    - intros s' (F & I & T). split; [apply fresh_clear, F|].
      unfold clearAutoPlay.
      destruct (autoPlayTimer s') as [h0|] eqn:E; [|split; [exact I|congruence]].
      simpl. split; [|congruence].
      apply elem_of_difference. split; [exact I|].
      intros Hh. apply elem_of_singleton in Hh. congruence.
    - intros a b s' (F & I & T). repeat split; try apply F; assumption. }
  assert (Hall : P (deliver later st)).
  { clear Hrun Hin Hne Hf. revert st HP. unfold deliver.
    induction later as [|e es IH]; intros st HP; simpl; [exact HP|].
    apply IH, Hstep, HP. }
  destruct Hall as (_ & I & T). split; assumption.
Qed.

Lemma orphan_interval_stays_live_witness :
  ∃ st, run five_slides false
          [(false, MouseEnter); (false, KeyDown ArrowRight 100 400 800); (false, MouseLeave)]
        = Ran st ∧
        autoPlayTimer st = Some 2%nat ∧
        1%nat ∈ intervals (deliver [(false, ClickNext); (false, MouseEnter)] st).
Proof.
  eexists. split; [reflexivity|]. split; [reflexivity|].
  refine (proj1 (orphan_interval_stays_live five_slides false
            [(false, MouseEnter); (false, KeyDown ArrowRight 100 400 800); (false, MouseLeave)]
            _ 1%nat [(false, ClickNext); (false, MouseEnter)] eq_refl _ _)).
  - vm_compute. reflexivity.
  - discriminate.
Defined.

End CarouselMoreFacts.

(** ** Trimming *)
Section TrimFacts.
Import Js.

Lemma trimStart_skip (p s : jsstring) :
  Forall (λ c, isWhiteSpace c = true) p → trimStart (p ++ s) = trimStart s.
Proof. induction 1 as [|c p Hc _ IH]; simpl; [reflexivity|]. rewrite Hc. exact IH. Qed.

(** What [trimStart] leaves is empty or starts with a character that is not
    white space, and what it dropped is white space. *)
Lemma trimStart_split (s : jsstring) :
  ∃ p, Forall (λ c, isWhiteSpace c = true) p ∧ s = p ++ trimStart s ∧
       (trimStart s = [] ∨ ∃ c t, trimStart s = c :: t ∧ isWhiteSpace c = false).
Proof.
  induction s as [|c s (p & Hp & Hs & Hhead)]; simpl.
  - exists []. split; [constructor|]. split; [reflexivity|left; reflexivity].
  - destruct (isWhiteSpace c) eqn:Hc.
    + exists (c :: p). split; [constructor; assumption|].
      split; [simpl; f_equal; exact Hs|exact Hhead].
    + exists []. split; [constructor|]. split; [reflexivity|]. right. eauto.
Qed.

Lemma trimStart_fixed (s : jsstring) :
  (s = [] ∨ ∃ c t, s = c :: t ∧ isWhiteSpace c = false) → trimStart s = s.
Proof. intros [->|(c & t & -> & Hc)]; simpl; [reflexivity|]. rewrite Hc. reflexivity. Qed.

Lemma trimEnd_skip (s p : jsstring) :
  Forall (λ c, isWhiteSpace c = true) p → trimEnd (s ++ p) = trimEnd s.
Proof.
  intros Hp. unfold trimEnd. rewrite rev_app_distr, trimStart_skip; [reflexivity|].
  apply Forall_forall. intros c Hc. rewrite Forall_forall in Hp. apply Hp.
  apply list_elem_of_In. apply list_elem_of_In, in_rev in Hc.
  try rewrite rev_involutive in Hc. exact Hc.
Qed.

(** [trimEnd] keeps a prefix and drops white space. *)
Lemma trimEnd_split (s : jsstring) :
  ∃ p, Forall (λ c, isWhiteSpace c = true) p ∧ s = trimEnd s ++ p.
Proof.
  destruct (trimStart_split (rev s)) as (p & Hp & Hs & _).
  exists (rev p). split.
  - apply Forall_forall. intros c Hc. rewrite Forall_forall in Hp. apply Hp.
    apply list_elem_of_In. apply list_elem_of_In in Hc. apply in_rev. exact Hc.
  - unfold trimEnd. rewrite <- rev_app_distr, <- Hs, rev_involutive. reflexivity.
Qed.

Lemma trimEnd_idem (s : jsstring) : trimEnd (trimEnd s) = trimEnd s.
Proof.
  unfold trimEnd. rewrite rev_involutive. f_equal.
  apply trimStart_fixed. destruct (trimStart_split (rev s)) as (_ & _ & _ & H). exact H.
Qed.

(** White space around a value does not change what [trim] returns. *)
Lemma trim_padding (p1 v p2 : jsstring) :
  Forall (λ c, isWhiteSpace c = true) p1 → Forall (λ c, isWhiteSpace c = true) p2 →
  trim (p1 ++ v ++ p2) = trim v.
Proof.
  intros H1 H2. unfold trim. rewrite trimStart_skip by exact H1.
  destruct (trimStart_split v) as (q & Hq & Hv & [E|(c & t & E & Hc)]).
  - rewrite Hv at 1. rewrite <- app_assoc, trimStart_skip by exact Hq.
    rewrite E. simpl. rewrite <- (app_nil_r p2), trimStart_skip by exact H2. reflexivity.
  - rewrite Hv at 1. rewrite <- app_assoc, trimStart_skip by exact Hq.
    rewrite E. simpl. rewrite Hc.
    change (c :: t ++ p2) with ((c :: t) ++ p2). apply trimEnd_skip, H2.
Qed.

(** A trimmed value has nothing left to trim. *)
Lemma trim_idem (v : jsstring) : trim (trim v) = trim v.
Proof.
  unfold trim.
  assert (Hfix : trimStart (trimEnd (trimStart v)) = trimEnd (trimStart v)).
  { apply trimStart_fixed.
    destruct (trimStart_split v) as (_ & _ & _ & [E|(c & t & E & Hc)]).
    - left. rewrite E. reflexivity.
    - destruct (trimEnd_split (trimStart v)) as (p & _ & Hs).
      destruct (trimEnd (trimStart v)) as [|a r]; [left; reflexivity|].
      right. exists a, r. split; [reflexivity|].
      rewrite E in Hs. simpl in Hs. injection Hs as -> _. exact Hc. }
  rewrite Hfix. apply trimEnd_idem.
Qed.

End TrimFacts.

(** ** Strings and the e-mail pattern *)
Section JsFacts.
Import Js.

Lemma trimStart_length s : (length (trimStart s) ≤ length s)%nat.
Proof.
  induction s as [|c s IH]; simpl; [lia|].
  destruct (isWhiteSpace c); simpl; lia.
Qed.

Lemma trim_length s : (length (trim s) ≤ length s)%nat.
Proof.
  unfold trim, trimEnd. rewrite length_rev.
  etransitivity; [apply trimStart_length|].
  rewrite length_rev. apply trimStart_length.
Qed.

Lemma matches_nil_nullable r s : matches r s → s = [] → nullable r = true.
Proof.
  induction 1 as [ |p c Hp|r1 r2 s1 s2 _ IH1 _ IH2|r1 r2 s _ IH|r1 r2 s _ IH
                 |r|r s1 s2 _ _ _ _]; intros Hs; simpl; try reflexivity.
  - discriminate.
  - apply app_eq_nil in Hs as [-> ->]. rewrite IH1, IH2; reflexivity.
  - rewrite IH; [reflexivity|exact Hs].
  - rewrite IH; [apply orb_true_r|exact Hs].
Qed.

Lemma nullable_matches r : nullable r = true ↔ matches r [].
Proof.
  split; [|intros H; apply (matches_nil_nullable r [] H eq_refl)].
  induction r as [ | |p|r1 IH1 r2 IH2|r1 IH1 r2 IH2|r IH]; simpl; intros H;
    try discriminate.
  - constructor.
  - apply andb_true_iff in H as [H1 H2].
    change (@nil N) with (@nil N ++ @nil N). constructor; auto.
  - apply orb_true_iff in H as [H|H]; [apply MOrL|apply MOrR]; auto.
  - constructor.
Qed.

Lemma deriv_sound r : ∀ c s, matches (deriv c r) s → matches r (c :: s).
Proof.
  induction r as [ | |p|r1 IH1 r2 IH2|r1 IH1 r2 IH2|r IH]; simpl; intros c s H.
  - inversion H.
  - inversion H.
  - destruct (p c) eqn:Hp; inversion H; subst. constructor; exact Hp.
  - destruct (nullable r1) eqn:Hn.
    + inversion H as [ | | |? ? ? HL|? ? ? HR| | ]; subst.
      * inversion HL as [ | |? ? s1 s2 H1 H2| | | | ]; subst.
        change (c :: s1 ++ s2) with ((c :: s1) ++ s2). constructor; auto.
      * change (c :: s) with ([] ++ c :: s). constructor; auto.
        apply nullable_matches, Hn.
    + inversion H as [ | |? ? s1 s2 H1 H2| | | | ]; subst.
      change (c :: s1 ++ s2) with ((c :: s1) ++ s2). constructor; auto.
  - inversion H; subst; [apply MOrL|apply MOrR]; auto.
  - inversion H as [ | |? ? s1 s2 H1 H2| | | | ]; subst.
    change (c :: s1 ++ s2) with ((c :: s1) ++ s2). constructor; auto.
Qed.

Lemma deriv_complete r s0 :
  matches r s0 → ∀ c s, s0 = c :: s → matches (deriv c r) s.
Proof.
  induction 1 as [ |p c0 Hp|r1 r2 s1 s2 H1 IH1 H2 IH2|r1 r2 s0 _ IH|r1 r2 s0 _ IH
                 |r|r s1 s2 H1 IH1 H2 IH2]; intros c s Hs; simpl.
  - discriminate.
  - injection Hs as -> <-. rewrite Hp. constructor.
  - destruct s1 as [|c1 s1]; simpl in Hs.
    + assert (Hn : nullable r1 = true) by (apply nullable_matches, H1).
      rewrite Hn. apply MOrR. auto.
    + injection Hs as -> <-.
      destruct (nullable r1); [apply MOrL|]; constructor; auto.
  - apply MOrL. auto.
  - apply MOrR. auto.
  - discriminate.
  - destruct s1 as [|c1 s1]; simpl in Hs.
    + apply (IH2 c s Hs).
    + injection Hs as -> <-. constructor; auto.
Qed.

(** The derivative test decides the language. *)
Lemma test_matches s : ∀ r, test r s = true ↔ matches r s.
Proof.
  induction s as [|c s IH]; intros r; simpl.
  - apply nullable_matches.
  - rewrite IH. split; [apply deriv_sound|].
    intros H. apply (deriv_complete r (c :: s) H c s eq_refl).
Qed.

Lemma matches_seq r1 r2 s :
  matches (Seq r1 r2) s ↔ ∃ s1 s2, s = s1 ++ s2 ∧ matches r1 s1 ∧ matches r2 s2.
Proof.
  split.
  - intros H. inversion H; subst. eauto.
  - intros (s1 & s2 & -> & H1 & H2). constructor; auto.
Qed.

Lemma matches_chr c s : matches (Chr c) s ↔ s = [c].
Proof.
  unfold Chr. split.
  - intros H. inversion H as [|? c' Hc| | | | | ]; subst.
    apply N.eqb_eq in Hc. subst. reflexivity.
  - intros ->. constructor. apply N.eqb_refl.
Qed.

Lemma matches_class_star p s :
  matches (Star (Class p)) s ↔ Forall (λ c, p c = true) s.
Proof.
  split.
  - intros H. remember (Star (Class p)) as r eqn:Hr.
    induction H as [ | | | | | |r s1 s2 H1 _ H2 IH2]; try discriminate.
    + constructor.
    + injection Hr as ->. inversion H1; subst. constructor; auto.
  - induction 1 as [|c s Hc _ IH]; [constructor|].
    change (c :: s) with ([c] ++ s). constructor; [constructor; exact Hc|exact IH].
Qed.

Lemma matches_class_plus p s :
  matches (Plus (Class p)) s ↔ s ≠ [] ∧ Forall (λ c, p c = true) s.
Proof.
  unfold Plus. rewrite matches_seq. split.
  - intros (s1 & s2 & -> & H1 & H2). inversion H1; subst.
    apply matches_class_star in H2. split; [discriminate|constructor; auto].
  - intros [Hne H]. destruct H as [|c s Hc H]; [congruence|].
    exists [c], s. split; [reflexivity|]. split; [constructor; exact Hc|].
    apply matches_class_star, H.
Qed.

Lemma notSpaceAt_plain c : notSpaceAt c = true ↔ plain c.
Proof.
  unfold notSpaceAt, plain. rewrite negb_true_iff, orb_false_iff, N.eqb_neq.
  reflexivity.
Qed.

Lemma matches_part s :
  matches (Plus (Class notSpaceAt)) s ↔ s ≠ [] ∧ Forall plain s.
Proof.
  rewrite matches_class_plus. apply and_iff_compat_l.
  rewrite !Forall_forall. split; intros H c Hc; apply notSpaceAt_plain, H, Hc.
Qed.

(** The pattern of the source accepts exactly the two-part shape. *)
Lemma emailRegex_shape s : test emailRegex s = true ↔ emailShape s.
Proof.
  rewrite test_matches. unfold emailRegex, emailShape. split.
  - intros H.
    apply matches_seq in H as (loc & s1 & -> & Hloc & H).
    apply matches_seq in H as (at_ & s2 & -> & Hat & H).
    apply matches_seq in H as (name & s3 & -> & Hname & H).
    apply matches_seq in H as (dot_ & tld & -> & Hdot & Htld).
    apply matches_chr in Hat as ->. apply matches_chr in Hdot as ->.
    apply matches_part in Hloc as [? ?]. apply matches_part in Hname as [? ?].
    apply matches_part in Htld as [? ?].
    exists loc, name, tld. simpl. auto 10.
  - intros (loc & name & tld & -> & ? & ? & ? & ? & ? & ?).
    apply matches_seq. exists loc, (64%N :: name ++ 46%N :: tld).
    split; [reflexivity|]. split; [apply matches_part; auto|].
    apply matches_seq. exists [64%N], (name ++ 46%N :: tld).
    split; [reflexivity|]. split; [apply matches_chr; reflexivity|].
    apply matches_seq. exists name, (46%N :: tld).
    split; [reflexivity|]. split; [apply matches_part; auto|].
    apply matches_seq. exists [46%N], tld.
    split; [reflexivity|]. split; [apply matches_chr; reflexivity|].
    apply matches_part; auto.
Qed.

End JsFacts.

(** ** Contact form: validation *)
Section ValidationFacts.
Import Js Form.

Lemma unmark_value el : value (unmark el) = value el.
Proof. unfold unmark. destruct (formInput el && hasError el); reflexivity. Qed.


Lemma shown_value p k m g : value (shown p k m g) = value g.
Proof. unfold shown. destruct (parentNode g =? p)%nat; reflexivity. Qed.

Lemma shown_parent p k m g : parentNode (shown p k m g) = parentNode g.
Proof. unfold shown. destruct (parentNode g =? p)%nat; reflexivity. Qed.

Lemma unmark_parent el : parentNode (unmark el) = parentNode el.
Proof. unfold unmark. destruct (formInput el && hasError el); reflexivity. Qed.

(** What [markInvalid] leaves at [s]. *)
Lemma markInvalid_lookup sel msg fm field s :
  inputs fm !! sel = Some field →
  inputs (markInvalid sel msg fm) !! s =
  if decide (s = sel) then Some (marked (nextSpan fm) msg field)
  else shown (parentNode field) (nextSpan fm) msg <$> inputs fm !! s.
Proof.
  intros Hsel. unfold markInvalid. rewrite Hsel. simpl.
  destruct (decide (s = sel)) as [->|Hne].
  - apply lookup_insert_eq.
  - rewrite lookup_insert_ne by congruence. apply lookup_fmap.
Qed.

(** A check changes no value and moves no input. *)
Lemma check_values sel bad msg acc s :
  value <$> inputs (check sel bad msg acc).2 !! s = value <$> inputs acc.2 !! s ∧
  parentNode <$> inputs (check sel bad msg acc).2 !! s = parentNode <$> inputs acc.2 !! s.
Proof.
  destruct acc as [[valid fi] fm]. unfold check. simpl.
  destruct (inputs fm !! sel) as [el|] eqn:Hsel; [|split; reflexivity].
  destruct (bad (trim (value el))); [|split; reflexivity]. simpl.
  rewrite (markInvalid_lookup sel msg fm el s Hsel).
  destruct (decide (s = sel)) as [->|Hne].
  - rewrite Hsel. split; reflexivity.
  - destruct (inputs fm !! s) as [g|]; simpl; [|split; reflexivity].
    rewrite shown_value, shown_parent. split; reflexivity.
Qed.

Lemma rejects_values sel bad fm fm' :
  value <$> inputs fm' !! sel = value <$> inputs fm !! sel →
  rejects sel bad fm' = rejects sel bad fm.
Proof.
  unfold rejects. destruct (inputs fm' !! sel), (inputs fm !! sel); simpl;
    intros H; try discriminate; [injection H as ->|]; reflexivity.
Qed.

Lemma check_valid sel bad msg acc :
  (check sel bad msg acc).1.1 = acc.1.1 && negb (rejects sel bad acc.2).
Proof.
  destruct acc as [[valid fi] fm]. simpl.
  unfold check, rejects. destruct (inputs fm !! sel) as [el|].
  - destruct (bad (trim (value el))); simpl;
      [rewrite andb_false_r|rewrite andb_true_r]; reflexivity.
  - simpl. rewrite andb_true_r. reflexivity.
Qed.

Lemma check_rejects sel bad msg acc sel' bad' :
  rejects sel' bad' (check sel bad msg acc).2 = rejects sel' bad' acc.2.
Proof. apply rejects_values, check_values. Qed.

Lemma unmarked_rejects sel bad fm :
  rejects sel bad (setInputs (unmark <$> inputs fm) (nextSpan fm) fm) = rejects sel bad fm.
Proof.
  unfold rejects. simpl. rewrite lookup_fmap.
  destruct (inputs fm !! sel) as [f|]; simpl; [|reflexivity].
  rewrite unmark_value. reflexivity.
Qed.

(** The verdict of [validateForm] is the conjunction of its three rules on
    the elements that exist. *)
Lemma validateForm_valid fm :
  (validateForm fm).1.1 =
  negb (rejects "#nomeInput" nomeBad fm)
  && negb (rejects "#emailInput" emailBad fm)
  && negb (rejects "#mensagemInput" mensagemBad fm).
Proof.
  unfold validateForm. rewrite !check_valid, !check_rejects. simpl.
  rewrite !unmarked_rejects. reflexivity.
Qed.

(** An input that carries marker and message keeps them through a check, and
    the check puts them on the element it rejects. *)
Lemma check_marks sel bad msg acc s f' :
  inputs (check sel bad msg acc).2 !! s = Some f' →
  ∃ f, inputs acc.2 !! s = Some f ∧ value f' = value f ∧
       (hasError f = true ∧ fieldErrors f ≠ [] → hasError f' = true ∧ fieldErrors f' ≠ []) ∧
       (s = sel → bad (trim (value f)) = true → hasError f' = true ∧ fieldErrors f' ≠ []).
Proof.
  assert (Hne : ∀ (es : list (nat * string)) e, es ++ [e] ≠ []).
  { intros es e E. apply app_eq_nil in E as [_ E]. discriminate. }
  destruct acc as [[valid fi] fm]. unfold check. simpl.
  destruct (inputs fm !! sel) as [el|] eqn:Hsel.
  - destruct (bad (trim (value el))) eqn:Hbad; simpl.
    + rewrite (markInvalid_lookup sel msg fm el s Hsel).
      destruct (decide (s = sel)) as [->|Hs].
      * intros [= <-]. exists el. split; [exact Hsel|]. split; [reflexivity|].
        split; intros; (split; [reflexivity|apply Hne]).
      * destruct (inputs fm !! s) as [g|]; simpl; [|discriminate].
        intros [= <-]. exists g. split; [reflexivity|]. split; [apply shown_value|].
        split; [|intros E; contradiction].
        unfold shown. destruct (parentNode g =? parentNode el)%nat; [|tauto].
        intros [Hh _]. split; [exact Hh|apply Hne].
    + intros Hs. exists f'. split; [exact Hs|]. split; [reflexivity|].
      split; [tauto|]. intros -> Hb. rewrite Hsel in Hs. injection Hs as <-. congruence.
  - intros Hs. exists f'. split; [exact Hs|]. split; [reflexivity|].
    split; [tauto|]. intros -> Hb. simpl in Hs. congruence.
Qed.

(** [validateForm] changes no value, and leaves marker and message on every
    element whose rule rejects its value. *)
Lemma validateForm_marks fm s f' :
  inputs (validateForm fm).2 !! s = Some f' →
  ∃ f, inputs fm !! s = Some f ∧ value f' = value f ∧
       (isBad s (value f) = true → hasError f' = true ∧ fieldErrors f' ≠ []).
Proof.
  unfold validateForm. intros H3.
  destruct (check_marks _ _ _ _ s f' H3) as (f2 & H2 & V3 & K3 & M3).
  destruct (check_marks _ _ _ _ s f2 H2) as (f1 & H1 & V2 & K2 & M2).
  destruct (check_marks _ _ _ _ s f1 H1) as (f0 & H0 & V1 & K1 & M1).
  cbn [snd inputs setInputs] in H0. rewrite lookup_fmap in H0.
  destruct (inputs fm !! s) as [f|]; simpl in H0; [|discriminate].
  injection H0 as <-. exists f. split; [reflexivity|].
  rewrite V3, V2, V1, unmark_value. split; [reflexivity|].
  rewrite unmark_value in M1. rewrite V1, unmark_value in M2.
  rewrite V2, V1, unmark_value in M3.
  unfold isBad. intros Hb.
  apply orb_true_iff in Hb as [Hb|Hb]; [apply orb_true_iff in Hb as [Hb|Hb]|];
    apply andb_true_iff in Hb as [Hs Hb]; apply bool_decide_eq_true in Hs; auto.
Qed.

(** *** Inputs in wrappers of their own *)

Lemma ownWrapper_same fm fm' :
  (∀ s, parentNode <$> inputs fm' !! s = parentNode <$> inputs fm !! s) →
  ownWrapper fm → ownWrapper fm'.
Proof.
  intros Hsame Hown s1 s2 f1 f2 H1 H2 Hp.
  pose proof (Hsame s1) as E1. pose proof (Hsame s2) as E2. rewrite H1 in E1. rewrite H2 in E2.
  destruct (inputs fm !! s1) as [g1|] eqn:G1; [|discriminate].
  destruct (inputs fm !! s2) as [g2|] eqn:G2; [|discriminate].
  simpl in E1, E2. injection E1 as E1. injection E2 as E2.
  apply (Hown s1 s2 g1 g2 G1 G2). congruence.
Qed.

Lemma ownWrapper_check sel bad msg acc : ownWrapper acc.2 → ownWrapper (check sel bad msg acc).2.
Proof. apply ownWrapper_same. intros s. apply check_values. Qed.

Lemma ownWrapper_unmark fm :
  ownWrapper fm → ownWrapper (setInputs (unmark <$> inputs fm) (nextSpan fm) fm).
Proof.
  apply ownWrapper_same. intros s. simpl. rewrite lookup_fmap.
  destruct (inputs fm !! s); simpl; [rewrite unmark_parent|]; reflexivity.
Qed.

(** With wrappers of their own, [markInvalid] touches the field alone. *)
Lemma markInvalid_own sel msg fm field :
  ownWrapper fm → inputs fm !! sel = Some field →
  inputs (markInvalid sel msg fm) = <[ sel := marked (nextSpan fm) msg field ]> (inputs fm).
Proof.
  intros Hown Hsel. apply map_eq. intros s.
  rewrite (markInvalid_lookup sel msg fm field s Hsel).
  destruct (decide (s = sel)) as [->|Hne].
  - rewrite lookup_insert_eq. reflexivity.
  - rewrite lookup_insert_ne by congruence.
    destruct (inputs fm !! s) as [g|] eqn:Hs; simpl; [|reflexivity].
    unfold shown. destruct (parentNode g =? parentNode field)%nat eqn:E; [|reflexivity].
    apply Nat.eqb_eq in E. exfalso. apply Hne. apply (Hown s sel g field Hs Hsel E).
Qed.

(** What one check does to the element found by [s]. *)
Lemma check_lookup sel bad msg acc s :
  ownWrapper acc.2 →
  inputs (check sel bad msg acc).2 !! s =
  (λ f, if bool_decide (s = sel) && bad (trim (value f))
        then marked (nextSpan acc.2) msg f else f) <$> inputs acc.2 !! s.
Proof.
  destruct acc as [[valid fi] fm]. simpl. intros Hown.
  unfold check. destruct (inputs fm !! sel) as [el|] eqn:Hsel.
  - destruct (bad (trim (value el))) eqn:Hbad; simpl.
    + rewrite (markInvalid_own sel msg fm el Hown Hsel).
      destruct (decide (s = sel)) as [->|Hne].
      * rewrite lookup_insert_eq, Hsel. simpl.
        rewrite bool_decide_eq_true_2, Hbad by reflexivity. reflexivity.
      * rewrite lookup_insert_ne by congruence.
        destruct (inputs fm !! s); simpl; [|reflexivity].
        rewrite bool_decide_eq_false_2 by exact Hne. reflexivity.
    + destruct (inputs fm !! s) as [f|] eqn:Hs; simpl; [|reflexivity].
      destruct (decide (s = sel)) as [->|Hne].
      * rewrite Hsel in Hs. injection Hs as <-. rewrite Hbad, andb_false_r. reflexivity.
      * rewrite bool_decide_eq_false_2 by exact Hne. reflexivity.
  - simpl. destruct (inputs fm !! s) as [f|] eqn:Hs; simpl; [|reflexivity].
    rewrite bool_decide_eq_false_2; [reflexivity|]. intros ->. congruence.
Qed.

(** What [validateForm] leaves at [s] when the inputs have wrappers of their
    own: the element unmarked, and marked anew, with the message of its
    rule, when the rule rejects the value. *)
Lemma validateForm_lookup_msg fm s f' :
  ownWrapper fm →
  inputs (validateForm fm).2 !! s = Some f' →
  ∃ f, inputs fm !! s = Some f ∧
       ((isBad s (value f) = true ∧ ∃ k, f' = marked k (ruleMessage s) (unmark f)) ∨
        (isBad s (value f) = false ∧ f' = unmark f)).
Proof.
  intros Hown. unfold validateForm.
  pose proof (ownWrapper_unmark fm Hown) as O0.
  pose proof (ownWrapper_check "#nomeInput" nomeBad "Nome deve ter ao menos 2 caracteres"
                (true, None, _) O0) as O1.
  pose proof (ownWrapper_check "#emailInput" emailBad "E-mail inválido" _ O1) as O2.
  rewrite (check_lookup _ _ _ _ s O2), (check_lookup _ _ _ _ s O1),
    (check_lookup _ _ _ (true, None, _) s O0).
  repeat match goal with
         | |- context [marked ?k _] => is_var k; fail 1
         | |- context [marked ?k ?m] => generalize k; intro
         end.
  cbn [snd inputs setInputs]. rewrite lookup_fmap.
  destruct (inputs fm !! s) as [f|]; simpl; [|discriminate].
  intros [= <-]. exists f. split; [reflexivity|].
  unfold isBad.
  destruct (decide (s = "#nomeInput")) as [->|Hn].
  { rewrite (bool_decide_eq_true_2 ("#nomeInput" = "#nomeInput")) by reflexivity.
    rewrite !(bool_decide_eq_false_2 ("#nomeInput" = _)) by discriminate.
    simpl. rewrite !orb_false_r, unmark_value.
    destruct (nomeBad (trim (value f))); [left|right]; eauto. }
  rewrite (bool_decide_eq_false_2 (s = "#nomeInput")) by exact Hn. simpl.
  destruct (decide (s = "#emailInput")) as [->|He].
  { rewrite (bool_decide_eq_true_2 ("#emailInput" = "#emailInput")) by reflexivity.
    rewrite !(bool_decide_eq_false_2 ("#emailInput" = _)) by discriminate.
    simpl. rewrite !orb_false_r, unmark_value.
    destruct (emailBad (trim (value f))); [left|right]; eauto. }
  rewrite (bool_decide_eq_false_2 (s = "#emailInput")) by exact He. simpl.
  destruct (decide (s = "#mensagemInput")) as [->|Hm].
  { rewrite (bool_decide_eq_true_2 ("#mensagemInput" = "#mensagemInput")) by reflexivity.
    simpl. rewrite unmark_value.
    destruct (mensagemBad (trim (value f))); [left|right]; eauto. }
  rewrite (bool_decide_eq_false_2 (s = "#mensagemInput")) by exact Hm. simpl.
  right. auto.
Qed.


Lemma isBad_nome v : isBad "#nomeInput" v = nomeBad (trim v).
Proof. unfold isBad. simpl. rewrite !orb_false_r. reflexivity. Qed.

Lemma isBad_email v : isBad "#emailInput" v = emailBad (trim v).
Proof. unfold isBad. simpl. rewrite !orb_false_r. reflexivity. Qed.

Lemma isBad_mensagem v : isBad "#mensagemInput" v = mensagemBad (trim v).
Proof. unfold isBad. reflexivity. Qed.

Lemma rejects_isBad sel bad fm :
  (∀ v, isBad sel v = bad (trim v)) →
  rejects sel bad fm = false ↔ (∀ f, inputs fm !! sel = Some f → isBad sel (value f) = false).
Proof.
  intros Hb. unfold rejects. destruct (inputs fm !! sel) as [el|].
  - rewrite <- Hb. split; [intros H f [= <-]; exact H|intros H; apply H; reflexivity].
  - split; [intros _ f; discriminate|reflexivity].
Qed.

Lemma isBad_other sel v :
  sel ≠ "#nomeInput" → sel ≠ "#emailInput" → sel ≠ "#mensagemInput" → isBad sel v = false.
Proof.
  intros Hn He Hm. unfold isBad.
  rewrite !bool_decide_eq_false_2 by assumption. reflexivity.
Qed.

(** The form is valid exactly when no element holds a value its rule rejects. *)
Lemma validateForm_valid_iff fm :
  (validateForm fm).1.1 = true ↔
  (∀ sel f, inputs fm !! sel = Some f → isBad sel (value f) = false).
Proof.
  rewrite validateForm_valid, !andb_true_iff, !negb_true_iff.
  rewrite (rejects_isBad _ _ fm isBad_nome), (rejects_isBad _ _ fm isBad_email),
    (rejects_isBad _ _ fm isBad_mensagem).
  split.
  - intros [[Hn He] Hm] sel f Hf.
    destruct (decide (sel = "#nomeInput")) as [->|?]; [eauto|].
    destruct (decide (sel = "#emailInput")) as [->|?]; [eauto|].
    destruct (decide (sel = "#mensagemInput")) as [->|?]; [eauto|].
    apply isBad_other; assumption.
  - intros H. repeat split; intros f Hf; eapply H; exact Hf.
Qed.

(** C3: [validateForm] accepts a name iff its trimmed length is at least 2,
    an e-mail iff its trimmed value has the shape local@name.tld with no
    white space and no further [@], a message iff its trimmed length is at
    least 10; the form is valid iff every element that exists is accepted.
    "A" is rejected and "Al" accepted, "a@b.c" accepted and "a@b" rejected,
    nine characters of message are rejected and ten accepted. *)
Theorem validation_rules :
  (∀ v, isBad "#nomeInput" v = false ↔ (2 ≤ length (trim v))%nat) ∧
  (∀ v, isBad "#emailInput" v = false ↔ emailShape (trim v)) ∧
  (∀ v, isBad "#mensagemInput" v = false ↔ (10 ≤ length (trim v))%nat) ∧
  (∀ fm, (validateForm fm).1.1 = true ↔
         (∀ sel f, inputs fm !! sel = Some f → isBad sel (value f) = false)) ∧
  (∀ fm sel f', inputs (validateForm fm).2 !! sel = Some f' →
     ∃ f, inputs fm !! sel = Some f ∧
          (isBad sel (value f) = true → hasError f' = true ∧ fieldErrors f' ≠ [])) ∧
  isBad "#nomeInput" (lit "A") = true ∧
  isBad "#nomeInput" (lit "Al") = false ∧
  isBad "#emailInput" (lit "a@b.c") = false ∧
  isBad "#emailInput" (lit "a@b") = true ∧
  (∀ v, length v = 9%nat → isBad "#mensagemInput" v = true) ∧
  (∀ v, length (trim v) = 10%nat → isBad "#mensagemInput" v = false) ∧
  isBad "#mensagemInput" (lit "123456789") = true ∧
  isBad "#mensagemInput" (lit "1234567890") = false.
Proof.
  repeat apply conj; try reflexivity.
  - intros v. rewrite isBad_nome. unfold nomeBad. rewrite Nat.ltb_ge. reflexivity.
  - intros v. rewrite isBad_email. unfold emailBad.
    rewrite negb_false_iff. apply emailRegex_shape.
  - intros v. rewrite isBad_mensagem. unfold mensagemBad. rewrite Nat.ltb_ge. reflexivity.
  - apply validateForm_valid_iff.
  - intros fm sel f' Hf'.
    destruct (validateForm_marks fm sel f' Hf') as (f & Hf & _ & Hm).
    exists f. split; [exact Hf|exact Hm].
  - intros v Hv. rewrite isBad_mensagem. unfold mensagemBad.
    apply Nat.ltb_lt. pose proof (trim_length v). lia.
  - intros v Hv. rewrite isBad_mensagem. unfold mensagemBad.
    apply Nat.ltb_ge. lia.
Qed.

Lemma validation_rules_witness :
  (2 ≤ length (trim (lit " Al ")))%nat ∧ emailShape (trim (lit " a@b.c")) ∧
  (10 ≤ length (trim (lit "Bom dia, Projekt")))%nat.
Proof.
  destruct validation_rules as (Hn & He & Hm & _).
  split; [apply Hn; reflexivity|]. split; [apply He; reflexivity|apply Hm; reflexivity].
Defined.

End ValidationFacts.

(** ** Contact form: submission *)
Section SubmitFacts.
Import Js Form.

Lemma validateForm_values fm s :
  value <$> inputs (validateForm fm).2 !! s = value <$> inputs fm !! s.
Proof.
  unfold validateForm. rewrite !(proj1 (check_values _ _ _ _ s)).
  cbn [snd inputs setInputs]. rewrite lookup_fmap.
  destruct (inputs fm !! s) as [f|]; simpl; [|reflexivity].
  rewrite unmark_value. reflexivity.
Qed.

Lemma validateForm_parent fm s :
  parentNode <$> inputs (validateForm fm).2 !! s = parentNode <$> inputs fm !! s.
Proof.
  unfold validateForm. rewrite !(proj2 (check_values _ _ _ _ s)).
  cbn [snd inputs setInputs]. rewrite lookup_fmap.
  destruct (inputs fm !! s) as [f|]; simpl; [|reflexivity].
  rewrite unmark_parent. reflexivity.
Qed.

Lemma ownWrapper_validateForm fm : ownWrapper fm → ownWrapper (validateForm fm).2.
Proof. apply ownWrapper_same, validateForm_parent. Qed.

Lemma check_formSubmit sel bad msg acc :
  formSubmit (check sel bad msg acc).2 = formSubmit acc.2.
Proof.
  destruct acc as [[valid fi] fm]. unfold check. simpl.
  destruct (inputs fm !! sel) as [el|] eqn:E; [|reflexivity].
  destruct (bad (trim (value el))); [|reflexivity].
  simpl. unfold markInvalid. rewrite E. reflexivity.
Qed.

Lemma validateForm_formSubmit fm : formSubmit (validateForm fm).2 = formSubmit fm.
Proof. unfold validateForm. rewrite !check_formSubmit. reflexivity. Qed.

(** Both ways of collecting read nothing but the five values. *)
Lemma collect_values fm fm' :
  (∀ s, value <$> inputs fm' !! s = value <$> inputs fm !! s) →
  collect fm' = collect fm ∧ allTrimmed fm' = allTrimmed fm.
Proof.
  intros H. unfold collect, allTrimmed.
  pose proof (H "#nomeInput") as Hn. pose proof (H "#emailInput") as He.
  pose proof (H "#empresaInput") as Hc. pose proof (H "#servicoSelect") as Hs.
  pose proof (H "#mensagemInput") as Hm.
  destruct (inputs fm' !! "#nomeInput"), (inputs fm !! "#nomeInput");
    simpl in Hn; try discriminate; [|split; reflexivity].
  destruct (inputs fm' !! "#emailInput"), (inputs fm !! "#emailInput");
    simpl in He; try discriminate; [|split; reflexivity].
  destruct (inputs fm' !! "#empresaInput"), (inputs fm !! "#empresaInput");
    simpl in Hc; try discriminate; [|split; reflexivity].
  destruct (inputs fm' !! "#servicoSelect"), (inputs fm !! "#servicoSelect");
    simpl in Hs; try discriminate; [|split; reflexivity].
  destruct (inputs fm' !! "#mensagemInput"), (inputs fm !! "#mensagemInput");
    simpl in Hm; try discriminate; [|split; reflexivity].
  simpl. split; congruence.
Qed.

Lemma collect_complete st :
  complete st →
  ∃ n e c s m,
    inputs (form st) !! "#nomeInput" = Some n ∧
    inputs (form st) !! "#emailInput" = Some e ∧
    inputs (form st) !! "#empresaInput" = Some c ∧
    inputs (form st) !! "#servicoSelect" = Some s ∧
    inputs (form st) !! "#mensagemInput" = Some m ∧
    collect (form st) =
      Some {| nome := trim (value n); email := trim (value e);
              empresa := trim (value c); servico := value s;
              mensagem := trim (value m) |}.
Proof.
  intros ([n Hn] & [e He] & [c Hc] & [s Hs] & [m Hm] & _).
  exists n, e, c, s, m. unfold collect. rewrite Hn, He, Hc, Hs, Hm. auto 10.
Qed.

(** C4, counterexample: a select whose value is " web " is handed over
    as it is, not trimmed. *)
Lemma submit_trimmed_claim_fails : ¬ submit_trimmed_claim.
Proof.
  intros H.
  destruct (H (page "Al" "a@b.c" "Projekt" " web " "1234567890")
              simulateFormSubmission)
    as (data & atCall & final & Hrun & Htrim & _).
  - unfold complete. repeat split; eexists; reflexivity.
  - vm_compute. reflexivity.
  - vm_compute in Htrim. injection Htrim as <-.
    apply (f_equal (fun r => (hd ({| nome := []; email := []; empresa := [];
                                      servico := []; mensagem := [] |},
                                   page "" "" "" "" "") r.1.1).1)) in Hrun.
    vm_compute in Hrun. discriminate.
Qed.

(** C4 (amended): when every element the listener reads exists and the
    form passes validation, a submission makes exactly one call to the
    collaborator; its argument carries the trimmed values of the name,
    e-mail, company and message inputs and the value of the service select
    as it is; the button is in its loading, disabled state when the call is
    made and is released when the handler ends, however the call settles. *)
Theorem submit_lifecycle (st : State) (collab : FormData → Outcome) :
  complete st → (validateForm (form st)).1.1 = true →
  ∃ n e c s m atCall final,
    inputs (form st) !! "#nomeInput" = Some n ∧
    inputs (form st) !! "#emailInput" = Some e ∧
    inputs (form st) !! "#empresaInput" = Some c ∧
    inputs (form st) !! "#servicoSelect" = Some s ∧
    inputs (form st) !! "#mensagemInput" = Some m ∧
    settle collab (onSubmit st) =
      ([({| nome := trim (value n); email := trim (value e);
            empresa := trim (value c); servico := value s;
            mensagem := trim (value m) |}, atCall)], final, false) ∧
    formSubmit (form atCall) = locked ∧
    formSubmit (form final) = released.
Proof.
  intros Hc Hv.
  destruct (collect_complete st Hc) as (n & e & c & s & m & Hn & He & Hco & Hs & Hm & Hdata).
  destruct Hc as (_ & _ & _ & _ & _ & [btn Hbtn] & [fb Hfb]).
  exists n, e, c, s, m.
  pose proof (validateForm_formSubmit (form st)) as Hb.
  destruct (collect_values (form st) (validateForm (form st)).2
              (validateForm_values (form st))) as [Hcol _].
  unfold onSubmit.
  destruct (validateForm (form st)) as [[valid fi] fm1]. simpl in Hv, Hb, Hcol. subst valid.
  simpl negb. cbv iota. rewrite Hcol, Hdata, Hb, Hbtn, Hfb.
  unfold settle, afterAwait. cbn [feedback withFeedback withForm].
  destruct (collab _) as [[|]|];
    eexists; eexists; (repeat split; try eassumption); reflexivity.
Qed.

Lemma submit_lifecycle_witness :
  ∃ atCall final,
    settle (fun _ => Rejected)
           (onSubmit (page "Al" "a@b.c" " Projekt " " web " " 1234567890 ")) =
      ([({| nome := lit "Al"; email := lit "a@b.c"; empresa := lit "Projekt";
            servico := lit " web "; mensagem := lit "1234567890" |}, atCall)],
       final, false) ∧
    formSubmit (form atCall) = locked ∧
    formSubmit (form final) = released.
Proof.
  destruct (submit_lifecycle (page "Al" "a@b.c" " Projekt " " web " " 1234567890 ")
              (fun _ => Rejected))
    as (n & e & c & s & m & atCall & final & Hn & He & Hc & Hs & Hm & Hrun & H1 & H2).
  - unfold complete. repeat split; eexists; reflexivity.
  - vm_compute. reflexivity.
  - exists atCall, final.
    vm_compute in Hn, He, Hc, Hs, Hm.
    injection Hn as <-. injection He as <-. injection Hc as <-.
    injection Hs as <-. injection Hm as <-.
    split; [exact Hrun|]. split; [exact H1|exact H2].
Defined.

End SubmitFacts.

(** ** Contact form: markers and messages *)
Section MarkerFacts.
Import Js Form.


Lemma unmark_fields el :
  fieldErrors (unmark el) = fieldErrors el ∧ inputOnce (unmark el) = inputOnce el ∧
  formInput (unmark el) = formInput el ∧
  (hasError (unmark el) = true → formInput el = false ∧ hasError el = true).
Proof.
  unfold unmark. destruct (formInput el) eqn:Hf, (hasError el) eqn:Hh; simpl;
    rewrite ?Hf, ?Hh; repeat split; congruence.
Qed.




(** The pending listeners of an element, run in order. *)
Lemma corrections_fields ls : ∀ f,
  let g := foldl (λ f error, correction error f) f ls in
  value g = value f ∧ formInput g = formInput f ∧ parentNode g = parentNode f ∧
  (∀ e, e ∈ fieldErrors g → e ∈ fieldErrors f ∧ e.1 ∉ ls) ∧
  (length (fieldErrors g) ≤ length (fieldErrors f))%nat ∧
  (fieldErrors f = [] → fieldErrors g = []) ∧
  hasError g = match ls with [] => hasError f | _ => false end.
Proof.
  induction ls as [|a ls IH]; intros f; simpl.
  - repeat split; try tauto; try lia. apply not_elem_of_nil.
  - destruct (IH (correction a f)) as (Hv & Hfi & Hp & He & Hl & Hn & Hh).
    split; [rewrite Hv; reflexivity|]. split; [rewrite Hfi; reflexivity|].
    split; [rewrite Hp; reflexivity|].
    split; [|split; [|split]].
    + intros e Hin. apply He in Hin as [Hin Hls]. simpl in Hin.
      apply list_elem_of_filter in Hin as [Hne Hin].
      split; [exact Hin|]. intros Hc. apply elem_of_cons in Hc as [Hc|Hc]; auto.
    + etransitivity; [exact Hl|]. simpl. apply length_filter.
    + intros E. apply Hn. simpl. rewrite E. reflexivity.
    + rewrite Hh. destruct ls; reflexivity.
Qed.

Lemma cleared_fields p ls g :
  value (cleared p ls g) = value g ∧ parentNode (cleared p ls g) = parentNode g ∧
  hasError (cleared p ls g) = hasError g ∧ inputOnce (cleared p ls g) = inputOnce g.
Proof. unfold cleared. destruct (parentNode g =? p)%nat; repeat split. Qed.

(** With wrappers of their own, an edit touches the edited field alone. *)
Lemma onInput_own sel v fm field :
  ownWrapper fm → inputs fm !! sel = Some field →
  inputs (onInput sel v fm) =
  <[ sel := setErrors (fieldErrors (foldl (λ f error, correction error f)
                                          (setValue v field) (inputOnce field)))
                      []
                      (foldl (λ f error, correction error f)
                             (setValue v field) (inputOnce field)) ]> (inputs fm).
Proof.
  intros Hown Hsel. unfold onInput. rewrite Hsel. cbn [inputs setInputs].
  apply map_eq. intros s. destruct (decide (s = sel)) as [->|Hne].
  - rewrite !lookup_insert_eq. reflexivity.
  - rewrite !lookup_insert_ne by congruence. rewrite lookup_fmap.
    destruct (inputs fm !! s) as [g|] eqn:Hs; simpl; [|reflexivity].
    unfold cleared. destruct (parentNode g =? parentNode field)%nat eqn:E; [|reflexivity].
    apply Nat.eqb_eq in E. exfalso. apply Hne. apply (Hown s sel g field Hs Hsel E).
Qed.


(** The blur check at [s]: the element is as it was, or it is the blurred
    one, required and empty, and gained the marker alone. *)
Lemma onBlur_lookup sel fm s g' :
  inputs (onBlur sel fm) !! s = Some g' →
  ∃ g, inputs fm !! s = Some g ∧
       (g' = g ∨
        (s = sel ∧ g' = setError true g ∧ formInput g = true ∧ required g = true ∧
         trim (value g) = [])).
Proof.
  unfold onBlur. destruct (inputs fm !! sel) as [f|] eqn:Hf; [|eauto].
  destruct (formInput f) eqn:Hfi; [|eauto].
  destruct (required f && bool_decide (trim (value f) = [])) eqn:Hreq; [|eauto].
  apply andb_true_iff in Hreq as [Hr He]. apply bool_decide_eq_true in He.
  simpl. destruct (decide (s = sel)) as [->|Hne].
  - rewrite lookup_insert_eq. intros [= <-]. exists f. split; [exact Hf|]. right. auto 6.
  - rewrite lookup_insert_ne by congruence. eauto.
Qed.


(** *** What the four operations do to the inputs *)

(** A [submit] event leaves the inputs as [validateForm] left them. *)
Lemma submit_inputs st :
  inputs (form (apply Submit st)) = inputs (validateForm (form st)).2.
Proof.
  unfold apply, onSubmit.
  destruct (validateForm (form st)) as [[valid fi] fm1].
  destruct valid; simpl; [|reflexivity].
  destruct (collect fm1) as [data|]; [|reflexivity].
  destruct (formSubmit fm1); [|reflexivity].
  destruct (feedback st); reflexivity.
Qed.


(** A settlement leaves the inputs as they are or, after a successful call,
    reset to their defaults. *)
Lemma settle_inputs result st :
  inputs (form (apply (Settle result) st)) = inputs (form st) ∨
  inputs (form (apply (Settle result) st)) = inputs (reset (form st)).
Proof.
  unfold apply, afterAwait. destruct (feedback st); [|left; reflexivity].
  destruct result as [[|]|]; simpl; auto.
Qed.

Lemma reset_lookup fm s :
  inputs (reset fm) !! s = (λ el, setValue (defaultValue el) el) <$> inputs fm !! s.
Proof. unfold reset. simpl. apply lookup_fmap. Qed.

(** No operation moves an input to another element. *)
Lemma apply_parent op st s :
  parentNode <$> inputs (form (apply op st)) !! s = parentNode <$> inputs (form st) !! s.
Proof.
  destruct op as [|result|sel|sel v].
  - rewrite submit_inputs. apply validateForm_parent.
  - destruct (settle_inputs result st) as [->| ->]; [reflexivity|].
    rewrite reset_lookup. destruct (inputs (form st) !! s); reflexivity.
  - simpl. destruct (inputs (onBlur sel (form st)) !! s) as [g'|] eqn:Hg'.
    + destruct (onBlur_lookup sel _ s g' Hg') as (g & -> & [->|(_ & -> & _)]); reflexivity.
    + unfold onBlur in Hg'. destruct (inputs (form st) !! sel) as [f|] eqn:Hf;
        [|rewrite Hg'; reflexivity].
      destruct (formInput f); [|rewrite Hg'; reflexivity].
      destruct (required f && bool_decide (trim (value f) = [])); [|rewrite Hg'; reflexivity].
      simpl in Hg'. destruct (decide (s = sel)) as [->|Hne].
      * rewrite lookup_insert_eq in Hg'. discriminate.
      * rewrite lookup_insert_ne in Hg' by congruence. rewrite Hg'. reflexivity.
  - simpl. unfold onInput. destruct (inputs (form st) !! sel) as [f|] eqn:Hf; [|reflexivity].
    cbn [inputs setInputs]. destruct (decide (s = sel)) as [->|Hne].
    + rewrite lookup_insert_eq, Hf. simpl.
      destruct (corrections_fields (inputOnce f) (setValue v f)) as (_ & _ & -> & _).
      reflexivity.
    + rewrite lookup_insert_ne by congruence. rewrite lookup_fmap.
      destruct (inputs (form st) !! s) as [g|]; simpl; [|reflexivity].
      rewrite (proj1 (proj2 (cleared_fields _ _ g))). reflexivity.
Qed.

Lemma ownWrapper_apply op st : ownWrapper (form st) → ownWrapper (form (apply op st)).
Proof. apply ownWrapper_same. intros s. apply apply_parent. Qed.

Lemma ownWrapper_after ops : ∀ st, ownWrapper (form st) → ownWrapper (form (after ops st)).
Proof.
  induction ops as [|op ops IH]; intros st H; [exact H|].
  apply (IH (apply op st)), ownWrapper_apply, H.
Qed.

(** *** Orderly runs *)




Lemma pageOf_ownWrapper n e c s m :
  ownWrapper (form (pageOf n e c s m)) ↔
  NoDup [parentNode n; parentNode e; parentNode c; parentNode s; parentNode m].
Proof.
  split.
  - intros Hown.
    assert (Hdiff : ∀ s1 s2 f1 f2,
              inputs (form (pageOf n e c s m)) !! s1 = Some f1 →
              inputs (form (pageOf n e c s m)) !! s2 = Some f2 →
              s1 ≠ s2 → parentNode f1 ≠ parentNode f2).
    { intros s1 s2 f1 f2 H1 H2 Hne Hp. apply Hne, (Hown s1 s2 f1 f2 H1 H2 Hp). }
    assert (Hn : inputs (form (pageOf n e c s m)) !! "#nomeInput" = Some n) by reflexivity.
    assert (He : inputs (form (pageOf n e c s m)) !! "#emailInput" = Some e) by reflexivity.
    assert (Hc : inputs (form (pageOf n e c s m)) !! "#empresaInput" = Some c) by reflexivity.
    assert (Hs : inputs (form (pageOf n e c s m)) !! "#servicoSelect" = Some s) by reflexivity.
    assert (Hm : inputs (form (pageOf n e c s m)) !! "#mensagemInput" = Some m) by reflexivity.
    repeat constructor; rewrite ?elem_of_cons, ?elem_of_nil; intros H;
      repeat destruct H as [H|H]; try contradiction;
      revert H; eapply Hdiff; try eassumption; discriminate.
  - intros Hnd s1 s2 f1 f2 H1 H2 Hp. simpl in H1, H2.
    apply NoDup_cons in Hnd as [N1 Hnd]. apply NoDup_cons in Hnd as [N2 Hnd].
    apply NoDup_cons in Hnd as [N3 Hnd]. apply NoDup_cons in Hnd as [N4 _].
    rewrite !not_elem_of_cons in N1. rewrite !not_elem_of_cons in N2.
    rewrite !not_elem_of_cons in N3. rewrite !not_elem_of_cons in N4.
    repeat (apply lookup_insert_Some in H1 as [[<- <-]|[? H1]];
            [|]); try (rewrite lookup_empty in H1; discriminate);
    repeat (apply lookup_insert_Some in H2 as [[<- <-]|[? H2]];
            [|]); try (rewrite lookup_empty in H2; discriminate);
    try reflexivity; exfalso; intuition congruence.
Qed.

Lemma page_pristine n e c s m : pristine (form (page n e c s m)).
Proof.
  intros sel f. simpl.
  repeat (rewrite lookup_insert; case_decide; [intros [= <-]; auto|]).
  rewrite lookup_empty. discriminate.
Qed.

Lemma page_ownWrapper n e c s m : ownWrapper (form (page n e c s m)).
Proof.
  apply pageOf_ownWrapper. simpl.
  repeat (constructor; [rewrite ?not_elem_of_cons; repeat split; try discriminate;
                        apply not_elem_of_nil|]).
  constructor.
Qed.


(** Why the amended claim asks for wrappers of their own: with the name and
    the e-mail input in one element, a submission that rejects the e-mail
    alone leaves its message under the parent of the name input too, which
    carries no marker. *)
Lemma shared_parent_shows_foreign_message :
  let st := pageOf (control "Al" true) (control "a@b" true) (inWrapper 2 (control "" false))
                   (inWrapper 3 (control "" false))
                   (inWrapper 4 (control "Bom dia, Projekt" true)) in
  pristine (form st) ∧ orderly 0 [Submit] st = true ∧
  ∃ f, inputs (form (after [Submit] st)) !! "#nomeInput" = Some f ∧
       fieldErrors f = [(0%nat, "E-mail inválido")] ∧ hasError f = false.
Proof.
  intros st. split; [|split; [reflexivity|]].
  - intros sel f. simpl.
    repeat (rewrite lookup_insert; case_decide; [intros [= <-]; auto|]).
    rewrite lookup_empty. discriminate.
  - eexists. split; [vm_compute; reflexivity|]. split; reflexivity.
Qed.

(** Why it asks for orderly runs: if a second [submit] event comes while a
    call is waiting, it can attach a message that the reset of the first,
    successful submission then strips of its reason; the next validation
    takes the marker away and leaves the message. *)
Lemma overlapping_submissions_leave_message :
  let st := pageOf (prefilled "Al" "Al" true)
                   (inWrapper 1 (prefilled "a@b.c" "a@b.c" true))
                   (inWrapper 2 (prefilled "" "" false))
                   (inWrapper 3 (prefilled "" "" false))
                   (inWrapper 4 (prefilled "Bom dia, Projekt" "Bom dia, Projekt" true)) in
  let ops := [Submit; Input "#nomeInput" (lit "A"); Submit; Settle (Resolved true); Submit] in
  pristine (form st) ∧ ownWrapper (form st) ∧ orderly 0 ops st = false ∧
  ∃ f, inputs (form (after ops st)) !! "#nomeInput" = Some f ∧
       fieldErrors f = [(0%nat, "Nome deve ter ao menos 2 caracteres")] ∧
       hasError f = false.
Proof.
  intros st ops. split; [|split; [|split; [reflexivity|]]].
  - intros sel f. simpl.
    repeat (rewrite lookup_insert; case_decide; [intros [= <-]; auto|]).
    rewrite lookup_empty. discriminate.
  - apply pageOf_ownWrapper. simpl.
    repeat (constructor; [rewrite ?not_elem_of_cons; repeat split; try discriminate;
                          apply not_elem_of_nil|]).
    constructor.
  - eexists. split; [vm_compute; reflexivity|]. split; reflexivity.
Qed.



End MarkerFacts.

(** ** Contact form: aborted submissions, messages, outcomes *)
Section FormMoreFacts.
Import Js Form.




Lemma check_focused sel bad msg acc : focused (check sel bad msg acc).2 = focused acc.2.
Proof.
  destruct acc as [[valid fi] fm]. unfold check. simpl.
  destruct (inputs fm !! sel) as [el|] eqn:E; [|reflexivity].
  destruct (bad (trim (value el))); [|reflexivity].
  simpl. unfold markInvalid. rewrite E. reflexivity.
Qed.



Lemma marked_tidy sel k f :
  tidy sel f → tidy sel (marked k (ruleMessage sel) (unmark f)) ∧
  fieldErrors (marked k (ruleMessage sel) (unmark f)) = [(k, ruleMessage sel)].
Proof.
  intros [Hlen Hmsg]. destruct (unmark_fields f) as (Ue & _).
  assert (E : fieldErrors (marked k (ruleMessage sel) (unmark f)) = [(k, ruleMessage sel)]).
  { simpl. rewrite Ue. destruct (fieldErrors f) as [|e0 [|e1 es]]; simpl in *; [reflexivity..|lia]. }
  split; [|exact E]. unfold tidy. rewrite E. split; [simpl; lia|].
  intros e He. apply list_elem_of_singleton in He as ->. reflexivity.
Qed.

Lemma validateForm_tidy fm : ownWrapper fm → all_tidy fm → all_tidy (validateForm fm).2.
Proof.
  intros Hown Hall s f' Hf'.
  destruct (validateForm_lookup_msg fm s f' Hown Hf') as (f & Hf & [[_ (k & ->)]|[_ ->]]).
  - apply marked_tidy, (Hall s f Hf).
  - destruct (unmark_fields f) as (Ue & _). unfold tidy. rewrite Ue. apply (Hall s f Hf).
Qed.

Lemma reset_tidy fm : all_tidy fm → all_tidy (reset fm).
Proof.
  intros Hall s f'. unfold reset. simpl. rewrite lookup_fmap.
  destruct (inputs fm !! s) as [f|] eqn:Hf; simpl; [|discriminate].
  intros [= <-]. apply (Hall s f Hf).
Qed.

Lemma apply_tidy op st :
  ownWrapper (form st) → all_tidy (form st) → all_tidy (form (apply op st)).
Proof.
  intros Hown Ht. destruct op as [|result|sel|sel v].
  - intros s f'. rewrite submit_inputs. apply validateForm_tidy; assumption.
  - intros s f'. destruct (settle_inputs result st) as [->| ->]; [apply Ht|].
    apply (reset_tidy _ Ht).
  - intros s f' Hf'. simpl in Hf'.
    destruct (onBlur_lookup sel _ s f' Hf') as (g & Hg & [->|(_ & -> & _)]); apply (Ht s g Hg).
  - intros s f'. simpl. destruct (inputs (form st) !! sel) as [f|] eqn:Hf.
    + rewrite (onInput_own sel v _ f Hown Hf).
      destruct (decide (s = sel)) as [->|Hne].
      * rewrite lookup_insert_eq. intros [= <-].
        destruct (corrections_fields (inputOnce f) (setValue v f))
          as (_ & _ & _ & He & Hl & _).
        destruct (Ht sel f Hf) as [Hlen Hmsg]. unfold tidy. simpl in *.
        split; [lia|]. intros e Hin. apply Hmsg, He, Hin.
      * rewrite lookup_insert_ne by congruence. apply Ht.
    + unfold onInput. rewrite Hf. apply Ht.
Qed.

Lemma after_tidy ops : ∀ st,
  ownWrapper (form st) → all_tidy (form st) → all_tidy (form (after ops st)).
Proof.
  induction ops as [|op ops IH]; intros st Hown Ht; [exact Ht|].
  apply (IH (apply op st)); [apply ownWrapper_apply, Hown|apply apply_tidy; assumption].
Qed.

Lemma pristine_tidy fm : pristine fm → all_tidy fm.
Proof.
  intros Hp s f Hf. destruct (Hp s f Hf) as (_ & He & _). unfold tidy. rewrite He.
  split; [simpl; lia|]. intros e Hin. apply elem_of_nil in Hin. contradiction.
Qed.

(** X9: on a form whose inputs each sit in an element of their own,
    however often the form is submitted, blurred and edited and however the
    calls settle, an input never shows more than one error message, and the
    message is the one of its rule; a submission attempt on a rejected value
    leaves exactly one. *)
Theorem single_message (st : State) (ops : list Op) (sel : string) (f : Field) :
  pristine (form st) → ownWrapper (form st) →
  inputs (form (after ops st)) !! sel = Some f →
  (length (fieldErrors f) ≤ 1)%nat ∧
  (∀ e, e ∈ fieldErrors f → e.2 = ruleMessage sel) ∧
  (∀ f', isBad sel (value f) = true →
     inputs (form (apply Submit (after ops st))) !! sel = Some f' →
     ∃ k, fieldErrors f' = [(k, ruleMessage sel)]).
Proof.
  intros Hp Hown Hf.
  pose proof (after_tidy ops st Hown (pristine_tidy _ Hp)) as Ht.
  pose proof (ownWrapper_after ops st Hown) as Hown'.
  destruct (Ht sel f Hf) as [Hlen Hmsg].
  split; [exact Hlen|]. split; [exact Hmsg|].
  intros f' Hbad. rewrite submit_inputs. intros Hf'.
  destruct (validateForm_lookup_msg _ sel f' Hown' Hf') as (f0 & Hf0 & [[_ (k & ->)]|[Hok _]]).
  - exists k. apply marked_tidy. rewrite Hf in Hf0. injection Hf0 as <-. split; assumption.
  - rewrite Hf in Hf0. injection Hf0 as <-. congruence.
Qed.

Lemma single_message_witness :
  ∃ f, inputs (form (after [Submit; Submit; Blur "#emailInput"; Submit]
                           (page "Al" "a@b" "" "" "Bom dia, Projekt")))
         !! "#emailInput" = Some f ∧
       fieldErrors f = [(2%nat, "E-mail inválido")] ∧
       (length (fieldErrors f) ≤ 1)%nat.
Proof.
  eexists. split; [vm_compute; reflexivity|]. split; [reflexivity|].
  refine (proj1 (single_message (page "Al" "a@b" "" "" "Bom dia, Projekt")
                   [Submit; Submit; Blur "#emailInput"; Submit] "#emailInput" _
                   (page_pristine _ _ _ _ _) (page_ownWrapper _ _ _ _ _) _)).
  vm_compute. reflexivity.
Defined.

(** With two inputs in one element the second message replaces the first:
    the name input, rejected and marked, shows the message of the e-mail
    rule. *)
Lemma shared_parent_replaces_message :
  let st := pageOf (control "A" true) (control "a@b" true) (inWrapper 2 (control "" false))
                   (inWrapper 3 (control "" false))
                   (inWrapper 4 (control "Bom dia, Projekt" true)) in
  ∃ f, inputs (form (after [Submit] st)) !! "#nomeInput" = Some f ∧
       hasError f = true ∧ fieldErrors f = [(1%nat, "E-mail inválido")].
Proof. eexists. split; [vm_compute; reflexivity|]. split; reflexivity. Qed.

(** The run of the handler on a complete form that passes validation. *)
Lemma valid_submission_run (st : State) (collab : FormData → Outcome) :
  complete st → (validateForm (form st)).1.1 = true →
  ∃ data fb,
    collect (form st) = Some data ∧ feedback st = Some fb ∧
    let fm2 := setButton {| isLoading := true; disabled := true |} (validateForm (form st)).2 in
    let st3 := withFeedback {| className := "form-feedback"; textContent := textContent fb |}
                            (withForm fm2 st) in
    let st4 := match collab data with
               | Resolved true =>
                   withForm (reset fm2)
                     (withFeedback
                        (showFeedback "success"
                           "✓ Mensagem enviada! Entraremos em contato em breve." fb) st3)
               | _ =>
                   withFeedback
                     (showFeedback "error"
                        "Ocorreu um erro. Por favor, tente pelo WhatsApp ou e-mail." fb) st3
               end in
    settle collab (onSubmit st) =
      ([(data, st3)],
       withForm (setButton {| isLoading := false; disabled := false |} (form st4)) st4,
       false).
Proof.
  intros Hc Hv.
  destruct (collect_complete st Hc) as (n & e & c & s & m & _ & _ & _ & _ & _ & Hdata).
  destruct Hc as (_ & _ & _ & _ & _ & [btn Hbtn] & [fb Hfb]).
  eexists. exists fb. split; [exact Hdata|]. split; [exact Hfb|].
  pose proof (validateForm_formSubmit (form st)) as Hb.
  destruct (collect_values (form st) (validateForm (form st)).2
              (validateForm_values (form st))) as [Hcol _].
  unfold onSubmit.
  destruct (validateForm (form st)) as [[valid fi] fm1]. simpl in Hv, Hb, Hcol. subst valid.
  simpl negb. cbv iota. rewrite Hcol, Hdata, Hb, Hbtn, Hfb.
  cbn [settle snd]. destruct (collab _) as [[|]|]; reflexivity.
Qed.

Lemma check_accepts sel bad msg acc : rejects sel bad acc.2 = false → check sel bad msg acc = acc.
Proof.
  destruct acc as [[valid fi] fm]. unfold rejects, check. simpl.
  destruct (inputs fm !! sel) as [el|]; [|reflexivity]. intros ->. reflexivity.
Qed.

(** A validation that passes only takes markers away. *)
Lemma validateForm_accepts fm :
  (validateForm fm).1.1 = true →
  validateForm fm = (true, None, setInputs (unmark <$> inputs fm) (nextSpan fm) fm).
Proof.
  rewrite validateForm_valid, !andb_true_iff, !negb_true_iff. intros [[Hn He] Hm].
  unfold validateForm.
  rewrite (check_accepts "#nomeInput") by (simpl; rewrite unmarked_rejects; exact Hn).
  rewrite (check_accepts "#emailInput") by (simpl; rewrite unmarked_rejects; exact He).
  rewrite (check_accepts "#mensagemInput") by (simpl; rewrite unmarked_rejects; exact Hm).
  reflexivity.
Qed.

(** After a validation that passes, the inputs of the [.form-input] class
    carry no marker. *)
Lemma valid_unmarks fm sel f' :
  (validateForm fm).1.1 = true →
  inputs (validateForm fm).2 !! sel = Some f' →
  formInput f' = true → hasError f' = false.
Proof.
  intros Hv. rewrite (validateForm_accepts fm Hv). simpl. rewrite lookup_fmap.
  destruct (inputs fm !! sel) as [f|]; simpl; [|discriminate].
  intros [= <-]. destruct (unmark_fields f) as (_ & _ & Uf & Uh). intros Hfi.
  destruct (hasError (unmark f)) eqn:E; [|reflexivity].
  destruct (Uh eq_refl) as [Hno _]. congruence.
Qed.

(** Blurs and edits touch neither the button nor the feedback element. *)
Lemma edits_keep_button edits : ∀ st,
  Forall (λ op, isEdit op = true) edits →
  formSubmit (form (after edits st)) = formSubmit (form st) ∧
  feedback (after edits st) = feedback st.
Proof.
  induction edits as [|op edits IH]; intros st Hops; [split; reflexivity|].
  apply Forall_cons in Hops as [Hop Hops].
  change (after (op :: edits) st) with (after edits (apply op st)).
  destruct (IH (apply op st) Hops) as [-> ->].
  destruct op as [|result|sel|sel v]; try discriminate; simpl.
  - unfold onBlur. destruct (inputs (form st) !! sel) as [f|]; [|split; reflexivity].
    destruct (formInput f); [|split; reflexivity].
    destruct (required f && bool_decide (trim (value f) = [])); split; reflexivity.
  - unfold onInput. destruct (inputs (form st) !! sel); split; reflexivity.
Qed.

(** X10: on a complete form that passes validation the listener locks the
    button, leaves no [.form-input] marked and waits for the collaborator.
    Whatever blurs and edits come while it waits, the button stays locked;
    when the call settles the button is released and markers and messages
    stay as they are by then.  After a call that resolves with success the
    success feedback shows and every control is back at its default value;
    after one that resolves without success or is rejected the error
    feedback shows and the inputs are as they were just before, the edits
    made meanwhile included. *)
Theorem submission_outcome (st : State) (edits : list Op) (result : Outcome) :
  complete st → (validateForm (form st)).1.1 = true →
  Forall (λ op, isEdit op = true) edits →
  let atCall := apply Submit st in
  let before := after edits atCall in
  let final := apply (Settle result) before in
  awaits st = true ∧
  formSubmit (form atCall) = locked ∧
  (∀ sel f, inputs (form atCall) !! sel = Some f → formInput f = true → hasError f = false) ∧
  formSubmit (form before) = locked ∧
  formSubmit (form final) = released ∧
  (∀ sel, (λ f, (hasError f, fieldErrors f)) <$> inputs (form final) !! sel
          = (λ f, (hasError f, fieldErrors f)) <$> inputs (form before) !! sel) ∧
  ∃ fb, feedback final = Some fb ∧
        match result with
        | Resolved true =>
            className fb = "form-feedback success" ∧
            textContent fb = "✓ Mensagem enviada! Entraremos em contato em breve." ∧
            ∀ sel f', inputs (form final) !! sel = Some f' → value f' = defaultValue f'
        | _ =>
            className fb = "form-feedback error" ∧
            textContent fb = "Ocorreu um erro. Por favor, tente pelo WhatsApp ou e-mail." ∧
            inputs (form final) = inputs (form before)
        end.
Proof.
  intros Hc Hv Hedits atCall before final.
  destruct (collect_complete st Hc) as (n & e & c & s & m & _ & _ & _ & _ & _ & Hdata).
  destruct Hc as (_ & _ & _ & _ & _ & [btn Hbtn] & [fb0 Hfb]).
  pose proof (validateForm_formSubmit (form st)) as Hb.
  destruct (collect_values (form st) (validateForm (form st)).2
              (validateForm_values (form st))) as [Hcol _].
  assert (Hrun : onSubmit st =
                 Awaiting (withFeedback {| className := "form-feedback";
                                           textContent := textContent fb0 |}
                             (withForm (setButton {| isLoading := true; disabled := true |}
                                          (validateForm (form st)).2) st))
                          {| nome := trim (value n); email := trim (value e);
                             empresa := trim (value c); servico := value s;
                             mensagem := trim (value m) |}).
  { unfold onSubmit.
    destruct (validateForm (form st)) as [[valid fi] fm1]. simpl in Hv, Hb, Hcol. subst valid.
    simpl negb. cbv iota. rewrite Hcol, Hdata, Hb, Hbtn, Hfb. reflexivity. }
  assert (Hat : atCall = withFeedback {| className := "form-feedback";
                                         textContent := textContent fb0 |}
                           (withForm (setButton {| isLoading := true; disabled := true |}
                                        (validateForm (form st)).2) st)).
  { unfold atCall, apply. rewrite Hrun. reflexivity. }
  destruct (edits_keep_button edits atCall Hedits) as [Hkb Hkf].
  fold before in Hkb, Hkf.
  split; [unfold awaits; rewrite Hrun; reflexivity|].
  split; [rewrite Hat; reflexivity|].
  split; [intros sel f; rewrite Hat; simpl; apply (valid_unmarks _ sel f Hv)|].
  split; [rewrite Hkb, Hat; reflexivity|].
  assert (Hfb' : ∃ fb1, feedback before = Some fb1).
  { rewrite Hkf, Hat. simpl. eauto. }
  destruct Hfb' as [fb1 Hfb1].
  unfold final, apply, afterAwait. rewrite Hfb1.
  destruct result as [[|]|]; cbn [fst form feedback withForm withFeedback setButton formSubmit
                                  inputs reset setInputs];
    (split; [reflexivity|]).
  - split.
    + intros sel. rewrite lookup_fmap. destruct (inputs (form before) !! sel); reflexivity.
    + eexists. split; [reflexivity|]. split; [reflexivity|]. split; [reflexivity|].
      intros sel f'. rewrite lookup_fmap.
      destruct (inputs (form before) !! sel); simpl; [|discriminate].
      intros [= <-]. reflexivity.
  - split; [reflexivity|]. eexists. split; [reflexivity|]. repeat split.
  - split; [reflexivity|]. eexists. split; [reflexivity|]. repeat split.
Qed.

Lemma submission_outcome_witness :
  let st := page "Al" "a@b.c" "" "" "Bom dia, Projekt" in
  let edits := [Input "#nomeInput" (lit " "); Blur "#nomeInput"] in
  ∃ final fb f,
    apply (Settle (Resolved false)) (after edits (apply Submit st)) = final ∧
    feedback final = Some fb ∧ className fb = "form-feedback error" ∧
    formSubmit (form final) = released ∧
    inputs (form final) !! "#nomeInput" = Some f ∧ value f = lit " " ∧ hasError f = true.
Proof.
  intros st edits.
  destruct (submission_outcome st edits (Resolved false))
    as (_ & _ & _ & _ & Hrel & _ & fb & Hfb & Hcls & _ & _).
  - unfold complete. repeat split; eexists; reflexivity.
  - vm_compute. reflexivity.
  - repeat constructor.
  - eexists. exists fb. eexists. split; [reflexivity|]. split; [exact Hfb|].
    split; [exact Hcls|]. split; [exact Hrel|].
    split; [vm_compute; reflexivity|]. split; reflexivity.
Defined.

Lemma edit_keeps_marker op st sel f :
  isEdit op = true →
  inputs (form st) !! sel = Some f → hasError f = true → inputOnce f = [] →
  ∃ f', inputs (form (apply op st)) !! sel = Some f' ∧
        hasError f' = true ∧ inputOnce f' = [].
Proof.
  intros Hop Hf Hh Hl. destruct op as [|result|s|s v]; try discriminate; simpl.
  - unfold onBlur. destruct (inputs (form st) !! s) as [g|] eqn:Hg; [|eauto].
    destruct (formInput g); [|eauto].
    destruct (required g && bool_decide (trim (value g) = [])); [|eauto].
    simpl. destruct (decide (sel = s)) as [->|Hne].
    + rewrite lookup_insert_eq. rewrite Hf in Hg. injection Hg as <-.
      eexists. split; [reflexivity|]. split; [reflexivity|exact Hl].
    + rewrite lookup_insert_ne by congruence. eauto.
  - unfold onInput. destruct (inputs (form st) !! s) as [g|] eqn:Hg; [|eauto].
    cbn [inputs setInputs]. destruct (decide (sel = s)) as [->|Hne].
    + rewrite lookup_insert_eq. rewrite Hf in Hg. injection Hg as <-.
      rewrite Hl. simpl. eexists. split; [reflexivity|]. split; [exact Hh|reflexivity].
    + rewrite lookup_insert_ne by congruence. rewrite lookup_fmap, Hf. simpl.
      eexists. split; [reflexivity|].
      destruct (cleared_fields (parentNode g) (inputOnce g) f) as (_ & _ & -> & ->). auto.
Qed.

(** X11: a marker that sits on an input with no pending correction
    listener (the marker the blur check sets) survives every later blur and
    edit, whatever is typed: only a submission attempt takes it away. *)
Theorem blur_marker_survives_edits (st : State) (ops : list Op) (sel : string) (f : Field) :
  Forall (λ op, isEdit op = true) ops →
  inputs (form st) !! sel = Some f → hasError f = true → inputOnce f = [] →
  ∃ f', inputs (form (after ops st)) !! sel = Some f' ∧
        hasError f' = true ∧ inputOnce f' = [].
Proof.
  intros Hops. revert st f.
  induction Hops as [|op ops Hop _ IH]; intros st f Hf Hh Hl; [eauto|].
  destruct (edit_keeps_marker op st sel f Hop Hf Hh Hl) as (f1 & Hf1 & Hh1 & Hl1).
  apply (IH (apply op st) f1 Hf1 Hh1 Hl1).
Qed.

Lemma blur_marker_survives_edits_witness :
  ∃ f', inputs (form (after [Input "#nomeInput" (lit "Alice"); Blur "#nomeInput"]
                            (apply (Blur "#nomeInput") (page "" "a@b.c" "" "" ""))))
          !! "#nomeInput" = Some f' ∧
        value f' = lit "Alice" ∧ hasError f' = true.
Proof.
  destruct (blur_marker_survives_edits
              (apply (Blur "#nomeInput") (page "" "a@b.c" "" "" ""))
              [Input "#nomeInput" (lit "Alice"); Blur "#nomeInput"] "#nomeInput"
              (setError true (control "" true)))
    as (f' & Hf' & Hh & _); [repeat constructor|reflexivity..|].
  exists f'. split; [exact Hf'|]. split; [|exact Hh].
  vm_compute in Hf'. injection Hf' as <-. reflexivity.
Defined.

(** X12: when one of the five controls the handler reads is missing while
    the controls that exist pass validation, the handler throws while
    collecting the values: no call is made, and button and feedback are as
    they were. *)
Theorem missing_control_throws (st : State) (collab : FormData → Outcome) :
  (validateForm (form st)).1.1 = true → collect (form st) = None →
  ∃ final, settle collab (onSubmit st) = ([], final, true) ∧
           formSubmit (form final) = formSubmit (form st) ∧
           feedback final = feedback st.
Proof.
  intros Hv Hnone.
  pose proof (validateForm_formSubmit (form st)) as Hb.
  destruct (collect_values (form st) (validateForm (form st)).2
              (validateForm_values (form st))) as [Hcol _].
  unfold onSubmit.
  destruct (validateForm (form st)) as [[valid fi] fm1]. simpl in Hv, Hb, Hcol. subst valid.
  simpl negb. cbv iota. rewrite Hcol, Hnone. simpl.
  eexists. repeat split. exact Hb.
Qed.

Lemma missing_control_throws_witness :
  let st := {| form := {| inputs := <[ "#nomeInput" := control "Al" true ]>
                                      (<[ "#emailInput" := control "a@b.c" true ]> ∅);
                          formSubmit := released; focused := None; nextSpan := 0 |};
               feedback := None |} in
  ∃ final, settle simulateFormSubmission (onSubmit st) = ([], final, true) ∧
           formSubmit (form final) = released.
Proof.
  intros st.
  destruct (missing_control_throws st simulateFormSubmission) as (final & Hrun & Hb & _);
    [vm_compute; reflexivity..|].
  exists final. split; [exact Hrun|exact Hb].
Defined.

(** *** Padding *)

Lemma pad_lookup sel p1 p2 fm s :
  inputs (pad sel p1 p2 fm) !! s =
  (λ f, if bool_decide (s = sel) then setValue (p1 ++ value f ++ p2) f else f)
    <$> inputs fm !! s.
Proof.
  unfold pad. simpl. destruct (decide (s = sel)) as [->|Hne].
  - rewrite lookup_alter_eq, bool_decide_eq_true_2 by reflexivity. reflexivity.
  - rewrite lookup_alter_ne by congruence.
    rewrite bool_decide_eq_false_2 by exact Hne.
    destruct (inputs fm !! s); reflexivity.
Qed.

Lemma pad_rejects sel p1 p2 fm s bad :
  Forall (λ c, isWhiteSpace c = true) p1 → Forall (λ c, isWhiteSpace c = true) p2 →
  rejects s bad (pad sel p1 p2 fm) = rejects s bad fm.
Proof.
  intros H1 H2. unfold rejects. rewrite pad_lookup.
  destruct (inputs fm !! s) as [f|]; simpl; [|reflexivity].
  destruct (bool_decide (s = sel)); [|reflexivity].
  simpl. rewrite (trim_padding p1 (value f) p2 H1 H2). reflexivity.
Qed.

Lemma formEl_eq fm fm' :
  inputs fm = inputs fm' → formSubmit fm = formSubmit fm' → focused fm = focused fm' →
  nextSpan fm = nextSpan fm' → fm = fm'.
Proof. destruct fm, fm'. simpl. intros -> -> -> ->. reflexivity. Qed.

(** Marking and padding do not get in each other's way. *)
Lemma pad_markInvalid sel p1 p2 s msg fm :
  markInvalid s msg (pad sel p1 p2 fm) = pad sel p1 p2 (markInvalid s msg fm).
Proof.
  unfold markInvalid at 1. rewrite pad_lookup.
  destruct (inputs fm !! s) as [field|] eqn:Hs; simpl.
  - unfold markInvalid. rewrite Hs.
    apply formEl_eq; try reflexivity. cbn [inputs setInputs nextSpan pad].
    apply map_eq. intros j.
    assert (Hp : parentNode (if bool_decide (s = sel)
                             then setValue (p1 ++ value field ++ p2) field else field)
                 = parentNode field) by (destruct (bool_decide (s = sel)); reflexivity).
    rewrite Hp.
    destruct (decide (j = s)) as [->|Hjs].
    + rewrite lookup_insert_eq.
      destruct (decide (s = sel)) as [->|Hne].
      * rewrite lookup_alter_eq, lookup_insert_eq.
        rewrite bool_decide_eq_true_2 by reflexivity. reflexivity.
      * rewrite lookup_alter_ne by congruence. rewrite lookup_insert_eq.
        rewrite bool_decide_eq_false_2 by exact Hne. reflexivity.
    + rewrite lookup_insert_ne by congruence. rewrite lookup_fmap.
      change (alter (λ f, setValue (p1 ++ value f ++ p2) f) sel (inputs fm))
        with (inputs (pad sel p1 p2 fm)).
      rewrite pad_lookup.
      destruct (decide (j = sel)) as [->|Hne].
      * rewrite lookup_alter_eq, lookup_insert_ne by congruence. rewrite lookup_fmap.
        rewrite bool_decide_eq_true_2 by reflexivity.
        destruct (inputs fm !! sel) as [g|]; simpl; [|reflexivity].
        unfold shown. simpl. destruct (parentNode g =? parentNode field)%nat; reflexivity.
      * rewrite lookup_alter_ne, lookup_insert_ne by congruence. rewrite lookup_fmap.
        rewrite bool_decide_eq_false_2 by exact Hne.
        destruct (inputs fm !! j); reflexivity.
  - unfold markInvalid. rewrite Hs. reflexivity.
Qed.

Lemma pad_check sel p1 p2 s bad msg valid fi fm :
  Forall (λ c, isWhiteSpace c = true) p1 → Forall (λ c, isWhiteSpace c = true) p2 →
  check s bad msg (valid, fi, pad sel p1 p2 fm) =
  ((check s bad msg (valid, fi, fm)).1, pad sel p1 p2 (check s bad msg (valid, fi, fm)).2).
Proof.
  intros H1 H2. pose proof (pad_rejects sel p1 p2 fm s bad H1 H2) as Hr.
  unfold rejects in Hr. unfold check.
  destruct (inputs (pad sel p1 p2 fm) !! s) as [el'|] eqn:E';
    destruct (inputs fm !! s) as [el|] eqn:E;
    try (rewrite pad_lookup, E in E'; discriminate); [|reflexivity].
  rewrite Hr. destruct (bad (trim (value el))); [|reflexivity].
  simpl. rewrite pad_markInvalid. reflexivity.
Qed.

Lemma pad_unmark sel p1 p2 fm :
  setInputs (unmark <$> inputs (pad sel p1 p2 fm)) (nextSpan (pad sel p1 p2 fm))
            (pad sel p1 p2 fm)
  = pad sel p1 p2 (setInputs (unmark <$> inputs fm) (nextSpan fm) fm).
Proof.
  apply formEl_eq; try reflexivity. cbn [inputs setInputs nextSpan pad].
  apply map_eq. intros j.
  rewrite lookup_fmap. destruct (decide (j = sel)) as [->|Hne].
  - rewrite !lookup_alter_eq, lookup_fmap.
    destruct (inputs fm !! sel) as [g|]; simpl; [|reflexivity].
    unfold unmark. simpl. destruct (formInput g && hasError g); reflexivity.
  - rewrite !lookup_alter_ne by congruence. rewrite lookup_fmap. reflexivity.
Qed.

(** [validateForm] of the padded form is [validateForm] of the form,
    padded. *)
Lemma pad_validateForm sel p1 p2 fm :
  Forall (λ c, isWhiteSpace c = true) p1 → Forall (λ c, isWhiteSpace c = true) p2 →
  validateForm (pad sel p1 p2 fm) = ((validateForm fm).1, pad sel p1 p2 (validateForm fm).2).
Proof.
  intros H1 H2. unfold validateForm. rewrite pad_unmark.
  rewrite (pad_check sel p1 p2 "#nomeInput") by assumption.
  destruct (check "#nomeInput" nomeBad _ _) as [[v1 f1] fm1]. cbn [fst snd].
  rewrite (pad_check sel p1 p2 "#emailInput") by assumption.
  destruct (check "#emailInput" emailBad _ _) as [[v2 f2] fm2]. cbn [fst snd].
  rewrite (pad_check sel p1 p2 "#mensagemInput") by assumption.
  destruct (check "#mensagemInput" mensagemBad _ _) as [[v3 f3] fm3]. reflexivity.
Qed.

(** X14: white space put before and after the value of a control changes
    nothing in what [validateForm] decides and does: same verdict, same
    first rejected element, same markers and messages.  Put around the
    value of one of the four text inputs it changes nothing in what is
    collected either; put around the value of the service select, which is
    read without [trim], it is handed to the collaborator with the value. *)
Theorem padding_is_ignored (sel : string) (p1 p2 : jsstring) (fm : FormEl) :
  Forall (λ c, isWhiteSpace c = true) p1 → Forall (λ c, isWhiteSpace c = true) p2 →
  (validateForm (pad sel p1 p2 fm)).1 = (validateForm fm).1 ∧
  (validateForm (pad sel p1 p2 fm)).2 = pad sel p1 p2 (validateForm fm).2 ∧
  (∀ s, (λ f, (hasError f, fieldErrors f)) <$> inputs (validateForm (pad sel p1 p2 fm)).2 !! s
        = (λ f, (hasError f, fieldErrors f)) <$> inputs (validateForm fm).2 !! s) ∧
  (sel ≠ "#servicoSelect" → collect (pad sel p1 p2 fm) = collect fm) ∧
  (∀ data, collect fm = Some data →
     collect (pad "#servicoSelect" p1 p2 fm)
     = Some {| nome := nome data; email := email data; empresa := empresa data;
               servico := p1 ++ servico data ++ p2; mensagem := mensagem data |}).
Proof.
  intros H1 H2. rewrite (pad_validateForm sel p1 p2 fm H1 H2). cbn [fst snd].
  split; [reflexivity|]. split; [reflexivity|]. split; [|split].
  - intros s. rewrite pad_lookup.
    destruct (inputs (validateForm fm).2 !! s) as [f|]; simpl; [|reflexivity].
    destruct (bool_decide (s = sel)); reflexivity.
  - intros Hsel. unfold collect. rewrite !pad_lookup.
    destruct (inputs fm !! "#nomeInput") as [n|]; simpl; [|reflexivity].
    destruct (inputs fm !! "#emailInput") as [e|]; simpl; [|reflexivity].
    destruct (inputs fm !! "#empresaInput") as [c|]; simpl; [|reflexivity].
    destruct (inputs fm !! "#servicoSelect") as [s|]; simpl; [|reflexivity].
    destruct (inputs fm !! "#mensagemInput") as [m|]; simpl; [|reflexivity].
    rewrite (bool_decide_eq_false_2 ("#servicoSelect" = sel)) by congruence.
    repeat match goal with
           | |- context [bool_decide ?P] => destruct (bool_decide P)
           end; simpl; rewrite ?(trim_padding p1 _ p2 H1 H2); reflexivity.
  - intros data. unfold collect. rewrite !pad_lookup.
    destruct (inputs fm !! "#nomeInput") as [n|]; simpl; [|discriminate].
    destruct (inputs fm !! "#emailInput") as [e|]; simpl; [|discriminate].
    destruct (inputs fm !! "#empresaInput") as [c|]; simpl; [|discriminate].
    destruct (inputs fm !! "#servicoSelect") as [s|]; simpl; [|discriminate].
    destruct (inputs fm !! "#mensagemInput") as [m|]; simpl; [|discriminate].
    intros [= <-]. reflexivity.
Qed.

Lemma padding_is_ignored_witness :
  let fm := form (page "Al" "a@b.c" "" "web" "Bom dia, Projekt") in
  (validateForm (pad "#emailInput" (lit "  ") (lit " ") fm)).1 = (true, None) ∧
  collect (pad "#emailInput" (lit "  ") (lit " ") fm) = collect fm ∧
  servico <$> collect (pad "#servicoSelect" (lit "  ") (lit " ") fm) = Some (lit "  web ").
Proof.
  intros fm.
  destruct (padding_is_ignored "#emailInput" (lit "  ") (lit " ") fm
              ltac:(repeat constructor) ltac:(repeat constructor)) as (Hv & _ & _ & Hc & _).
  destruct (padding_is_ignored "#servicoSelect" (lit "  ") (lit " ") fm
              ltac:(repeat constructor) ltac:(repeat constructor)) as (_ & _ & _ & _ & Hs).
  split; [rewrite Hv; vm_compute; reflexivity|]. split; [apply Hc; discriminate|].
  erewrite Hs by (vm_compute; reflexivity). reflexivity.
Defined.

(** X15: what reaches the collaborator has been validated: the name it is
    given has at least two characters, the e-mail has the two-part shape,
    the message has at least ten characters, and name, e-mail, company and
    message have no white space left at either end. *)
Theorem sent_data_is_valid (st : State) (collab : FormData → Outcome) :
  complete st → (validateForm (form st)).1.1 = true →
  ∃ data atCall,
    (settle collab (onSubmit st)).1.1 = [(data, atCall)] ∧
    (2 ≤ length (nome data))%nat ∧ emailShape (email data) ∧
    (10 ≤ length (mensagem data))%nat ∧
    trim (nome data) = nome data ∧ trim (email data) = email data ∧
    trim (empresa data) = empresa data ∧ trim (mensagem data) = mensagem data.
Proof.
  intros Hc Hv.
  destruct (valid_submission_run st collab Hc Hv) as (data & fb & Hdata & _ & Hrun).
  cbv zeta in Hrun. rewrite Hrun. cbn [fst]. exists data. eexists. split; [reflexivity|].
  destruct (collect_complete st Hc) as (n & e & c & s & m & Hn & He & _ & _ & Hm & Hdata').
  rewrite Hdata in Hdata'. injection Hdata' as ->. cbn [nome email empresa mensagem].
  pose proof (proj1 (validateForm_valid_iff _) Hv) as Hok.
  pose proof (Hok _ _ Hn) as Bn. pose proof (Hok _ _ He) as Be. pose proof (Hok _ _ Hm) as Bm.
  rewrite isBad_nome in Bn. rewrite isBad_email in Be. rewrite isBad_mensagem in Bm.
  unfold nomeBad in Bn. unfold emailBad in Be. unfold mensagemBad in Bm.
  apply Nat.ltb_ge in Bn. apply Nat.ltb_ge in Bm.
  apply negb_false_iff, emailRegex_shape in Be.
  rewrite !trim_idem. auto 10.
Qed.

Lemma sent_data_is_valid_witness :
  ∃ data atCall,
    (settle simulateFormSubmission
            (onSubmit (page "  Al " "a@b.c " " " "web" " Bom dia, Projekt "))).1.1
    = [(data, atCall)] ∧ (2 ≤ length (nome data))%nat ∧ trim (nome data) = nome data.
Proof.
  destruct (sent_data_is_valid (page "  Al " "a@b.c " " " "web" " Bom dia, Projekt ")
              simulateFormSubmission)
    as (data & atCall & Hrun & Hn & _ & _ & Ht & _).
  - unfold complete. repeat split; eexists; reflexivity.
  - vm_compute. reflexivity.
  - exists data, atCall. auto.
Defined.

End FormMoreFacts.

(** ** Initialisers and missing elements *)
Section InitFacts.

(** The guards: without an element they test, the initialisers do nothing. *)
Lemma carousel_guards r dom :
  Carousel.testimonialsTrack dom = None ∨ Carousel.testimonialsTrack dom = Some 0%nat ∨
  Carousel.testimonialPrev dom = false ∨ Carousel.testimonialNext dom = false →
  Carousel.initTestimonialsCarousel r dom = NoOp.
Proof.
  unfold Carousel.initTestimonialsCarousel.
  destruct dom as [[n|] p nx d]; simpl; [|reflexivity].
  intros [H|[H|[H|H]]]; try discriminate.
  - injection H as ->. destruct (negb p || negb nx); reflexivity.
  - subst p. reflexivity.
  - subst nx. rewrite orb_true_r. reflexivity.
Qed.

Lemma form_guard fb : Form.initContactForm {| Form.contatoForm := None; Form.formFeedback := fb |} = NoOp.
Proof. reflexivity. Qed.

Lemma cursor_guards hover dom :
  hover = false ∨ Cursor.cursor dom = None → Cursor.initCursor hover dom = NoOp.
Proof.
  unfold Cursor.initCursor. intros [->|H]; [reflexivity|].
  rewrite H. destruct hover; reflexivity.
Qed.

(** Inside [#cursor] the two markers are not guarded: the first frame writes
    to them. *)
Lemma cursor_without_marker_faults (d r : option Cursor.Style) :
  d = None ∨ r = None →
  Cursor.initCursor true {| Cursor.cursor := Some (d, r) |} = Fault.
Proof. intros [->| ->]; [reflexivity|destruct d; reflexivity]. Qed.

Lemma scrollProgress_guard : ScrollProgress.initScrollProgress false = NoOp.
Proof. reflexivity. Qed.

(** X13: without [#formFeedback] the form still starts, and a submission
    that passes validation throws once the button is locked, before any call
    is made: the button stays disabled. *)
Lemma submit_without_feedback (st : Form.State) (collab : Form.FormData → Form.Outcome) :
  Form.feedback st = None →
  (Form.validateForm (Form.form st)).1.1 = true →
  is_Some (Form.collect (Form.form st)) → is_Some (Form.formSubmit (Form.form st)) →
  ∃ final, Form.settle collab (Form.onSubmit st) = ([], final, true) ∧
           Form.formSubmit (Form.form final) = Form.locked.
Proof.
  intros Hfb Hv [data Hdata] [btn Hbtn].
  pose proof (validateForm_formSubmit (Form.form st)) as Hb.
  destruct (collect_values (Form.form st) (Form.validateForm (Form.form st)).2
              (validateForm_values (Form.form st))) as [Hcol _].
  unfold Form.onSubmit.
  destruct (Form.validateForm (Form.form st)) as [[valid fi] fm1].
  simpl in Hv, Hb, Hcol. subst valid. simpl negb. cbv iota.
  rewrite Hcol, Hdata, Hb, Hbtn, Hfb. simpl. eauto.
Qed.

Lemma submit_without_feedback_witness :
  let st := {| Form.form := Form.form (Form.page "Al" "a@b.c" "" "" "Bom dia, Projekt");
               Form.feedback := None |} in
  ∃ final, Form.settle Form.simulateFormSubmission (Form.onSubmit st) = ([], final, true) ∧
           Form.formSubmit (Form.form final) = Form.locked.
Proof.
  intros st. apply (submit_without_feedback st Form.simulateFormSubmission).
  - reflexivity.
  - vm_compute. reflexivity.
  - eexists. vm_compute. reflexivity.
  - eexists. reflexivity.
Defined.

(** C6, the failing configuration: track, both buttons and at least one card
    are there and [#testimonialDots] is not; initialising the carousel
    throws. *)
Theorem carousel_without_dots_faults (reduced : bool) (n : nat) :
  Carousel.initTestimonialsCarousel reduced
    {| Carousel.testimonialsTrack := Some (S n); Carousel.testimonialPrev := true;
       Carousel.testimonialNext := true; Carousel.testimonialDots := false |}
  = Fault.
Proof. reflexivity. Qed.

End InitFacts.

(** ** Counters: the eased count-up, in exact arithmetic *)
Section CounterFacts.
Import Counter.
Local Open Scope Q_scope.

Lemma clamp_bounds v lo hi : lo <= hi -> lo <= clamp v lo hi /\ clamp v lo hi <= hi.
Proof.
  intros H. unfold clamp. split.
  - apply Q.min_glb; [apply Q.le_max_r|exact H].
  - apply Q.le_min_r.
Qed.

Lemma clamp_mono v1 v2 lo hi : v1 <= v2 -> clamp v1 lo hi <= clamp v2 lo hi.
Proof.
  intros H. unfold clamp.
  apply Q.min_le_compat_r, Q.max_le_compat_r, H.
Qed.

Lemma clamp_inside v lo hi : lo <= v -> v <= hi -> clamp v lo hi == v.
Proof.
  intros H1 H2. unfold clamp.
  rewrite (Q.max_l v lo) by exact H1. apply Q.min_l, H2.
Qed.

Lemma clamp_above v lo hi : lo <= hi -> hi <= v -> clamp v lo hi == hi.
Proof.
  intros H1 H2. unfold clamp. apply Q.min_r.
  apply Qle_trans with v; [exact H2|apply Q.le_max_l].
Qed.

Lemma cube x : x ^ 3 == x * x * x.
Proof. simpl. ring. Qed.

Lemma cube_mono a b : 0 <= a -> a <= b -> a * a * a <= b * b * b.
Proof.
  intros H0 H.
  assert (Hsq : 0 <= a * a /\ a * a <= b * b).
  { split; [apply Qmult_le_0_compat; exact H0|].
    apply Qmult_le_compat_nonneg; split; assumption. }
  apply Qmult_le_compat_nonneg; [exact Hsq|split; assumption].
Qed.

Lemma easeOutCubic_mono t1 t2 :
  0 <= t1 -> t1 <= t2 -> t2 <= 1 -> easeOutCubic t1 <= easeOutCubic t2.
Proof.
  intros H0 H12 H1. unfold easeOutCubic. rewrite !cube.
  assert (Ha : 0 <= 1 - t2) by lra.
  assert (Hb : 1 - t2 <= 1 - t1) by lra.
  pose proof (cube_mono _ _ Ha Hb) as Hcu.
  lra.
Qed.

Lemma easeOutCubic_one t : t == 1 -> easeOutCubic t == 1.
Proof. intros H. unfold easeOutCubic. rewrite cube, H. ring. Qed.

Lemma round_mono x y : x <= y -> (round x <= round y)%Z.
Proof. intros H. unfold round. apply Qfloor_resp_le. lra. Qed.

Lemma round_eq x y : x == y -> round x = round y.
Proof. intros H. unfold round. apply Qfloor_comp. rewrite H. reflexivity. Qed.

Lemma round_integer z : round (inject_Z z) = z.
Proof.
  unfold round, Qfloor, Qplus, inject_Z. simpl.
  symmetry. apply (Z.div_unique _ _ _ 1); lia.
Qed.

Lemma progressAt_bounds start duration now :
  0 <= progressAt start duration now /\ progressAt start duration now <= 1.
Proof. apply clamp_bounds. lra. Qed.

(** The number a frame leaves on display, whichever branch wrote it. *)
Lemma displayed_eased target start duration now :
  displayed target start duration now =
  round (inject_Z target * easeOutCubic (progressAt start duration now)).
Proof.
  unfold displayed, update. fold (progressAt start duration now).
  destruct (Qlt_le_dec (progressAt start duration now) 1) as [Hlt|Hge]; simpl.
  - apply round_eq. ring.
  - rewrite <- (round_integer target) at 1. apply round_eq.
    rewrite easeOutCubic_one; [ring|].
    apply Qle_antisym; [apply progressAt_bounds|exact Hge].
Qed.

End CounterFacts.

(** ** Scroll reveal: one-shot *)
Section RevealFacts.
Import Reveal.

Lemma onEntry_grows st entry el : el ∈ revealed st → el ∈ revealed (onEntry st entry).
Proof.
  unfold onEntry. destruct (isIntersecting entry); simpl; [|tauto].
  intros Hin. apply elem_of_union. right. exact Hin.
Qed.

Lemma onIntersect_grows entries : ∀ st el,
  el ∈ revealed st → el ∈ revealed (onIntersect entries st).
Proof.
  unfold onIntersect. induction entries as [|e es IH]; intros st el H; simpl; [exact H|].
  apply IH, onEntry_grows, H.
Qed.

Lemma onEntry_unobserves st entry el :
  (el ∈ revealed (onEntry st entry) → el ∈ revealed st ∨ unobserved el (onEntry st entry)) ∧
  (unobserved el st → unobserved el (onEntry st entry)).
Proof.
  unfold onEntry, unobserved. destruct (isIntersecting entry); simpl; [|tauto].
  split.
  - intros Hin. apply elem_of_union in Hin as [Hin|Hin]; [|left; exact Hin].
    right. intros targets Ho. destruct (observer st) as [ts|]; [|discriminate].
    injection Ho as <-. apply not_elem_of_difference. right. exact Hin.
  - intros Hu targets Ho. destruct (observer st) as [ts|]; [|discriminate].
    injection Ho as <-. apply not_elem_of_difference. left. apply (Hu ts eq_refl).
Qed.

Lemma onIntersect_unobserves entries : ∀ st el,
  (el ∈ revealed (onIntersect entries st) →
   el ∈ revealed st ∨ unobserved el (onIntersect entries st)) ∧
  (unobserved el st → unobserved el (onIntersect entries st)).
Proof.
  unfold onIntersect. induction entries as [|e es IH]; intros st el; simpl; [tauto|].
  destruct (IH (onEntry st e) el) as [IH1 IH2].
  destruct (onEntry_unobserves st e el) as [H1 H2].
  split; [|tauto].
  intros H. destruct (IH1 H) as [Hr|Hu]; [|right; exact Hu].
  destruct (H1 Hr) as [Hr'|Hu]; [left; exact Hr'|right; apply IH2, Hu].
Qed.

Lemma history_head callbacks st : history callbacks st = st :: tail (history callbacks st).
Proof. destruct callbacks; reflexivity. Qed.

Lemma isRevealed_true el st : isRevealed el st = true ↔ el ∈ revealed st.
Proof. unfold isRevealed. apply bool_decide_eq_true. Qed.

(** Along any history the flag of an element never falls, and once it is up
    it does not rise again. *)
Lemma history_flags callbacks : ∀ st el,
  falls (isRevealed el <$> history callbacks st) = 0%nat ∧
  (rises (isRevealed el <$> history callbacks st)
   ≤ if isRevealed el st then 0 else 1)%nat.
Proof.
  induction callbacks as [|entries rest IH]; intros st el.
  - simpl. split; [reflexivity|]. destruct (isRevealed el st); lia.
  - destruct (IH (onIntersect entries st) el) as [IHf IHr].
    change (history (entries :: rest) st)
      with (st :: history rest (onIntersect entries st)).
    rewrite (history_head rest (onIntersect entries st)) in *.
    rewrite !fmap_cons in *.
    set (a := isRevealed el st).
    set (b := isRevealed el (onIntersect entries st)) in *.
    set (l := isRevealed el <$> tail (history rest (onIntersect entries st))) in *.
    change (falls (a :: b :: l))
      with ((if a && negb b then 1 else 0) + falls (b :: l))%nat.
    change (rises (a :: b :: l))
      with ((if negb a && b then 1 else 0) + rises (b :: l))%nat.
    assert (Hab : a = true → b = true).
    { unfold a, b. rewrite !isRevealed_true. apply onIntersect_grows. }
    destruct a, b; simpl in *; first [lia | specialize (Hab eq_refl); discriminate].
Qed.

Lemma flagged_revealed flagged : ∀ (marked : gset nat) el,
  el ∈ foldl (λ s x, {[ x ]} ∪ s) marked flagged ↔ el ∈ marked ∨ el ∈ flagged.
Proof.
  induction flagged as [|x xs IH]; intros marked el; simpl.
  - rewrite elem_of_nil. tauto.
  - rewrite IH, elem_of_cons, elem_of_union, elem_of_singleton. tauto.
Qed.

(** C8: whatever intersection callbacks arrive, the revealed flag of an
    element never goes from true to false and goes from false to true at
    most once; the callback that reveals an element also stops observing it;
    and under reduced motion every flagged element is revealed at init and
    no observer exists. *)
Theorem reveal_one_shot (callbacks : list (list Entry)) (st : State) (el : nat) :
  falls (isRevealed el <$> history callbacks st) = 0%nat ∧
  (rises (isRevealed el <$> history callbacks st) ≤ 1)%nat ∧
  (∀ entries, isRevealed el st = false →
     isRevealed el (onIntersect entries st) = true →
     unobserved el (onIntersect entries st)) ∧
  (∀ flagged marked, el ∈ flagged →
     isRevealed el (initScrollAnimations true flagged marked) = true ∧
     observer (initScrollAnimations true flagged marked) = None).
Proof.
  destruct (history_flags callbacks st el) as [Hf Hr].
  split; [exact Hf|]. split; [destruct (isRevealed el st); lia|]. split.
  - intros entries H0 H1. apply isRevealed_true in H1.
    destruct (onIntersect_unobserves entries st el) as [Hu _].
    destruct (Hu H1) as [Hin|Hun]; [|exact Hun].
    apply isRevealed_true in Hin. congruence.
  - intros flagged marked Hin. split; [|reflexivity].
    apply isRevealed_true. simpl. apply flagged_revealed. right. exact Hin.
Qed.

Lemma reveal_one_shot_witness :
  let st := initScrollAnimations false [1; 2; 3]%nat ∅ in
  let entries := [{| target := 2; isIntersecting := true |};
                  {| target := 3; isIntersecting := false |}] in
  isRevealed 2 (onIntersect entries st) = true ∧
  unobserved 2 (onIntersect entries st).
Proof.
  intros st entries. split; [reflexivity|].
  apply (proj1 (proj2 (proj2 (reveal_one_shot [] st 2%nat))) entries); reflexivity.
Defined.

End RevealFacts.

(** ** Pointer follower: the trail closes in and never arrives *)
Section CursorFacts.
Import Cursor.
Local Open Scope Q_scope.

Lemma frame_gap st :
  mouseX st - ringX (updateCursor st) == REST * (mouseX st - ringX st) /\
  mouseY st - ringY (updateCursor st) == REST * (mouseY st - ringY st).
Proof.
  unfold updateCursor. cbn [ringX ringY mouseX mouseY].
  unfold REST, LERP_FACTOR. split; ring.
Qed.

Lemma frames_mouse k : forall st,
  mouseX (frames k st) = mouseX st /\ mouseY (frames k st) = mouseY st.
Proof.
  induction k as [|k IH]; intros st; simpl; [split; reflexivity|].
  destruct (IH (updateCursor st)) as [-> ->]. split; reflexivity.
Qed.

Lemma REST_pow_S k : REST ^ Z.of_nat (S k) == REST * REST ^ Z.of_nat k.
Proof.
  rewrite Nat2Z.inj_succ. unfold Z.succ.
  rewrite Qpower_plus by (unfold REST; discriminate).
  simpl (REST ^ 1). ring.
Qed.

Lemma REST_pow_pos k : 0 < REST ^ Z.of_nat k.
Proof. apply Qpower_0_lt. reflexivity. Qed.

Lemma frames_gap k : forall st,
  mouseX st - ringX (frames k st) == REST ^ Z.of_nat k * (mouseX st - ringX st) /\
  mouseY st - ringY (frames k st) == REST ^ Z.of_nat k * (mouseY st - ringY st).
Proof.
  induction k as [|k IH]; intros st.
  - simpl. split; ring.
  - change (frames (S k) st) with (frames k (updateCursor st)).
    destruct (IH (updateCursor st)) as [IHx IHy].
    destruct (frame_gap st) as [Gx Gy].
    change (mouseX (updateCursor st)) with (mouseX st) in IHx.
    change (mouseY (updateCursor st)) with (mouseY st) in IHy.
    rewrite IHx, IHy, Gx, Gy, REST_pow_S. split; ring.
Qed.

(** Bernoulli's bound, turned around: the powers of [REST] go under any
    positive bound. *)
Lemma REST_pow_bound k : REST ^ Z.of_nat k * (1 + inject_Z (Z.of_nat k) * (3 # 22)) <= 1.
Proof.
  induction k as [|k IH].
  - vm_compute. discriminate.
  - rewrite REST_pow_S, Nat2Z.inj_succ. unfold Z.succ. rewrite inject_Z_plus.
    pose proof (REST_pow_pos k) as Hp.
    assert (Hk : 0 <= inject_Z (Z.of_nat k)).
    { change 0 with (inject_Z 0). rewrite <- Zle_Qle. lia. }
    set (p := REST ^ Z.of_nat k) in *. set (n := inject_Z (Z.of_nat k)) in *.
    assert (E : REST * p * (1 + (n + inject_Z 1) * (3 # 22))
                == p * (1 + n * (3 # 22)) - p * n * (9 # 550)).
    { unfold REST. change (inject_Z 1) with 1. ring. }
    rewrite E.
    assert (0 <= p * n * (9 # 550)).
    { apply Qmult_le_0_compat; [apply Qmult_le_0_compat; lra|lra]. }
    lra.
Qed.

Lemma archimedes (q : Q) : exists n : nat, q < inject_Z (Z.of_nat n).
Proof.
  exists (Z.to_nat (Z.max 0 (Qfloor q + 1))).
  rewrite Z2Nat.id by lia.
  apply Qlt_le_trans with (inject_Z (Qfloor q + 1)); [apply Qlt_floor|].
  rewrite <- Zle_Qle. lia.
Qed.

Lemma REST_pow_small gap eps :
  0 < eps -> exists K : nat, forall k, (K <= k)%nat -> Qabs (REST ^ Z.of_nat k * gap) < eps.
Proof.
  intros He.
  destruct (archimedes (Qabs gap / ((3 # 22) * eps))) as [K HK].
  exists K. intros k Hk.
  pose proof (REST_pow_pos k) as Hp. pose proof (REST_pow_bound k) as Hb.
  rewrite Qabs_Qmult, (Qabs_pos (REST ^ Z.of_nat k)) by lra.
  assert (Hkq : inject_Z (Z.of_nat K) <= inject_Z (Z.of_nat k)).
  { rewrite <- Zle_Qle. lia. }
  assert (Hg : Qabs gap < inject_Z (Z.of_nat K) * ((3 # 22) * eps)).
  { assert (Hc : 0 < (3 # 22) * eps) by (apply Qmult_lt_0_compat; [reflexivity|exact He]).
    assert (E : Qabs gap == Qabs gap / ((3 # 22) * eps) * ((3 # 22) * eps)) by (field; lra).
    rewrite E. apply Qmult_lt_compat_r; assumption. }
  pose proof (Qabs_nonneg gap) as Hn.
  set (p := REST ^ Z.of_nat k) in *. set (a := Qabs gap) in *.
  set (n := inject_Z (Z.of_nat k)) in *. set (m := inject_Z (Z.of_nat K)) in *.
  assert (Hm : m * ((3 # 22) * eps) <= n * ((3 # 22) * eps)).
  { apply Qmult_le_compat_r; [exact Hkq|]. lra. }
  assert (H1 : p * a <= p * (n * ((3 # 22) * eps))).
  { apply Qmult_le_l; [exact Hp|]. lra. }
  assert (H2 : p * (1 + n * (3 # 22)) * eps <= 1 * eps).
  { apply Qmult_le_compat_r; [exact Hb|]. lra. }
  assert (H3 : 0 < p * eps) by (apply Qmult_lt_0_compat; assumption).
  lra.
Qed.

Lemma frames_last k : forall st, frames (S k) st = updateCursor (frames k st).
Proof.
  induction k as [|k IH]; intros st; [reflexivity|].
  change (frames (S (S k)) st) with (frames (S k) (updateCursor st)).
  rewrite IH. reflexivity.
Qed.

(** C9: a frame puts the lead marker on the pointer and moves the trail
    marker by 0.12 of what separates it from the pointer, on each axis, so
    that 0.88 of the distance is left, and writes the new position into the
    style of the trail marker; with the pointer at rest the distance after
    [k] frames is [0.88^k] times the initial one, and after every frame the
    two markers show the positions just computed: the distance gets under
    every positive bound, and a trail that starts away from the pointer is
    still away from it after any number of frames. *)
Theorem trail_converges (st : State) :
  (ringX (updateCursor st) - ringX st == LERP_FACTOR * (mouseX st - ringX st) /\
   ringY (updateCursor st) - ringY st == LERP_FACTOR * (mouseY st - ringY st)) /\
  (mouseX st - ringX (updateCursor st) == REST * (mouseX st - ringX st) /\
   mouseY st - ringY (updateCursor st) == REST * (mouseY st - ringY st)) /\
  dot (updateCursor st) = {| left := mouseX st; top := mouseY st |} /\
  ring (updateCursor st) =
    {| left := ringX st + (mouseX st - ringX st) * LERP_FACTOR;
       top := ringY st + (mouseY st - ringY st) * LERP_FACTOR |} /\
  (mouseX st - left (ring (updateCursor st)) == REST * (mouseX st - ringX st) /\
   mouseY st - top (ring (updateCursor st)) == REST * (mouseY st - ringY st)) /\
  (forall k : nat,
     mouseX (frames k st) = mouseX st /\ mouseY (frames k st) = mouseY st /\
     mouseX st - ringX (frames k st) == REST ^ Z.of_nat k * (mouseX st - ringX st) /\
     mouseY st - ringY (frames k st) == REST ^ Z.of_nat k * (mouseY st - ringY st)) /\
  (forall k : nat,
     dot (frames (S k) st) = {| left := mouseX st; top := mouseY st |} /\
     left (ring (frames (S k) st)) = ringX (frames (S k) st) /\
     top (ring (frames (S k) st)) = ringY (frames (S k) st) /\
     mouseX st - left (ring (frames (S k) st))
       == REST ^ Z.of_nat (S k) * (mouseX st - ringX st) /\
     mouseY st - top (ring (frames (S k) st))
       == REST ^ Z.of_nat (S k) * (mouseY st - ringY st)) /\
  (forall k : nat,
     ~ (ringX st == mouseX st /\ ringY st == mouseY st) ->
     ~ (ringX (frames k st) == mouseX (frames k st) /\
        ringY (frames k st) == mouseY (frames k st)) /\
     ~ (left (ring (frames (S k) st)) == mouseX st /\
        top (ring (frames (S k) st)) == mouseY st)) /\
  (forall eps, 0 < eps ->
     exists K : nat, forall k, (K <= k)%nat ->
       Qabs (mouseX st - ringX (frames k st)) < eps /\
       Qabs (mouseY st - ringY (frames k st)) < eps /\
       Qabs (mouseX st - left (ring (frames (S k) st))) < eps /\
       Qabs (mouseY st - top (ring (frames (S k) st))) < eps).
Proof.
  assert (Hstyle : forall k,
            dot (frames (S k) st) = {| left := mouseX st; top := mouseY st |} /\
            left (ring (frames (S k) st)) = ringX (frames (S k) st) /\
            top (ring (frames (S k) st)) = ringY (frames (S k) st)).
  { intros k. rewrite frames_last. destruct (frames_mouse k st) as [Hx Hy].
    unfold updateCursor. cbn [dot ring ringX ringY left top]. rewrite Hx, Hy.
    repeat split; reflexivity. }
  assert (Hnever : forall k,
            ~ (ringX st == mouseX st /\ ringY st == mouseY st) ->
            ~ (ringX (frames k st) == mouseX st /\ ringY (frames k st) == mouseY st)).
  { intros k Hne [Ex Ey]. destruct (frames_gap k st) as [Gx Gy].
    pose proof (REST_pow_pos k) as Hp.
    apply Hne. split.
    + assert (E0 : REST ^ Z.of_nat k * (mouseX st - ringX st) == 0) by (rewrite <- Gx, Ex; ring).
      apply Qmult_integral in E0 as [E0|E0]; lra.
    + assert (E0 : REST ^ Z.of_nat k * (mouseY st - ringY st) == 0) by (rewrite <- Gy, Ey; ring).
      apply Qmult_integral in E0 as [E0|E0]; lra. }
  split; [|split; [apply frame_gap|split; [reflexivity|split; [reflexivity|split;
    [apply frame_gap|split; [|split; [|split]]]]]]].
  - unfold updateCursor. cbn [ringX ringY mouseX mouseY]. split; ring.
  - intros k. destruct (frames_mouse k st) as [Hx Hy]. destruct (frames_gap k st) as [Gx Gy].
    auto.
  - intros k. destruct (Hstyle k) as (Hd & Hl & Ht). destruct (frames_gap (S k) st) as [Gx Gy].
    rewrite Hl, Ht. auto.
  - intros k Hne. destruct (frames_mouse k st) as [Hx Hy]. destruct (Hstyle k) as (_ & Hl & Ht).
    rewrite Hx, Hy, Hl, Ht. split; apply Hnever, Hne.
  - intros eps He.
    destruct (REST_pow_small (mouseX st - ringX st) eps He) as [Kx HKx].
    destruct (REST_pow_small (mouseY st - ringY st) eps He) as [Ky HKy].
    exists (Nat.max Kx Ky). intros k Hk. destruct (frames_gap k st) as [Gx Gy].
    destruct (frames_gap (S k) st) as [Gx' Gy']. destruct (Hstyle k) as (_ & Hl & Ht).
    rewrite Hl, Ht, Gx, Gy, Gx', Gy'.
    repeat split; [apply HKx|apply HKy|apply HKx|apply HKy]; lia.
Qed.

Lemma trail_converges_witness :
  let st := {| mouseX := 100; mouseY := 50; ringX := 0; ringY := 0;
               dot := {| left := 0; top := 0 |}; ring := {| left := 0; top := 0 |} |} in
  left (ring (updateCursor st)) == 12 /\ top (ring (updateCursor st)) == 6 /\
  ~ (left (ring (frames 3 st)) == mouseX st /\ top (ring (frames 3 st)) == mouseY st).
Proof.
  intros st. split; [reflexivity|]. split; [reflexivity|].
  apply (proj1 (proj2 (proj2 (proj2 (proj2 (proj2 (proj2 (proj2 (trail_converges st))))))))
           2%nat).
  intros [Hx _]. vm_compute in Hx. discriminate Hx.
Defined.

End CursorFacts.

(** ** Scroll progress bar *)
Section ScrollFacts.
Import ScrollProgress.
Local Open Scope Q_scope.

(** C10: the frame callback writes [clamp(progress, 0, 100)], a width between
    0 and 100 percent, whatever the three measures are; when nothing can be
    scrolled ([scrollHeight - innerHeight] is not positive) the progress is
    0 and nothing is divided, otherwise it is the scrolled share in percent. *)
Theorem progress_bar_width (w : Window) (st : State) :
  width (onFrame w st) = Some (clamp (progress w) 0 100) /\
  (0 <= clamp (progress w) 0 100 /\ clamp (progress w) 0 100 <= 100) /\
  (scrollHeight w - innerHeight w <= 0 ->
     progress w = 0 /\ clamp (progress w) 0 100 == 0) /\
  (0 < scrollHeight w - innerHeight w ->
     progress w = scrollY w / (scrollHeight w - innerHeight w) * 100).
Proof.
  split; [reflexivity|]. split; [apply clamp_bounds; discriminate|].
  unfold progress.
  destruct (Qlt_le_dec 0 (scrollHeight w - innerHeight w)) as [Hpos|Hle]; split.
  - intros H. exfalso. apply (Qlt_irrefl 0), (Qlt_le_trans _ _ _ Hpos H).
  - reflexivity.
  - intros _. split; [reflexivity|]. apply clamp_inside; discriminate.
  - intros H. exfalso. apply (Qlt_irrefl 0), (Qlt_le_trans _ _ _ H Hle).
Qed.

Lemma progress_bar_width_witness :
  let w := {| scrollHeight := 600; innerHeight := 800; scrollY := 0 |} in
  progress w = 0 /\ clamp (progress w) 0 100 == 0.
Proof.
  intros w.
  apply (proj1 (proj2 (proj2 (progress_bar_width w {| ticking := true; width := None |})))).
  vm_compute. discriminate.
Defined.

End ScrollFacts.

(** ** Utilities: clamp *)
Section ClampFacts.
Local Open Scope Q_scope.

(** X22: with [min <= max], [clamp] returns a value within the bounds,
    returns its argument unchanged exactly when it is within them, and never
    decreases when its argument grows; with the bounds the wrong way round
    it returns [max] whatever the argument. *)
Theorem clamp_properties (val lo hi : Q) :
  (lo <= hi -> lo <= clamp val lo hi /\ clamp val lo hi <= hi) /\
  (lo <= hi -> (clamp val lo hi == val <-> lo <= val /\ val <= hi)) /\
  (forall val', val <= val' -> clamp val lo hi <= clamp val' lo hi) /\
  (hi < lo -> clamp val lo hi == hi).
Proof.
  split; [apply clamp_bounds|]. split; [|split; [intros v'; apply clamp_mono|]].
  - intros Hle. split.
    + intros E. destruct (clamp_bounds val lo hi Hle) as [H1 H2].
      rewrite E in H1, H2. split; assumption.
    + intros [H1 H2]. apply clamp_inside; assumption.
  - intros Hlt. unfold clamp. apply Q.min_r.
    apply Qle_trans with lo; [apply Qlt_le_weak, Hlt|apply Q.le_max_r].
Qed.

Lemma clamp_properties_witness :
  clamp 150 0 100 <= 100 /\ clamp 7 10 3 == 3.
Proof.
  destruct (clamp_properties 150 0 100) as (Hb & _).
  destruct (clamp_properties 7 10 3) as (_ & _ & _ & Hw).
  split; [apply Hb; discriminate|apply Hw; reflexivity].
Defined.

End ClampFacts.

(** ** Counters: bounds and the trigger *)
Section CountersFacts.
Import Counter.
Local Open Scope Q_scope.

Lemma easeOutCubic_range t : 0 <= t -> t <= 1 -> 0 <= easeOutCubic t /\ easeOutCubic t <= 1.
Proof.
  intros H0 H1.
  assert (E0 : easeOutCubic 0 == 0) by (unfold easeOutCubic; rewrite cube; ring).
  assert (E1 : easeOutCubic 1 == 1) by (apply easeOutCubic_one; reflexivity).
  split.
  - rewrite <- E0. apply easeOutCubic_mono; lra.
  - rewrite <- E1. apply easeOutCubic_mono; lra.
Qed.

(** X16: while a counter with a non-negative target is animated, the number
    on display is never below 0 and never above the target, and it is 0 on
    every frame that is not later than the start. *)
Theorem counter_stays_in_range (target : Z) (start duration now : Q) :
  (0 <= target)%Z -> 0 < duration ->
  (0 <= displayed target start duration now <= target)%Z /\
  (now <= start -> displayed target start duration now = 0%Z).
Proof.
  intros Ht Hd. rewrite displayed_eased.
  destruct (progressAt_bounds start duration now) as [P0 P1].
  destruct (easeOutCubic_range _ P0 P1) as [E0 E1].
  assert (Hq : 0 <= inject_Z target).
  { change 0 with (inject_Z 0). rewrite <- Zle_Qle. exact Ht. }
  split; [split|].
  - rewrite <- (round_integer 0). apply round_mono.
    change (inject_Z 0) with 0. apply Qmult_le_0_compat; assumption.
  - rewrite <- (round_integer target) at 2. apply round_mono.
    rewrite <- (Qmult_1_r (inject_Z target)) at 2.
    apply Qmult_le_compat_nonneg; split; try assumption; lra.
  - intros Hnow. rewrite <- (round_integer 0). apply round_eq.
    assert (Ep : progressAt start duration now == 0).
    { apply Qle_antisym; [|exact P0]. unfold progressAt, clamp.
      apply Qle_trans with (Qmax ((now - start) / duration) 0); [apply Q.le_min_l|].
      apply Q.max_lub; [|lra].
      apply Qle_shift_div_r; [exact Hd|]. lra. }
    unfold easeOutCubic. rewrite cube, Ep. change (inject_Z 0) with 0. ring.
Qed.

Lemma counter_stays_in_range_witness :
  (0 <= displayed 250 1000 2000 1700 <= 250)%Z /\ displayed 250 1000 2000 990 = 0%Z.
Proof.
  destruct (counter_stays_in_range 250 1000 2000 1700) as [Hr _]; [lia|reflexivity|].
  destruct (counter_stays_in_range 250 1000 2000 990) as [_ H0]; [lia|reflexivity|].
  split; [exact Hr|apply H0; discriminate].
Defined.

End CountersFacts.

(** ** Counters: the one-shot trigger *)
Section TriggerFacts.
Import Counters.

Lemma onIntersect_entries entries : ∀ st,
  let st' := foldl (λ s (isIntersecting : bool),
                      if isIntersecting then
                        {| targets := targets s; observing := false;
                           scheduled := scheduled s ++ stagger (targets s) |}
                      else s) st entries in
  targets st' = targets st ∧
  scheduled st' = scheduled st
                  ++ concat (replicate (length (filter (λ b, b = true) entries))
                                       (stagger (targets st))) ∧
  observing st' = observing st && bool_decide (filter (λ b, b = true) entries = []).
Proof.
  induction entries as [|b entries IH]; intros st; cbn [foldl].
  - simpl. rewrite app_nil_r, andb_true_r. auto.
  - destruct (IH (if b then {| targets := targets st; observing := false;
                               scheduled := scheduled st ++ stagger (targets st) |}
                  else st)) as (Ht & Hs & Ho).
    cbv zeta. destruct b.
    + rewrite filter_cons_True by reflexivity.
      rewrite Ht, Hs, Ho. cbn [targets scheduled observing length replicate concat].
      rewrite <- app_assoc, andb_false_r. auto.
    + rewrite filter_cons_False by discriminate. auto.
Qed.

(** X17: the counters are started by the first delivery that contains an
    intersecting entry and by nothing after it, since that delivery
    disconnects the observer: counter [i] is scheduled with its target after
    [150 * i] milliseconds, once for each intersecting entry of that
    delivery; without a [.stat-card] nothing is ever scheduled. *)
Theorem counters_trigger (st : State) (entries : list bool) (later : list (list bool)) :
  let hits := length (filter (λ b, b = true) entries) in
  (observing st = true →
     scheduled (onIntersect entries st)
       = scheduled st ++ concat (replicate hits (stagger (targets st))) ∧
     observing (onIntersect entries st) = bool_decide (hits = 0%nat)) ∧
  (observing st = false → deliver later st = st) ∧
  (∀ i target, targets st !! i = Some target →
     stagger (targets st) !! i = Some (i, target, Z.of_nat i * 150)) ∧
  (∀ reduced dom st0, initCounters reduced dom = Ran st0 → statCard dom = false →
     scheduled (deliver later st0) = []).
Proof.
  intros hits.
  assert (Hoff : ∀ cbs s, observing s = false → deliver cbs s = s).
  { induction cbs as [|es cbs IH]; intros s Hs; [reflexivity|].
    unfold deliver in *. simpl. unfold onIntersect at 2. rewrite Hs. apply IH, Hs. }
  split; [|split; [apply Hoff|split]].
  - intros Hobs. unfold onIntersect. rewrite Hobs.
    destruct (onIntersect_entries entries st) as (_ & Hs & Ho).
    cbv zeta in Hs, Ho. rewrite Hs, Ho, Hobs. split; [reflexivity|].
    simpl. unfold hits.
    destruct (filter (λ b : bool, b = true) entries); reflexivity.
  - intros i target Hi. unfold stagger. rewrite list_lookup_imap, Hi. reflexivity.
  - intros reduced dom st0. unfold initCounters.
    destruct reduced; [discriminate|].
    destruct (length (counters dom) =? 0)%nat; [discriminate|].
    intros [= <-] Hcard. rewrite Hoff; [reflexivity|exact Hcard].
Qed.

Lemma counters_trigger_witness :
  let st0 := {| targets := [120; 15; 98]; observing := true; scheduled := [] |} in
  scheduled (onIntersect [false; true] st0)
    = [(0%nat, 120, 0); (1%nat, 15, 150); (2%nat, 98, 300)] ∧
  deliver [[true]; [true]] (onIntersect [false; true] st0) = onIntersect [false; true] st0.
Proof.
  intros st0. split.
  - rewrite (proj1 (proj1 (counters_trigger st0 [false; true] []) eq_refl)). reflexivity.
  - apply (proj1 (proj2 (counters_trigger (onIntersect [false; true] st0) []
                           [[true]; [true]]))).
    reflexivity.
Defined.

End TriggerFacts.

(** ** Scroll reveal: nothing is lost, nothing is revealed unseen *)
Section RevealMoreFacts.
Import Reveal.

Lemma flagged_set flagged : ∀ (s : gset nat) el,
  el ∈ foldl (λ s x, {[ x ]} ∪ s) s flagged ↔ el ∈ s ∨ el ∈ flagged.
Proof. apply flagged_revealed. Qed.

Lemma onEntry_accounts (flagged : list nat) (seen : list nat) (marked : gset nat) st entry :
  (∃ ts, observer st = Some ts ∧
         (∀ el, el ∈ flagged → el ∈ revealed st ∨ el ∈ ts) ∧
         (∀ el, el ∈ ts → el ∈ flagged) ∧
         (∀ el, el ∈ revealed st → el ∈ marked ∨ el ∈ seen)) →
  ∃ ts, observer (onEntry st entry) = Some ts ∧
        (∀ el, el ∈ flagged → el ∈ revealed (onEntry st entry) ∨ el ∈ ts) ∧
        (∀ el, el ∈ ts → el ∈ flagged) ∧
        (∀ el, el ∈ revealed (onEntry st entry) →
               el ∈ marked ∨ el ∈ seen ++ (if isIntersecting entry then [target entry] else [])).
Proof.
  intros (ts & Ho & Hcover & Hsub & Hseen). unfold onEntry.
  destruct (isIntersecting entry); simpl.
  - rewrite Ho. simpl. eexists. split; [reflexivity|]. split; [|split].
    + intros el Hel. destruct (decide (el = target entry)) as [->|Hne].
      * left. apply elem_of_union. left. apply elem_of_singleton. reflexivity.
      * destruct (Hcover el Hel) as [Hr|Ht].
        -- left. apply elem_of_union. right. exact Hr.
        -- right. apply elem_of_difference. split; [exact Ht|].
           rewrite elem_of_singleton. exact Hne.
    + intros el Hel. apply elem_of_difference in Hel as [Hel _]. apply Hsub, Hel.
    + intros el Hel. apply elem_of_union in Hel as [Hel|Hel].
      * apply elem_of_singleton in Hel as ->. right. apply elem_of_app. right.
        apply list_elem_of_singleton. reflexivity.
      * destruct (Hseen el Hel) as [Hm|Hs]; [left; exact Hm|].
        right. apply elem_of_app. left. exact Hs.
  - exists ts. rewrite app_nil_r. auto.
Qed.

(** X18: when reduced motion is not preferred, after any callbacks every
    flagged element is either revealed or still observed, only flagged
    elements are observed, and an element is revealed only if the markup
    had it revealed or an intersecting entry named it. *)
Theorem reveal_accounts_for_all (flagged : list nat) (marked : gset nat)
    (callbacks : list (list Entry)) :
  ∃ ts, observer (deliver callbacks (initScrollAnimations false flagged marked)) = Some ts ∧
        (∀ el, el ∈ flagged →
           el ∈ revealed (deliver callbacks (initScrollAnimations false flagged marked))
           ∨ el ∈ ts) ∧
        (∀ el, el ∈ ts → el ∈ flagged) ∧
        (∀ el, el ∈ revealed (deliver callbacks (initScrollAnimations false flagged marked)) →
           el ∈ marked ∨ el ∈ intersected callbacks).
Proof.
  assert (Hentries : ∀ entries seen st,
    (∃ ts, observer st = Some ts ∧
           (∀ el, el ∈ flagged → el ∈ revealed st ∨ el ∈ ts) ∧
           (∀ el, el ∈ ts → el ∈ flagged) ∧
           (∀ el, el ∈ revealed st → el ∈ marked ∨ el ∈ seen)) →
    ∃ ts, observer (onIntersect entries st) = Some ts ∧
          (∀ el, el ∈ flagged → el ∈ revealed (onIntersect entries st) ∨ el ∈ ts) ∧
          (∀ el, el ∈ ts → el ∈ flagged) ∧
          (∀ el, el ∈ revealed (onIntersect entries st) →
                 el ∈ marked
                 ∨ el ∈ seen ++ (target <$> filter (λ e, isIntersecting e = true) entries))).
  { unfold onIntersect. induction entries as [|e es IH]; intros seen st Hst; cbn [foldl].
    - rewrite filter_nil, fmap_nil, app_nil_r. exact Hst.
    - apply (onEntry_accounts flagged seen marked st e) in Hst.
      destruct (IH _ _ Hst) as (ts & Ho & Hc & Hs & Hseen).
      exists ts. split; [exact Ho|]. split; [exact Hc|]. split; [exact Hs|].
      intros el Hel. destruct (Hseen el Hel) as [Hm|Hin]; [left; exact Hm|]. right.
      rewrite <- app_assoc in Hin.
      destruct (isIntersecting e) eqn:He.
      + rewrite filter_cons_True by exact He. rewrite fmap_cons. exact Hin.
      + rewrite filter_cons_False by congruence. exact Hin. }
  assert (Hall : ∀ cbs seen st,
    (∃ ts, observer st = Some ts ∧
           (∀ el, el ∈ flagged → el ∈ revealed st ∨ el ∈ ts) ∧
           (∀ el, el ∈ ts → el ∈ flagged) ∧
           (∀ el, el ∈ revealed st → el ∈ marked ∨ el ∈ seen)) →
    ∃ ts, observer (deliver cbs st) = Some ts ∧
          (∀ el, el ∈ flagged → el ∈ revealed (deliver cbs st) ∨ el ∈ ts) ∧
          (∀ el, el ∈ ts → el ∈ flagged) ∧
          (∀ el, el ∈ revealed (deliver cbs st) → el ∈ marked ∨ el ∈ seen ++ intersected cbs)).
  { unfold deliver, intersected.
    induction cbs as [|es cbs IH]; intros seen st Hst; cbn [foldl concat].
    - rewrite filter_nil, fmap_nil, app_nil_r. exact Hst.
    - apply (Hentries es seen st) in Hst.
      destruct (IH _ _ Hst) as (ts & Ho & Hc & Hs & Hseen).
      exists ts. split; [exact Ho|]. split; [exact Hc|]. split; [exact Hs|].
      intros el Hel. destruct (Hseen el Hel) as [Hm|Hin]; [left; exact Hm|]. right.
      rewrite <- app_assoc in Hin. rewrite filter_app, fmap_app. exact Hin. }
  destruct (Hall callbacks [] (initScrollAnimations false flagged marked)) as (ts & H);
    [|exists ts; exact H].
  simpl. eexists. split; [reflexivity|]. split; [|split].
  - intros el Hel. right. apply flagged_set. right. exact Hel.
  - intros el Hel. apply flagged_set in Hel as [Hel|Hel]; [|exact Hel].
    apply not_elem_of_empty in Hel. contradiction.
  - intros el Hel. left. exact Hel.
Qed.

End RevealMoreFacts.

(** ** Pointer follower: no overshoot *)
Section CursorMoreFacts.
Import Cursor.
Local Open Scope Q_scope.

Lemma REST_pow_le_1 k : REST ^ Z.of_nat k <= 1.
Proof.
  pose proof (REST_pow_bound k) as Hb. pose proof (REST_pow_pos k) as Hp.
  assert (Hk : 0 <= inject_Z (Z.of_nat k)).
  { change 0 with (inject_Z 0). rewrite <- Zle_Qle. lia. }
  set (p := REST ^ Z.of_nat k) in *. set (n := inject_Z (Z.of_nat k)) in *.
  assert (0 <= p * (n * (3 # 22))).
  { apply Qmult_le_0_compat; [lra|]. apply Qmult_le_0_compat; lra. }
  lra.
Qed.

(** Moving a fraction of the way from [a] to [b] lands between them. *)
Lemma between (a b p : Q) :
  0 <= p -> p <= 1 -> Qmin a b <= b - p * (b - a) /\ b - p * (b - a) <= Qmax a b.
Proof.
  intros H0 H1. destruct (Qlt_le_dec a b) as [Hab|Hba].
  - rewrite (Q.min_l a b), (Q.max_r a b) by lra.
    assert (0 <= p * (b - a)) by (apply Qmult_le_0_compat; lra).
    assert (0 <= (1 - p) * (b - a)) by (apply Qmult_le_0_compat; lra).
    split; lra.
  - rewrite (Q.min_r a b), (Q.max_l a b) by lra.
    assert (0 <= p * (a - b)) by (apply Qmult_le_0_compat; lra).
    assert (0 <= (1 - p) * (a - b)) by (apply Qmult_le_0_compat; lra).
    split; lra.
Qed.

(** X19: after a pointer move the next frame puts the lead marker exactly
    on the pointer; and however many frames run, the trail marker stays, on
    each axis, between where it was and where the pointer is: it never
    overshoots. *)
Theorem trail_never_overshoots (st : State) (k : nat) :
  (forall x y, dot (updateCursor (onMouseMove x y st)) = {| left := x; top := y |}) /\
  (Qmin (ringX st) (mouseX st) <= ringX (frames k st) /\
   ringX (frames k st) <= Qmax (ringX st) (mouseX st)) /\
  (Qmin (ringY st) (mouseY st) <= ringY (frames k st) /\
   ringY (frames k st) <= Qmax (ringY st) (mouseY st)).
Proof.
  split; [reflexivity|].
  destruct (frames_gap k st) as [Gx Gy].
  pose proof (REST_pow_pos k) as Hp. pose proof (REST_pow_le_1 k) as H1.
  assert (Ex : ringX (frames k st) == mouseX st - REST ^ Z.of_nat k * (mouseX st - ringX st)) by lra.
  assert (Ey : ringY (frames k st) == mouseY st - REST ^ Z.of_nat k * (mouseY st - ringY st)) by lra.
  rewrite Ex, Ey. split; apply between; lra.
Qed.

End CursorMoreFacts.

(** ** Scroll progress: the share, and one frame at a time *)
Section ScrollMoreFacts.
Import ScrollProgress.
Local Open Scope Q_scope.

(** X20: on a page that can be scrolled the width written is the scrolled
    share in percent as long as the position is within the scrollable
    height, 0 for a position above the top and 100 for one past the end; it
    never decreases when the position grows. *)
Theorem progress_share (w : Window) :
  0 < scrollHeight w - innerHeight w ->
  (0 <= scrollY w -> scrollY w <= scrollHeight w - innerHeight w ->
     clamp (progress w) 0 100 == scrollY w / (scrollHeight w - innerHeight w) * 100) /\
  (scrollY w <= 0 -> clamp (progress w) 0 100 == 0) /\
  (scrollHeight w - innerHeight w <= scrollY w -> clamp (progress w) 0 100 == 100) /\
  (forall y', scrollY w <= y' ->
     clamp (progress w) 0 100
     <= clamp (progress {| scrollHeight := scrollHeight w; innerHeight := innerHeight w;
                           scrollY := y' |}) 0 100).
Proof.
  intros Hpos.
  assert (Hp : forall y, progress {| scrollHeight := scrollHeight w;
                                      innerHeight := innerHeight w; scrollY := y |}
                         = y / (scrollHeight w - innerHeight w) * 100).
  { intros y. unfold progress. simpl.
    destruct (Qlt_le_dec 0 (scrollHeight w - innerHeight w)) as [_|Hle]; [reflexivity|].
    exfalso. apply (Qlt_irrefl 0), (Qlt_le_trans _ _ _ Hpos Hle). }
  assert (Hw : progress w = scrollY w / (scrollHeight w - innerHeight w) * 100).
  { destruct w as [sh ih y]. apply (Hp y). }
  set (d := scrollHeight w - innerHeight w) in *.
  assert (Hinv : 0 < / d) by (apply Qinv_lt_0_compat; exact Hpos).
  assert (Hshare : forall y, y / d * 100 == y * (/ d * 100)) by (intros y; unfold Qdiv; ring).
  assert (Hunit : d * (/ d * 100) == 100) by (field; lra).
  assert (Hc : 0 < / d * 100) by lra.
  split; [|split; [|split]].
  - intros H0 H1. rewrite Hw. apply clamp_inside; rewrite Hshare.
    + apply Qmult_le_0_compat; lra.
    + apply Qle_trans with (d * (/ d * 100)); [apply Qmult_le_compat_r; lra|].
      rewrite Hunit. apply Qle_refl.
  - intros H0. rewrite Hw. unfold clamp. rewrite Hshare.
    assert (scrollY w * (/ d * 100) <= 0).
    { rewrite <- (Qmult_0_l (/ d * 100)). apply Qmult_le_compat_r; lra. }
    rewrite Q.max_r by assumption. apply Q.min_l. discriminate.
  - intros H1. rewrite Hw. apply clamp_above; [discriminate|]. rewrite Hshare.
    apply Qle_trans with (d * (/ d * 100)); [rewrite Hunit; apply Qle_refl|].
    apply Qmult_le_compat_r; lra.
  - intros y' Hy. rewrite Hw, Hp. apply clamp_mono. rewrite !Hshare.
    apply Qmult_le_compat_r; lra.
Qed.

Lemma progress_share_witness :
  clamp (progress {| scrollHeight := 3000; innerHeight := 1000; scrollY := 500 |}) 0 100 == 25.
Proof.
  destruct (progress_share {| scrollHeight := 3000; innerHeight := 1000; scrollY := 500 |})
    as (Hin & _); [reflexivity|].
  rewrite Hin; [reflexivity|discriminate|discriminate].
Defined.

(** X21: scroll events between two frames ask for one frame only: over any
    sequence of scroll events and frames, [requestAnimationFrame] is called
    at most once more than frames have run, and not at all while a frame is
    pending. *)
Theorem one_frame_at_a_time (evs : list Event) (st : State) :
  (requests evs st <= frameCount evs + (if ticking st then 0 else 1))%nat.
Proof.
  revert st. induction evs as [|ev evs IH]; intros st; simpl; [lia|].
  specialize (IH (handle ev st)). destruct ev as [|w]; simpl in *.
  - unfold onScroll in *. destruct (ticking st) eqn:E; simpl in *; rewrite ?E in IH; lia.
  - destruct (ticking st); lia.
Qed.

End ScrollMoreFacts.

(** ** Debounce *)
Section DebounceFacts.
Import Debounce.
Context {A : Type}.

Lemma call_single (args : A) (st : State A) :
  single st →
  single (call args st) ∧ timer (call args st) = Some (nextHandle st) ∧
  pending (call args st) = {[ nextHandle st := args ]} ∧ calls (call args st) = calls st.
Proof.
  intros Hs.
  assert (Hempty : match timer st with
                   | Some t => delete t (pending st)
                   | None => pending st
                   end = ∅).
  { apply map_eq. intros t. rewrite lookup_empty.
    destruct (timer st) as [t0|] eqn:Et.
    - destruct (decide (t = t0)) as [->|Hne]; [apply lookup_delete_eq|].
      rewrite lookup_delete_ne by congruence.
      destruct (pending st !! t) as [a|] eqn:E; [|reflexivity].
      specialize (Hs t a E). congruence.
    - destruct (pending st !! t) as [a|] eqn:E; [|reflexivity].
      specialize (Hs t a E). congruence. }
  assert (Hp : pending (call args st) = {[ nextHandle st := args ]}).
  { unfold call. simpl. rewrite Hempty. reflexivity. }
  split; [|split; [reflexivity|split; [exact Hp|reflexivity]]].
  intros t a. rewrite Hp. intros Hl.
  apply lookup_singleton_Some in Hl as [<- _]. reflexivity.
Qed.

Lemma fire_single (t : nat) (st : State A) : single st → single (fire t st).
Proof.
  intros Hs. unfold fire. destruct (pending st !! t) as [a|] eqn:E; [|exact Hs].
  intros t' a'. simpl. intros Hl.
  destruct (decide (t' = t)) as [->|Hne]; [rewrite lookup_delete_eq in Hl; discriminate|].
  rewrite lookup_delete_ne in Hl by congruence. apply (Hs t' a' Hl).
Qed.

Lemma default_last (a b : A) (l : list A) : default a (last (b :: l)) = default b (last l).
Proof.
  destruct l as [|c l]; [reflexivity|]. rewrite last_cons_cons.
  destruct (last_is_Some (c :: l)) as [_ [x ->]]; [discriminate|reflexivity].
Qed.

(** X23: after a burst of calls of the debounced function, with no timeout
    expiring in between, one timeout is pending, the stored one, and it
    carries the arguments of the last call; when it expires [fn] is called
    once, with those arguments, and nothing is left pending; any other
    timeout expiring does nothing. *)
Theorem debounce_burst (st : State A) (a : A) (more : list A) :
  single st →
  ∃ t, timer (deliver (Call <$> a :: more) st) = Some t ∧
       pending (deliver (Call <$> a :: more) st) = {[ t := default a (last more) ]} ∧
       calls (deliver (Call <$> a :: more) st) = calls st ∧
       calls (fire t (deliver (Call <$> a :: more) st)) = calls st ++ [default a (last more)] ∧
       pending (fire t (deliver (Call <$> a :: more) st)) = ∅ ∧
       (∀ t', t' ≠ t → fire t' (deliver (Call <$> a :: more) st)
                       = deliver (Call <$> a :: more) st).
Proof.
  revert st a. induction more as [|b more IH]; intros st a Hs.
  - destruct (call_single a st Hs) as (_ & Ht & Hp & Hc).
    exists (nextHandle st). unfold deliver. cbn [fmap list_fmap foldl handle last default].
    split; [exact Ht|]. split; [exact Hp|]. split; [exact Hc|].
    unfold fire. rewrite Hp, lookup_singleton_eq. simpl. try rewrite Hc.
    split; [reflexivity|]. split; [apply delete_singleton_eq|].
    intros t' Hne. rewrite lookup_singleton_ne by congruence. reflexivity.
  - destruct (call_single a st Hs) as (Hs1 & _ & _ & Hc).
    destruct (IH (call a st) b Hs1) as (t & H).
    exists t. rewrite default_last. exact H.
Qed.

Lemma reachable_single (evs : list (Event A)) : single (deliver evs start).
Proof.
  assert (H : ∀ st, single st → single (deliver evs st)).
  { unfold deliver. induction evs as [|ev evs IH]; intros st Hs; [exact Hs|].
    simpl. apply IH. destruct ev as [a|t]; [apply call_single, Hs|apply fire_single, Hs]. }
  apply H. intros t a Hl. simpl in Hl. rewrite lookup_empty in Hl. discriminate.
Qed.

End DebounceFacts.

Lemma debounce_burst_witness :
  Debounce.calls
    (Debounce.deliver
       [Debounce.Call 800%Z; Debounce.Call 1024%Z; Debounce.Call 1280%Z;
        Debounce.Fire 0%nat; Debounce.Fire 2%nat; Debounce.Fire 1%nat]
       Debounce.start)
  = [1280%Z].
Proof.
  destruct (debounce_burst (Debounce.start (A := Z)) 800%Z [1024%Z; 1280%Z]) as (t & Ht & _).
  - intros t a Hl. simpl in Hl. rewrite lookup_empty in Hl. discriminate.
  - vm_compute in Ht. injection Ht as <-. reflexivity.
Defined.

(** ** Navbar: the mobile menu *)
Section NavbarFacts.
Import Navbar.

Lemma open_coherent m : coherent (openMobileMenu m).
Proof. repeat split. Qed.

Lemma close_coherent m : coherent (closeMobileMenu m).
Proof. repeat split. Qed.

Lemma handle_menu ev st m :
  menu st = Some m →
  ∃ m', menu (handle ev st) = Some m' ∧
        (setsMenu ev m = true → coherent m') ∧ (coherent m → coherent m').
Proof.
  intros Hm. destruct ev as [y| | |escape]; simpl; rewrite Hm; simpl.
  - exists m. split; [reflexivity|]. split; [discriminate|tauto].
  - exists (toggleMobileMenu m). split; [reflexivity|].
    unfold toggleMobileMenu. destruct (isOpen m); split; intros _;
      first [apply close_coherent|apply open_coherent].
  - exists (closeMobileMenu m). split; [reflexivity|]. split; intros _; apply close_coherent.
  - eexists. split; [reflexivity|].
    destruct (escape && isOpen m); split; intros H; try discriminate; try exact H;
      repeat split.
Qed.

(** X24: once the script has opened or closed the mobile menu (toggle
    button, menu link, Escape on an open menu), [aria-expanded] on the
    toggle says whether the menu is open, [aria-hidden] on the menu says the
    opposite and page scrolling is locked exactly while it is open; this
    stays so through every later event. *)
Theorem menu_stays_coherent (st : State) (m : Menu) (evs : list Event) :
  menu st = Some m →
  (∀ ev, setsMenu ev m = true →
     ∃ m', menu (deliver evs (handle ev st)) = Some m' ∧ coherent m') ∧
  (coherent m → ∃ m', menu (deliver evs st) = Some m' ∧ coherent m').
Proof.
  intros Hm.
  assert (Hkeep : ∀ evs s m0, menu s = Some m0 → coherent m0 →
                  ∃ m', menu (deliver evs s) = Some m' ∧ coherent m').
  { clear. unfold deliver. induction evs as [|ev evs IH]; intros s m0 Hs Hc; [eauto|].
    simpl. destruct (handle_menu ev s m0 Hs) as (m1 & H1 & _ & Hk).
    apply (IH _ m1 H1 (Hk Hc)). }
  split.
  - intros ev Hev. destruct (handle_menu ev st m Hm) as (m1 & H1 & Hset & _).
    apply (Hkeep evs _ m1 H1 (Hset Hev)).
  - intros Hc. apply (Hkeep evs st m Hm Hc).
Qed.

Lemma menu_stays_coherent_witness :
  let st := {| scrolled := false;
               menu := Some {| isOpen := false; ariaExpanded := None; ariaHidden := None;
                               bodyLocked := false; toggleFocused := false |} |} in
  ∃ m', menu (deliver [Scroll 120; KeyDown true; ToggleClick] (handle ToggleClick st)) = Some m' ∧
        isOpen m' = true ∧ coherent m'.
Proof.
  intros st.
  destruct (menu_stays_coherent st _ [Scroll 120; KeyDown true; ToggleClick] eq_refl) as [H _].
  destruct (H ToggleClick eq_refl) as (m' & Hm' & Hc).
  exists m'. split; [exact Hm'|]. split; [|exact Hc].
  vm_compute in Hm'. injection Hm' as <-. reflexivity.
Defined.

(** X25: on a coherent menu two clicks on the toggle bring the menu back to
    where it was; Escape closes an open menu and moves the focus to the
    toggle, and does nothing to a closed one; other keys do nothing; and
    when the toggle or the menu element is missing no event touches a
    menu. *)
Theorem menu_round_trip (st : State) (m : Menu) :
  menu st = Some m → coherent m →
  handle ToggleClick (handle ToggleClick st) = st ∧
  (isOpen m = false → handle (KeyDown true) st = st) ∧
  (isOpen m = true →
     ∃ m', menu (handle (KeyDown true) st) = Some m' ∧
           isOpen m' = false ∧ toggleFocused m' = true ∧ coherent m') ∧
  handle (KeyDown false) st = st.
Proof.
  intros Hm (He & Hh & Hb). destruct st as [sc mn]. simpl in Hm. subst mn.
  destruct m as [o ae ah bl tf]. simpl in He, Hh, Hb. subst ae ah bl.
  split; [|split; [|split]].
  - destruct o; reflexivity.
  - intros Ho. simpl in Ho. subst o. reflexivity.
  - intros Ho. simpl in Ho. subst o. eexists. split; [reflexivity|]. repeat split.
  - reflexivity.
Qed.

Lemma menu_round_trip_witness :
  let st := {| scrolled := true;
               menu := Some (openMobileMenu {| isOpen := false; ariaExpanded := None;
                                               ariaHidden := None; bodyLocked := false;
                                               toggleFocused := false |}) |} in
  handle ToggleClick (handle ToggleClick st) = st.
Proof.
  intros st. apply (menu_round_trip st _ eq_refl). apply open_coherent.
Defined.

End NavbarFacts.

(** ** Hero particles *)
Section ParticlesFacts.
Import Particles.
Local Open Scope Q_scope.

Lemma createParticle_in_range r1 r2 r3 r4 r5 r6 :
  (0 <= r1 /\ r1 < 1) -> (0 <= r2 /\ r2 < 1) -> (0 <= r3 /\ r3 < 1) ->
  (0 <= r4 /\ r4 < 1) -> (0 <= r5 /\ r5 < 1) -> (0 <= r6 /\ r6 < 1) ->
  in_range (createParticle r1 r2 r3 r4 r5 r6).
Proof.
  intros [? ?] [? ?] [? ?] [? ?] [? ?] [? ?].
  unfold in_range, createParticle. simpl. repeat split; lra.
Qed.

(** X26: when motion is allowed and [#heroParticles] exists, exactly 20
    particles are appended; each is square, 2 to 6 pixels wide, placed within
    the container, animated over 10 to 25 seconds with a start shifted back
    by up to 10 seconds, and has an opacity from 0.05 to 0.25, the ends of
    the ranges included: the ranges of the comments, given that
    [Math.random()] returns numbers in [[0, 1)]. *)
Theorem particles_in_range (reduced container : bool) (random : nat -> Q)
    (ps : list Particle) :
  (forall k, 0 <= random k /\ random k < 1) ->
  initHeroParticles reduced container random = Ran ps ->
  reduced = false /\ container = true /\ length ps = 20%nat /\ Forall in_range ps.
Proof.
  intros Hr. unfold initHeroParticles.
  destruct reduced; [discriminate|]. destruct container; [|discriminate].
  intros [= <-]. split; [reflexivity|]. split; [reflexivity|].
  split; [reflexivity|].
  repeat (constructor; [apply createParticle_in_range; apply Hr|]). constructor.
Qed.

Lemma particles_in_range_witness :
  exists ps, initHeroParticles false true (fun _ => 1 # 2) = Ran ps /\
             Forall in_range ps /\ length ps = 20%nat.
Proof.
  eexists. split; [reflexivity|]. split; [|reflexivity].
  refine (proj2 (proj2 (proj2 (particles_in_range false true (fun _ => 1 # 2) _ _ eq_refl)))).
  intros k. split; [discriminate|reflexivity].
Defined.

End ParticlesFacts.

(** ** Entry point: an exception ends the start-up *)
Section BootFacts.
Import Boot.

Lemma cursor_faults_iff hover dom :
  faults (Cursor.initCursor hover dom) = true ↔
  hover = true ∧ ∃ d r, Cursor.cursor dom = Some (d, r) ∧ (d = None ∨ r = None).
Proof.
  unfold Cursor.initCursor. destruct hover; simpl.
  - destruct (Cursor.cursor dom) as [[d r]|].
    + destruct d as [d|], r as [r|]; simpl;
        (split;
         [first [discriminate|intros _; split; [reflexivity|eauto 6]]
         |first [intros _; reflexivity
                |intros [_ (d' & r' & E & [H|H])]; injection E as <- <-; discriminate]]).
    + simpl. split; [discriminate|]. intros [_ (d' & r' & H & _)]. discriminate.
  - split; [discriminate|]. intros [H _]. discriminate.
Qed.

Lemma carousel_faults_iff reduced dom :
  faults (Carousel.initTestimonialsCarousel reduced dom) = true ↔
  ∃ n, Carousel.testimonialsTrack dom = Some (S n) ∧ Carousel.testimonialPrev dom = true ∧
       Carousel.testimonialNext dom = true ∧ Carousel.testimonialDots dom = false.
Proof.
  unfold Carousel.initTestimonialsCarousel.
  destruct dom as [[[|n]|] [|] [|] [|]]; simpl;
    (split;
     [first [discriminate|intros _; exists n; auto]
     |first [intros _; reflexivity
            |intros (k & H1 & H2 & H3 & H4); simpl in *; discriminate]]).
Qed.

Lemma outcome_faults {A} (r : InitResult A) :
  outcome r = if faults r then None else Some (match r with Ran _ => true | _ => false end).
Proof. destruct r; reflexivity. Qed.

Lemma others_never_fault (p : Page) :
  faults (ScrollProgress.initScrollProgress (scrollProgressBar p)) = false ∧
  faults (Navbar.initNavbar (scrollY p) (navbarDom p)) = false ∧
  faults (Particles.initHeroParticles (reducedMotion p) (heroParticles p) (random p)) = false ∧
  faults (Counters.initCounters (reducedMotion p) (countersDom p)) = false ∧
  faults (Form.initContactForm (formDom p)) = false.
Proof.
  repeat split.
  - destruct (scrollProgressBar p); reflexivity.
  - unfold Navbar.initNavbar. destruct (Navbar.navbar (navbarDom p)); reflexivity.
  - unfold Particles.initHeroParticles.
    destruct (reducedMotion p), (heroParticles p); reflexivity.
  - unfold Counters.initCounters. destruct (reducedMotion p); [reflexivity|].
    destruct (length (Counters.counters (countersDom p)) =? 0)%nat; reflexivity.
  - unfold Form.initContactForm. destruct (Form.contatoForm (formDom p)); reflexivity.
Qed.

(** X27: the initialisers are called in sequence and only two of them can
    throw.  If the cursor's does (hover device, [#cursor] present, a marker
    missing) no initialiser returns; if the carousel's does (track, buttons
    and a card present, [#testimonialDots] missing) the six before it have
    returned and [initContactForm] is not called, whether or not its
    elements exist; otherwise all eight are called and return.  So
    [initContactForm] is called exactly when neither of the two throws, and
    the form gets its listeners exactly when, moreover, [#contatoForm]
    exists: without it the call returns from its guard. *)
Theorem boot_stops_at_fault (p : Page) :
  let cursorThrows := faults (Cursor.initCursor (hasHover p) (cursorDom p)) in
  let carouselThrows :=
    faults (Carousel.initTestimonialsCarousel (reducedMotion p) (carouselDom p)) in
  (cursorThrows = true → boot p = []) ∧
  (cursorThrows = false → carouselThrows = true →
     (boot p).*1 =
       [CCursor; CScrollProgress; CNavbar; CScrollAnimations; CHeroParticles; CCounters]) ∧
  (cursorThrows = false → carouselThrows = false →
     (boot p).*1 =
       [CCursor; CScrollProgress; CNavbar; CScrollAnimations; CHeroParticles; CCounters;
        CCarousel; CContactForm]) ∧
  (called CContactForm p ↔ cursorThrows = false ∧ carouselThrows = false) ∧
  (setUp CContactForm p ↔
     cursorThrows = false ∧ carouselThrows = false ∧
     is_Some (Form.contatoForm (formDom p))) ∧
  (setUp CCarousel p ↔
     cursorThrows = false ∧
     ∃ st, Carousel.initTestimonialsCarousel (reducedMotion p) (carouselDom p) = Ran st) ∧
  (cursorThrows = true ↔
     hasHover p = true ∧
     ∃ d r, Cursor.cursor (cursorDom p) = Some (d, r) ∧ (d = None ∨ r = None)) ∧
  (carouselThrows = true ↔
     ∃ n, Carousel.testimonialsTrack (carouselDom p) = Some (S n) ∧
          Carousel.testimonialPrev (carouselDom p) = true ∧
          Carousel.testimonialNext (carouselDom p) = true ∧
          Carousel.testimonialDots (carouselDom p) = false).
Proof.
  intros cursorThrows carouselThrows.
  cut ((cursorThrows = true → boot p = []) ∧
       (cursorThrows = false → carouselThrows = true →
          (boot p).*1 = [CCursor; CScrollProgress; CNavbar; CScrollAnimations; CHeroParticles;
                       CCounters]) ∧
       (cursorThrows = false → carouselThrows = false →
          (boot p).*1 = [CCursor; CScrollProgress; CNavbar; CScrollAnimations; CHeroParticles;
                       CCounters; CCarousel; CContactForm]) ∧
       (called CContactForm p ↔ cursorThrows = false ∧ carouselThrows = false) ∧
       (setUp CContactForm p ↔
          cursorThrows = false ∧ carouselThrows = false ∧
          is_Some (Form.contatoForm (formDom p))) ∧
       (setUp CCarousel p ↔
          cursorThrows = false ∧
          ∃ st, Carousel.initTestimonialsCarousel (reducedMotion p) (carouselDom p) = Ran st)).
  { intros (A1 & A2 & A3 & A4 & A5 & A6). repeat (split; [assumption|]).
    split; [apply cursor_faults_iff|apply carousel_faults_iff]. }
  destruct (others_never_fault p) as (H1 & H2 & H3 & H4 & _).
  unfold called, setUp, boot, cursorThrows, carouselThrows.
  rewrite (outcome_faults (ScrollProgress.initScrollProgress _)), H1.
  rewrite (outcome_faults (Navbar.initNavbar _ _)), H2.
  rewrite (outcome_faults (Particles.initHeroParticles _ _ _)), H3.
  rewrite (outcome_faults (Counters.initCounters _ _)), H4.
  generalize (match ScrollProgress.initScrollProgress (scrollProgressBar p)
              with Ran _ => true | _ => false end).
  generalize (match Navbar.initNavbar (scrollY p) (navbarDom p)
              with Ran _ => true | _ => false end).
  generalize (match Particles.initHeroParticles (reducedMotion p) (heroParticles p) (random p)
              with Ran _ => true | _ => false end).
  generalize (match Counters.initCounters (reducedMotion p) (countersDom p)
              with Ran _ => true | _ => false end).
  intros b1 b2 b3 b4.
  unfold Form.initContactForm.
  destruct (Cursor.initCursor (hasHover p) (cursorDom p)) as [| |cst];
    destruct (Carousel.initTestimonialsCarousel (reducedMotion p) (carouselDom p)) as [| |kst];
    destruct (Form.contatoForm (formDom p)) as [fm|];
    cbn [completed outcome faults fmap list_fmap fst];
    repeat split; intros;
    repeat match goal with
           | H : _ ∧ _ |- _ => destruct H
           | H : ∃ _, _ |- _ => destruct H
           | H : is_Some None |- _ => destruct H
           | H : _ ∈ _ |- _ => apply list_elem_of_In in H; simpl in H
           | H : _ ∨ _ |- _ => destruct H
           | H : False |- _ => contradiction
           end;
    try discriminate; try reflexivity; eauto;
    try (apply list_elem_of_In; simpl; tauto);
    try (eexists; apply list_elem_of_In; simpl;
         repeat (first [left; reflexivity|right])).
Qed.

Lemma boot_stops_at_fault_witness :
  let p := {| hasHover := true; reducedMotion := false; scrollY := 0;
              random := fun _ => 0%Q;
              cursorDom := {| Cursor.cursor := None |};
              scrollProgressBar := true;
              navbarDom := {| Navbar.navbar := None; Navbar.navToggle := false;
                              Navbar.mobileMenu := false;
                              Navbar.markup := {| Navbar.isOpen := false;
                                                  Navbar.ariaExpanded := None;
                                                  Navbar.ariaHidden := None;
                                                  Navbar.bodyLocked := false;
                                                  Navbar.toggleFocused := false |} |};
              heroParticles := false;
              countersDom := {| Counters.counters := []; Counters.statCard := false |};
              carouselDom := {| Carousel.testimonialsTrack := Some 3%nat;
                                Carousel.testimonialPrev := true;
                                Carousel.testimonialNext := true;
                                Carousel.testimonialDots := false |};
              formDom := {| Form.contatoForm := Some (Form.form (Form.page "" "" "" "" ""));
                            Form.formFeedback := None |} |} in
  ¬ called CContactForm p ∧
  (boot p).*1 = [CCursor; CScrollProgress; CNavbar; CScrollAnimations; CHeroParticles;
                 CCounters].
Proof.
  intros p. split.
  - intros Hin.
    apply (proj1 (proj1 (proj2 (proj2 (proj2 (boot_stops_at_fault p)))))) in Hin as [_ H].
    vm_compute in H. discriminate H.
  - apply (proj1 (proj2 (boot_stops_at_fault p))); reflexivity.
Defined.

End BootFacts.
